(** * Advent of Code 2021, day 19: scanner alignment

    A shallow embedding of [2021/day19/main.py] and the properties of its
    distance graph, correspondence matcher, transform solver, merge engine
    and alignment driver.

    Conventions of the embedding:
    - numpy arrays created with [dtype=int] hold 64-bit signed integers;
      they are integers of [Z] and every arithmetic operation is followed by
      the two's-complement wrap-around [Int64.wrap];
    - Python exceptions are the [Raise] results of the monad [result];
    - a Python [dict] is an insertion-ordered association list with unique
      keys; list indices, dictionary keys and values are natural numbers
      (they all come from [enumerate] and [range]);
    - the translation of a scanner is a column of shape (3, 1) at first and a
      vector of shape (3,) once solved; [get_scan] adds either to the rotated
      point coordinate by coordinate, so both are a triple here;
    - [sorted] is a stable sort. *)

From Stdlib Require Import ZArith Lia Bool.
From stdpp Require Import prelude sorting.

Open Scope Z_scope.

(** ** 64-bit integers of numpy *)

Module Int64.

Definition modulus : Z := 2 ^ 64.
Definition half : Z := 2 ^ 63.
Definition int_min : Z := - half.
Definition int_max : Z := half - 1.

(** The representative of [z] modulo [2^64] in [[-2^63, 2^63)]. *)
Definition wrap (z : Z) : Z := (z + half) mod modulus - half.

Definition in_range (z : Z) : Prop := int_min <= z <= int_max.
Definition in_rangeb (z : Z) : bool := (int_min <=? z) && (z <=? int_max).

Definition add (a b : Z) : Z := wrap (a + b).
Definition sub (a b : Z) : Z := wrap (a - b).
Definition mul (a b : Z) : Z := wrap (a * b).
Definition neg (a : Z) : Z := wrap (- a).
(** [abs] of the least integer is the least integer itself. *)
Definition abs (a : Z) : Z := wrap (Z.abs a).
(** [a ** 2] *)
Definition square (a : Z) : Z := wrap (a * a).
(** [a // b]: floor division; numpy yields 0 (and a warning) for [b = 0]. *)
Definition floordiv (a b : Z) : Z := if b =? 0 then 0 else wrap (a / b).

(** Congruence modulo [2^64]. *)
Definition eqm (a b : Z) : Prop := a mod modulus = b mod modulus.

End Int64.

(** ** Exceptions *)

(** [AssertionError] carries the line of the failing [assert]. *)
Inductive exn : Type :=
  | IndexError
  | TypeError
  | AttributeError
  | OverflowError
  | AssertionError (line : nat).

Inductive result (A : Type) : Type :=
  | Ok (a : A)
  | Raise (e : exn).
Arguments Ok {A} a.
Arguments Raise {A} e.

#[global] Instance result_ret : MRet result := @Ok.
#[global] Instance result_bind : MBind result := fun A B f m =>
  match m with
  | Ok a => f a
  | Raise e => Raise e
  end.

(** [assert c] at line [line]. *)
Definition assert (line : nat) (c : bool) : result unit :=
  if c then Ok tt else Raise (AssertionError line).

(** [l[i]] for a non-negative [i]. *)
Definition list_get {A} (l : list A) (i : nat) : result A :=
  match l !! i with
  | Some x => Ok x
  | None => Raise IndexError
  end.

(** ** [sorted]: a stable sort *)

Section Sorted.
Context {A : Type} (leb : A -> A -> bool).

(** [x] goes in front of the first element that is not smaller: elements
    with equal keys keep their order. *)
Fixpoint insert_sorted (x : A) (l : list A) : list A :=
  match l with
  | [] => [x]
  | y :: l' => if leb x y then x :: l else y :: insert_sorted x l'
  end.

Definition sorted (l : list A) : list A := foldr insert_sorted [] l.
End Sorted.

(** ** Geometry primitives *)

Definition Point : Type := Z * Z * Z.
Definition Matrix : Type := Point * Point * Point.

Definition delta (point01 point02 : Point) : Z * Z * Z :=
  let '(x1, y1, z1) := point01 in
  let '(x2, y2, z2) := point02 in
  (Int64.sub x2 x1, Int64.sub y2 y1, Int64.sub z2 z1).

Definition manhatan_distance (point01 point02 : Point) : Z :=
  let '(dx, dy, dz) := delta point01 point02 in
  Int64.add (Int64.add (Int64.abs dx) (Int64.abs dy)) (Int64.abs dz).

Definition squared_distance (point01 point02 : Point) : Z :=
  let '(dx, dy, dz) := delta point01 point02 in
  Int64.add (Int64.add (Int64.square dx) (Int64.square dy)) (Int64.square dz).

(** [key=lambda x: tuple(x)]: the lexicographic order of the coordinates. *)
Definition point_leb (p q : Point) : bool :=
  let '(x1, y1, z1) := p in
  let '(x2, y2, z2) := q in
  (x1 <? x2) || ((x1 =? x2) && ((y1 <? y2) || ((y1 =? y2) && (z1 <=? z2)))).

Definition point_eqb (p q : Point) : bool :=
  let '(x1, y1, z1) := p in
  let '(x2, y2, z2) := q in
  (x1 =? x2) && (y1 =? y2) && (z1 =? z2).

Definition point_in_range (p : Point) : Prop :=
  let '(x, y, z) := p in
  Int64.in_range x /\ Int64.in_range y /\ Int64.in_range z.

Definition zero_vector : Point := (0, 0, 0).
Definition identity_matrix : Matrix := ((1, 0, 0), (0, 1, 0), (0, 0, 1)).
Definition zero_matrix : Matrix := ((0, 0, 0), (0, 0, 0), (0, 0, 0)).

(** One row of [rotation_matrix.dot(p)]. *)
Definition row_dot (r p : Point) : Z :=
  let '(a, b, c) := r in
  let '(x, y, z) := p in
  Int64.add (Int64.add (Int64.mul a x) (Int64.mul b y)) (Int64.mul c z).

Definition mat_dot (m : Matrix) (p : Point) : Point :=
  let '(r0, r1, r2) := m in (row_dot r0 p, row_dot r1 p, row_dot r2 p).

Definition vec_add (p q : Point) : Point :=
  let '(x1, y1, z1) := p in
  let '(x2, y2, z2) := q in
  (Int64.add x1 x2, Int64.add y1 y2, Int64.add z1 z2).

(** ** Edges and scanners *)

Record Edge : Type := mkEdge { edge_i : nat; edge_j : nat; weight : Z }.

Record Scanner : Type := mkScanner {
  index : nat;
  translation : option Point;   (* [None] only after [set_translation(None)] *)
  rotation_matrix : Matrix;
  scans : list Point;
  graph : option (list (list Z));             (* [None] until [build_graph] *)
  unique_edges_by_weight : option (list Edge) (* [None] until [build_graph] *)
}.

(** [Scanner(index)] *)
Definition Scanner_init (index : nat) : Scanner :=
  {| index := index; translation := Some zero_vector;
     rotation_matrix := identity_matrix; scans := [];
     graph := None; unique_edges_by_weight := None |}.

Definition size (s : Scanner) : nat := length (scans s).

Definition get_origin (s : Scanner) : option Point := translation s.

(** [rotation_matrix.dot(scans[index].T).T + translation.T] *)
Definition get_scan (s : Scanner) (i : nat) : result Point :=
  p ← list_get (scans s) i;
  match translation s with
  | Some t => Ok (vec_add (mat_dot (rotation_matrix s) p) t)
  | None => Raise AttributeError
  end.

(** The loop of [get_scans], over the indices [0 .. len(scans)-1]. *)
Fixpoint get_scan_loop (s : Scanner) (indices : list nat) : result (list Point) :=
  match indices with
  | [] => Ok []
  | i :: rest =>
      p ← get_scan s i;
      ps ← get_scan_loop s rest;
      Ok (p :: ps)
  end.

Definition get_scans (s : Scanner) : result (list Point) :=
  scans' ← get_scan_loop s (seq 0 (length (scans s)));
  Ok (sorted point_leb scans').

Definition set_rotation (s : Scanner) (m : Matrix) : Scanner :=
  {| index := index s; translation := translation s; rotation_matrix := m;
     scans := scans s; graph := graph s;
     unique_edges_by_weight := unique_edges_by_weight s |}.

Definition set_translation (s : Scanner) (t : option Point) : Scanner :=
  {| index := index s; translation := t; rotation_matrix := rotation_matrix s;
     scans := scans s; graph := graph s;
     unique_edges_by_weight := unique_edges_by_weight s |}.

Definition reset_rotation (s : Scanner) : Scanner := set_rotation s identity_matrix.

Definition reset_translation (s : Scanner) : Scanner :=
  set_translation s (Some zero_vector).

(** [numpy.array([x, y, z], dtype=int)] raises [OverflowError] for a Python
    integer that does not fit 64 bits. *)
Definition numpy_array (x y z : Z) : result Point :=
  if Int64.in_rangeb x && Int64.in_rangeb y && Int64.in_rangeb z
  then Ok (x, y, z) else Raise OverflowError.

Definition add_scan (s : Scanner) (x y z : Z) : result Scanner :=
  p ← numpy_array x y z;
  Ok {| index := index s; translation := translation s;
        rotation_matrix := rotation_matrix s; scans := scans s ++ [p];
        graph := graph s; unique_edges_by_weight := unique_edges_by_weight s |}.

(** [enumerate(l)] *)
Definition enumerate {A} (l : list A) : list (nat * A) := imap pair l.

Definition zeros (n m : nat) : list (list Z) := replicate n (replicate m 0).

(** [g[i, j] = d]; both indices are in range at every use in [build_graph]. *)
Definition set2 (g : list (list Z)) (i j : nat) (d : Z) : list (list Z) :=
  alter (fun row => <[j := d]> row) i g.

(** [g[i][j]] *)
Definition graph_get (g : option (list (list Z))) (i j : nat) : result Z :=
  match g with
  | None => Raise TypeError
  | Some rows => row ← list_get rows i; list_get row j
  end.

Definition weight_leb (e1 e2 : Edge) : bool := weight e1 <=? weight e2.

(** The body of the inner loop of [build_graph]. *)
Definition build_graph_cell (index01 : nat) (point01 : Point)
    (st : list (list Z) * list Edge) (c : nat * Point) : list (list Z) * list Edge :=
  let '(g, es) := st in
  let '(index02, point02) := c in
  let d := squared_distance point01 point02 in
  let g := set2 (set2 g index01 index02 d) index02 index01 d in
  (g, if 0 <? d then es ++ [mkEdge index01 index02 d] else es).

(** The body of the outer loop: [index02] runs over [range(index01, N)]. *)
Definition build_graph_row (scans' : list Point)
    (st : list (list Z) * list Edge) (r : nat * Point) : list (list Z) * list Edge :=
  let '(index01, point01) := r in
  foldl (build_graph_cell index01 point01) st (drop index01 (enumerate scans')).

Definition build_graph_loops (N : nat) (scans' : list Point) : list (list Z) * list Edge :=
  foldl (build_graph_row scans') (zeros N N, []) (enumerate scans').

Definition build_graph (s : Scanner) : Scanner :=
  let N := length (scans s) in
  let scans' := sorted point_leb (scans s) in
  let '(g, es) := build_graph_loops N scans' in
  {| index := index s; translation := translation s;
     rotation_matrix := rotation_matrix s; scans := scans';
     graph := Some g; unique_edges_by_weight := Some (sorted weight_leb es) |}.

(** ** The correspondence matcher *)

(** A [dict] with integer keys in insertion order. *)
Definition dict : Type := list (nat * nat).

Fixpoint dict_get (m : dict) (k : nat) : option nat :=
  match m with
  | [] => None
  | (k', v) :: rest => if (k' =? k)%nat then Some v else dict_get rest k
  end.

(** [m[k] = v]: an existing key keeps its position. *)
Fixpoint dict_set (m : dict) (k v : nat) : dict :=
  match m with
  | [] => [(k, v)]
  | (k', v') :: rest =>
      if (k' =? k)%nat then (k', v) :: rest else (k', v') :: dict_set rest k v
  end.

Record SubGraphIsomorphism : Type := mkIso {
  scanner01 : Scanner;
  scanner02 : Scanner;
  iso_map : dict
}.

Definition SubGraphIsomorphism_init (s1 s2 : Scanner) : SubGraphIsomorphism :=
  mkIso s1 s2 [].

(** [get_map(i01)] with an index; [None] for a missing key. *)
Definition get_map (m : SubGraphIsomorphism) (i01 : nat) : option nat :=
  dict_get (iso_map m) i01.

Definition iso_size (m : SubGraphIsomorphism) : nat := length (iso_map m).

Definition add (m : SubGraphIsomorphism) (j01 j02 : nat) : SubGraphIsomorphism :=
  mkIso (scanner01 m) (scanner02 m) (dict_set (iso_map m) j01 j02).

(** The loop of [test_edge_addition] over [self.map.items()]. *)
Fixpoint test_edge_loop (g1 g2 : option (list (list Z))) (j01 j02 : nat)
    (items : dict) : result bool :=
  match items with
  | [] => Ok true
  | (i01, i02) :: rest =>
      a ← graph_get g1 i01 j01;
      b ← graph_get g2 i02 j02;
      if negb (a =? b) then Ok false else test_edge_loop g1 g2 j01 j02 rest
  end.

Definition test_edge_addition (m : SubGraphIsomorphism) (j01 j02 : nat) : result bool :=
  match dict_get (iso_map m) j01 with
  | Some v => Ok (v =? j02)%nat
  | None =>
      test_edge_loop (graph (scanner01 m)) (graph (scanner02 m)) j01 j02 (iso_map m)
  end.

(** The [while] loop of the merge-join. The pair [(index02, edge02)] of the
    source is the suffix [edge02 :: after] of scanner02's edge list that
    starts at [index02]; [index02 + 1 < len(...)] says [after] is not empty. *)
Fixpoint advance (w : Z) (edge02 : Edge) (after : list Edge) : Edge * list Edge :=
  match after with
  | next :: after' =>
      if weight edge02 <? w then advance w next after' else (edge02, after)
  | [] => (edge02, [])
  end.

Fixpoint match_edges (edges01 : list Edge) (edge02 : Edge) (after : list Edge)
    : list (Edge * Edge) :=
  match edges01 with
  | [] => []
  | edge01 :: rest =>
      let '(edge02', after') := advance (weight edge01) edge02 after in
      (if weight edge01 =? weight edge02' then [(edge01, edge02')] else [])
      ++ match_edges rest edge02' after'
  end.

(** Lines 160-168: the first phase of [find_subgraph_isomorphism]. *)
Definition matched_edges (scanner01 scanner02 : Scanner) : result (list (Edge * Edge)) :=
  match unique_edges_by_weight scanner02 with
  | None => Raise TypeError
  | Some [] => Raise IndexError
  | Some (edge02 :: after) =>
      match unique_edges_by_weight scanner01 with
      | None => Raise TypeError
      | Some edges01 => Ok (match_edges edges01 edge02 after)
      end
  end.

Definition opt_is (o : option nat) (v : nat) : bool :=
  match o with
  | Some x => (x =? v)%nat
  | None => false
  end.

Definition is_None (o : option nat) : bool :=
  match o with
  | Some _ => false
  | None => true
  end.

(** A deep copy of [map] extended by [a -> a2] and then [b -> b2], when both
    additions pass [test_edge_addition]. *)
Definition extend (map : SubGraphIsomorphism) (a a2 b b2 : nat)
    : result (option SubGraphIsomorphism) :=
  let new_map := map in
  t1 ← test_edge_addition new_map a a2;
  if t1 : bool then
    let new_map := add new_map a a2 in
    t2 ← test_edge_addition new_map b b2;
    if t2 : bool then Ok (Some (add new_map b b2)) else Ok None
  else Ok None.

Definition keep (st : list SubGraphIsomorphism * bool)
    (r : option SubGraphIsomorphism) : list SubGraphIsomorphism * bool :=
  match r with
  | Some m => (st.1 ++ [m], true)
  | None => st
  end.

(** One iteration of the loop [while len(maps) > 0] on the popped [map]; the
    state is [(new_maps, mapped)]. *)
Definition try_map (i01 j01 i02 j02 : nat)
    (st : list SubGraphIsomorphism * bool) (map : SubGraphIsomorphism)
    : result (list SubGraphIsomorphism * bool) :=
  let st :=
    if opt_is (get_map map i01) i02 && opt_is (get_map map j01) j02
    then (st.1 ++ [map], true) else st in
  let st :=
    if opt_is (get_map map i01) j02 && opt_is (get_map map j01) i02
    then (st.1 ++ [map], true) else st in
  '(new_maps, mapped) ←
    (if is_None (get_map map i01) || is_None (get_map map j01) then
       r1 ← extend map i01 i02 j01 j02;
       let st := keep st r1 in
       r2 ← extend map i01 j02 j01 i02;
       Ok (keep st r2)
     else Ok st);
  if mapped : bool then Ok (new_maps, mapped) else Ok (new_maps ++ [map], mapped).

Fixpoint foldM {A B} (f : A -> B -> result A) (a : A) (l : list B) : result A :=
  match l with
  | [] => Ok a
  | x :: rest => a' ← f a x; foldM f a' rest
  end.

(** The body of the loop over [matched_edges]. [maps.pop()] takes the maps
    from the end of the list. *)
Definition process_edge_pair (s1 s2 : Scanner) (maps : list SubGraphIsomorphism)
    (e : Edge * Edge) : result (list SubGraphIsomorphism) :=
  let '(edge01, edge02) := e in
  let i01 := edge_i edge01 in
  let j01 := edge_j edge01 in
  let i02 := edge_i edge02 in
  let j02 := edge_j edge02 in
  '(new_maps, mapped) ← foldM (try_map i01 j01 i02 j02) ([], false) (reverse maps);
  if mapped : bool then Ok new_maps
  else
    let seed1 := add (add (SubGraphIsomorphism_init s1 s2) i01 i02) j01 j02 in
    let seed2 := add (add (SubGraphIsomorphism_init s1 s2) i01 j02) j01 i02 in
    Ok ([seed1] ++ (new_maps ++ [seed2])).

Definition largest (maps : list SubGraphIsomorphism) (s1 s2 : Scanner)
    : SubGraphIsomorphism :=
  match maps with
  | [] => SubGraphIsomorphism_init s1 s2
  | first :: others =>
      foldl (fun largest_map map =>
               if (iso_size largest_map <? iso_size map)%nat then map else largest_map)
            first others
  end.

Definition find_subgraph_isomorphism (s1 s2 : Scanner) : result SubGraphIsomorphism :=
  pairs ← matched_edges s1 s2;
  maps ← foldM (process_edge_pair s1 s2) [] pairs;
  Ok (largest maps s1 s2).

(** ** The transform solver *)

(** [v[c] = x] and [m[r][c] = x]; the source only uses the literal indices
    0, 1 and 2 (numpy raises [IndexError] for any other). *)
Definition vec_set (v : Point) (c : nat) (x : Z) : Point :=
  let '(a, b, d) := v in
  match c with
  | 0%nat => (x, b, d)
  | 1%nat => (a, x, d)
  | 2%nat => (a, b, x)
  | _ => v
  end.

Definition mat_set (m : Matrix) (r c : nat) (x : Z) : Matrix :=
  let '(r0, r1, r2) := m in
  match r with
  | 0%nat => (vec_set r0 c x, r1, r2)
  | 1%nat => (r0, vec_set r1 c x, r2)
  | 2%nat => (r0, r1, vec_set r2 c x)
  | _ => m
  end.

Record RotState : Type := mkRot {
  x_rotated : bool;
  y_rotated : bool;
  z_rotated : bool;
  rot : Matrix
}.

Definition all_rotated (st : RotState) : bool :=
  x_rotated st && y_rotated st && z_rotated st.

(** The block of one axis (lines 251-259, 262-270, 273-281): [d] is the delta
    of scanner01 along the axis, [o1] and [o2] its deltas along the other two
    axes, [d2] the delta of scanner02, [row] the row of the matrix. *)
Definition axis_step (line row : nat) (d o1 o2 : Z) (d2 : Z * Z * Z)
    (rotated : bool) (m : Matrix) : result (bool * Matrix) :=
  let '(dx02, dy02, dz02) := d2 in
  if negb rotated && (0 <? Int64.abs d)
     && negb (Int64.abs d =? Int64.abs o1) && negb (Int64.abs d =? Int64.abs o2)
  then
    _ ← assert line ((Int64.abs d =? Int64.abs dx02)
                     || (Int64.abs d =? Int64.abs dy02)
                     || (Int64.abs d =? Int64.abs dz02));
    Ok (true,
        if Int64.abs d =? Int64.abs dx02 then mat_set m row 0 (Int64.floordiv dx02 d)
        else if Int64.abs d =? Int64.abs dy02 then mat_set m row 1 (Int64.floordiv dy02 d)
        else if Int64.abs d =? Int64.abs dz02 then mat_set m row 2 (Int64.floordiv dz02 d)
        else m)
  else Ok (rotated, m).

(** Lines 246-281, for the items [(i01, i02)] and [(j01, j02)] of the map. *)
Definition rotation_pair (s1 s2 : Scanner) (i01 i02 j01 j02 : nat) (st : RotState)
    : result RotState :=
  if negb (i01 =? i02)%nat then
    p1 ← list_get (scans s1) i01;
    q1 ← list_get (scans s1) j01;
    p2 ← list_get (scans s2) i02;
    q2 ← list_get (scans s2) j02;
    let '(dx01, dy01, dz01) := delta p1 q1 in
    let d2 := delta p2 q2 in
    '(xr, m) ← axis_step 252 0 dx01 dy01 dz01 d2 (x_rotated st) (rot st);
    '(yr, m) ← axis_step 263 1 dy01 dx01 dz01 d2 (y_rotated st) m;
    '(zr, m) ← axis_step 274 2 dz01 dx01 dy01 d2 (z_rotated st) m;
    Ok (mkRot xr yr zr m)
  else Ok st.

(** The inner loop, with its [break]. *)
Fixpoint rotation_inner (s1 s2 : Scanner) (i01 i02 : nat) (items : dict)
    (st : RotState) : result RotState :=
  match items with
  | [] => Ok st
  | (j01, j02) :: rest =>
      st' ← rotation_pair s1 s2 i01 i02 j01 j02 st;
      if all_rotated st' then Ok st' else rotation_inner s1 s2 i01 i02 rest st'
  end.

(** The outer loop, with its [break]. *)
Fixpoint rotation_outer (s1 s2 : Scanner) (all_items items : dict)
    (st : RotState) : result RotState :=
  match items with
  | [] => Ok st
  | (i01, i02) :: rest =>
      st' ← rotation_inner s1 s2 i01 i02 all_items st;
      if all_rotated st' then Ok st' else rotation_outer s1 s2 all_items rest st'
  end.

(** Lines 242-286. *)
Definition find_rotation (s1 s2 : Scanner) (items : dict) : result RotState :=
  rotation_outer s1 s2 items items (mkRot false false false zero_matrix).

(** Lines 291-296: the translation from the first item of the map. *)
Definition find_translation (s1 s2 : Scanner) (items : dict) : result (option Point) :=
  match items with
  | [] => Ok None
  | (i01, i02) :: _ =>
      scan02 ← get_scan s2 i02;
      p1 ← list_get (scans s1) i01;
      let '(dx, dy, dz) := delta p1 scan02 in
      Ok (Some (Int64.neg dx, Int64.neg dy, Int64.neg dz))
  end.

(** Lines 300-303. *)
Fixpoint check_loop (s1 s2 : Scanner) (items : dict) : result unit :=
  match items with
  | [] => Ok tt
  | (i01, i02) :: rest =>
      scan02 ← get_scan s2 i02;
      p1 ← list_get (scans s1) i01;
      let '(dx, dy, dz) := delta p1 scan02 in
      _ ← assert 303 ((dx =? 0) && (dy =? 0) && (dz =? 0));
      check_loop s1 s2 rest
  end.

(** Both scanners are mutated; the result is their final state. *)
Definition orient_02_to_01 (s1 s2 : Scanner) (isomorphisim : SubGraphIsomorphism)
    : result (Scanner * Scanner) :=
  _ ← assert 236 (index s1 =? index (scanner01 isomorphisim))%nat;
  _ ← assert 237 (index s2 =? index (scanner02 isomorphisim))%nat;
  let s1 := reset_translation (reset_rotation s1) in
  st ← find_rotation s1 s2 (iso_map isomorphisim);
  _ ← assert 287 (all_rotated st);
  let s2 := set_rotation s2 (rot st) in
  translation ← find_translation s1 s2 (iso_map isomorphisim);
  let s2 := set_translation s2 translation in
  _ ← check_loop s1 s2 (iso_map isomorphisim);
  Ok (s1, s2).

(** ** The merge engine *)

(** The body of the loop over [scanner02.get_scans()]; [scanner01.get_scans()]
    is evaluated again at every iteration. *)
Definition merge_point (s1 : Scanner) (scan02 : Point) : result Scanner :=
  scans01 ← get_scans s1;
  if existsb (fun scan01 => point_eqb scan01 scan02) scans01 then Ok s1
  else let '(x, y, z) := scan02 in add_scan s1 x y z.

Definition merge_02_into_01 (s1 s2 : Scanner) : result Scanner :=
  scans02 ← get_scans s2;
  s1 ← foldM merge_point s1 scans02;
  Ok (build_graph s1).

(** ** The alignment driver *)

(** Lines 330-345 without the text parsing: one scanner per header, one
    [add_scan] per line of coordinates, then [build_graph]. *)
Definition load_scanner (r : nat * list Point) : result Scanner :=
  foldM (fun s '(x, y, z) => add_scan s x y z) (Scanner_init r.1) r.2.

Fixpoint load_scanners (input : list (nat * list Point)) : result (list Scanner) :=
  match input with
  | [] => Ok []
  | r :: rest =>
      s ← load_scanner r;
      ss ← load_scanners rest;
      Ok (s :: ss)
  end.

Definition load (input : list (nat * list Point)) : result (list Scanner) :=
  ss ← load_scanners input;
  Ok (map build_graph ss).

(** [oriented] holds the scanners folded into [scanner00], with the rotation
    and translation [orient_02_to_01] gave them. *)
Record Driver : Type := mkDriver {
  scanner00 : Scanner;
  unoriented_scanners : list Scanner;
  oriented : list Scanner
}.

(** Lines 348-349. *)
Definition driver_init (scanners : list Scanner) : result Driver :=
  s0 ← list_get scanners 0;
  Ok (mkDriver s0 (drop 1 scanners) []).

(** Lines 351-362: one iteration of the worklist loop. *)
Definition driver_step (st : Driver) : result Driver :=
  match unoriented_scanners st with
  | [] => Ok st
  | scanner01 :: rest =>
      isomorphism ← find_subgraph_isomorphism (scanner00 st) scanner01;
      if (12 <=? iso_size isomorphism)%nat then
        let expected_size :=
          Z.of_nat (size (scanner00 st)) + Z.of_nat (size scanner01)
          - Z.of_nat (iso_size isomorphism) in
        '(s00, s01) ← orient_02_to_01 (scanner00 st) scanner01 isomorphism;
        s00 ← merge_02_into_01 s00 s01;
        _ ← assert 357 (Z.of_nat (size s00) =? expected_size);
        Ok (mkDriver s00 rest (oriented st ++ [s01]))
      else Ok (mkDriver (scanner00 st) (rest ++ [scanner01]) (oriented st))
  end.

(** [n] iterations of the loop. *)
Fixpoint driver_steps (n : nat) (st : Driver) : result Driver :=
  match n with
  | O => Ok st
  | S n' => st' ← driver_step st; driver_steps n' st'
  end.

(** ** The coordinates of a map *)

(** [get_coordinates()]: the points of scanner01 at the keys of the map, in
    the order of the keys. *)
Fixpoint get_coordinates_loop (scans01 : list Point) (items : dict)
    : result (list Point) :=
  match items with
  | [] => Ok []
  | (i01, _) :: rest =>
      p ← list_get scans01 i01;
      coordinates ← get_coordinates_loop scans01 rest;
      Ok (p :: coordinates)
  end.

Definition get_coordinates (m : SubGraphIsomorphism) : result (list Point) :=
  get_coordinates_loop (scans (scanner01 m)) (iso_map m).

(** ** The largest distance between scanners *)

(** [manhatan_distance(scanner01.get_origin(), scanner02.get_origin())]; a
    translation that is [None] cannot be indexed. *)
Definition origin_distance (scanner01 scanner02 : Scanner) : result Z :=
  match get_origin scanner01, get_origin scanner02 with
  | Some point01, Some point02 => Ok (manhatan_distance point01 point02)
  | _, _ => Raise TypeError
  end.

(** Lines 371-375: the body of the inner loop. *)
Definition max_distance_step (i01 : nat) (scanner01 : Scanner) (max_distance : Z)
    (x : nat * Scanner) : result Z :=
  let '(i02, scanner02) := x in
  if (i01 =? i02)%nat then Ok max_distance
  else
    d ← origin_distance scanner01 scanner02;
    Ok (if max_distance <? d then d else max_distance).

(** Lines 368-379. *)
Definition max_distance_loop (scanners : list Scanner) : result Z :=
  foldM (fun max_distance '(i01, scanner01) =>
           foldM (max_distance_step i01 scanner01) max_distance (enumerate scanners))
        0 (enumerate scanners).

(** ** The rotations of the input domain *)

(** The source has no table of rotations: the 24 rotations are the matrices
    whose rows are signed unit vectors and whose determinant is 1. *)
Definition unit_rows : list Point :=
  [(1, 0, 0); (-1, 0, 0); (0, 1, 0); (0, -1, 0); (0, 0, 1); (0, 0, -1)].

Definition det3 (m : Matrix) : Z :=
  let '((a, b, c), (d, e, f), (g, h, i)) := m in
  a * (e * i - f * h) - b * (d * i - f * g) + c * (d * h - e * g).

Definition rotations24 : list Matrix :=
  List.filter (fun m => det3 m =? 1)
    (flat_map (fun r0 => flat_map (fun r1 => List.map (fun r2 => (r0, r1, r2)) unit_rows)
                           unit_rows) unit_rows).

(** The point [rotation.p + translation] as [get_scan] computes it. *)
Definition transform (rotation : Matrix) (translation : Point) (p : Point) : Point :=
  vec_add (mat_dot rotation p) translation.

(** The squared length of a delta: [squared_distance p q = norm2 (delta p q)]. *)
Definition norm2 (d : Point) : Z :=
  let '(dx, dy, dz) := d in
  Int64.add (Int64.add (Int64.square dx) (Int64.square dy)) (Int64.square dz).

(** ** Order of the sorts *)

Definition point_le (p q : Point) : Prop := point_leb p q = true.
Definition weight_le (e1 e2 : Edge) : Prop := weight_leb e1 e2 = true.

(** ** Graphs that follow the points *)

(** The entry of the distance graph at [(i, j)]: the loops of [build_graph]
    compute it from the points at [min i j] and [max i j]. *)
Definition graph_entry (pts : list Point) (i j : nat) : Z :=
  squared_distance (pts !!! (i `min` j)%nat) (pts !!! (i `max` j)%nat).

(** [graph] and [unique_edges_by_weight] are what [build_graph] computes from
    the present points (which need not be sorted). *)
Definition up_to_date (s : Scanner) : Prop :=
  let r := build_graph_loops (length (scans s)) (scans s) in
  graph s = Some r.1 /\ unique_edges_by_weight s = Some (sorted weight_leb r.2).

(** ** The loops of [build_graph], cell by cell *)

Definition lookup2 (g : list (list Z)) (a b : nat) : option Z :=
  g !! a ≫= fun row => row !! b.

(** An [N] by [N] matrix. *)
Definition dims (N : nat) (g : list (list Z)) : Prop :=
  length g = N /\ Forall (fun row => length row = N) g.

(** The two assignments of one cell [(index01, index02)] of the loops. *)
Definition write (g : list (list Z)) (w : nat * nat * Z) : list (list Z) :=
  let '(i, j, d) := w in set2 (set2 g i j d) j i d.

Definition touches (w : nat * nat * Z) (a b : nat) : bool :=
  let '(i, j, _) := w in
  ((i =? a)%nat && (j =? b)%nat) || ((i =? b)%nat && (j =? a)%nat).

Definition cell_of (index01 : nat) (point01 : Point) (c : nat * Point) : nat * nat * Z :=
  (index01, c.1, squared_distance point01 c.2).

Definition row_cells (scans' : list Point) (r : nat * Point) : list (nat * nat * Z) :=
  map (cell_of r.1 r.2) (drop r.1 (enumerate scans')).

Definition all_cells (scans' : list Point) : list (nat * nat * Z) :=
  flat_map (row_cells scans') (enumerate scans').

(** The edge, if any, that a cell appends. *)
Definition cell_edge (w : nat * nat * Z) : list Edge :=
  let '(i, j, d) := w in if 0 <? d then [mkEdge i j d] else [].

Definition all_edges (scans' : list Point) : list Edge :=
  flat_map cell_edge (all_cells scans').

(** ** The merge-join, edge by edge *)

(** The first edge of [es] whose weight is [w]. *)
Definition first_with_weight (w : Z) (es : list Edge) : option Edge :=
  List.find (fun e => weight e =? w) es.

(** Each edge of [es1] with the first edge of [es2] of the same weight. *)
Definition first_matches (es1 es2 : list Edge) : list (Edge * Edge) :=
  omap (fun e1 => pair e1 <$> first_with_weight (weight e1) es2) es1.

(** All the pairs of edges of equal weight. *)
Definition all_matches (es1 es2 : list Edge) : list (Edge * Edge) :=
  flat_map (fun e1 => map (pair e1) (List.filter (fun e2 => weight e2 =? weight e1) es2)) es1.

(** A scanner read from the input, with its graph built. *)
Definition scanner_of (index : nat) (points : list Point) : Scanner :=
  match load_scanner (index, points) with
  | Ok s => build_graph s
  | Raise _ => Scanner_init index
  end.

(** ** Scanners of the examples *)

Definition two_points : list Point := [(1, 0, 0); (0, 0, 0)].

Definition unsorted_scanner : Scanner :=
  {| index := 0; translation := Some zero_vector; rotation_matrix := identity_matrix;
     scans := two_points; graph := None; unique_edges_by_weight := None |}.

Definition corner : list Point := [(0, 0, 0); (1, 0, 0)].
Definition corner3 : list Point := [(0, 0, 0); (0, 1, 0); (1, 0, 0)].

(** The claim about the first phase, as it is written: every pair of edges
    of equal weight is among the matched pairs. *)
Definition enumerates_all_matches (s1 s2 : Scanner) : Prop :=
  forall es1 es2 e1 e2,
    unique_edges_by_weight s1 = Some es1 ->
    unique_edges_by_weight s2 = Some es2 ->
    e1 ∈ es1 -> e2 ∈ es2 -> weight e1 = weight e2 ->
    exists pairs, matched_edges s1 s2 = Ok pairs /\ (e1, e2) ∈ pairs.

(** ** Results and exceptions of a computation *)

(** [r] returns a value that satisfies [P] or raises an exception that
    satisfies [E]. *)
Definition result_sat {A} (E : exn -> Prop) (P : A -> Prop) (r : result A) : Prop :=
  match r with
  | Ok a => P a
  | Raise e => E e
  end.

Definition no_exn : exn -> Prop := fun _ => False.
Definition any_exn : exn -> Prop := fun _ => True.
Definition assertion_exn (e : exn) : Prop :=
  match e with
  | AssertionError _ => True
  | _ => False
  end.

(** ** The rotation search, axis by axis *)

Definition mat_row (m : Matrix) (a : nat) : Point :=
  let '(r0, r1, r2) := m in
  match a with
  | 0%nat => r0
  | 1%nat => r1
  | _ => r2
  end.

Definition set_row (m : Matrix) (a : nat) (r : Point) : Matrix :=
  let '(r0, r1, r2) := m in
  match a with
  | 0%nat => (r, r1, r2)
  | 1%nat => (r0, r, r2)
  | _ => (r0, r1, r)
  end.

(** The delta along axis [a] followed by the deltas along the other two
    axes, in the order of the tests of the source. *)
Definition pick (a : nat) (d : Point) : Z * Z * Z :=
  let '(dx, dy, dz) := d in
  match a with
  | 0%nat => (dx, dy, dz)
  | 1%nat => (dy, dx, dz)
  | _ => (dz, dx, dy)
  end.

Definition flag (a : nat) (st : RotState) : bool :=
  match a with
  | 0%nat => x_rotated st
  | 1%nat => y_rotated st
  | _ => z_rotated st
  end.

(** The test of lines 251, 262 and 273: the delta is not zero and its
    magnitude differs from the magnitudes along the other two axes. *)
Definition unique_delta (t : Z * Z * Z) : bool :=
  let '(d, o1, o2) := t in
  (0 <? Int64.abs d)
  && negb (Int64.abs d =? Int64.abs o1) && negb (Int64.abs d =? Int64.abs o2).
Arguments unique_delta : simpl never.

(** The wording of the specification: the magnitude is strictly larger than
    the magnitudes along the other two axes. *)
Definition larger_delta (t : Z * Z * Z) : bool :=
  let '(d, o1, o2) := t in
  (Int64.abs o1 <? Int64.abs d) && (Int64.abs o2 <? Int64.abs d).

(** The row that lines 253-258 write into a row of zeros: the ratio of the
    delta of scanner02 to the delta [d] of scanner01. *)
Definition ratio_row (d : Z) (d2 : Point) : Point :=
  let '(dx02, dy02, dz02) := d2 in
  if Int64.abs d =? Int64.abs dx02 then (Int64.floordiv dx02 d, 0, 0)
  else if Int64.abs d =? Int64.abs dy02 then (0, Int64.floordiv dy02 d, 0)
  else if Int64.abs d =? Int64.abs dz02 then (0, 0, Int64.floordiv dz02 d)
  else zero_vector.

(** The rows found so far are rows of [R], the others are still zero. *)
Definition rows_found (R : Matrix) (st : RotState) : Prop :=
  forall a, (a < 3)%nat ->
    mat_row (rot st) a = if flag a st then mat_row R a else zero_vector.

(** Every correspondence [(i1, i2)] of [items] relates a point of scanner02
    to the point of scanner01 that is its image by the rotation [R] and the
    translation [t]. *)
Definition related (R : Matrix) (t : Point) (s1 s2 : Scanner) (items : dict) : Prop :=
  forall i1 i2, (i1, i2) ∈ items ->
    exists p1 p2, scans s1 !! i1 = Some p1 /\ scans s2 !! i2 = Some p2
                  /\ p1 = transform R t p2.

(** The indices of the correspondences are indices of points. *)
Definition valid_items (s1 s2 : Scanner) (items : dict) : Prop :=
  forall i1 i2, (i1, i2) ∈ items -> (i1 < size s1)%nat /\ (i2 < size s2)%nat.

(** ** Scanners of the examples for the transform solver *)

(** Twelve points on the diagonal, seen by two scanners; the rotation
    [(x, y, z) -> (-y, -x, -z)] followed by the translation [(11, 11, 11)]
    maps the point [11 - i] of the second to the point [i] of the first. *)
Definition diagonal : list Point :=
  map (fun k => (Z.of_nat k, Z.of_nat k, Z.of_nat k)) (seq 0 12).

Definition diagonal_scanner (index : nat) : Scanner := scanner_of index diagonal.

Definition diagonal_map : dict := map (fun k => (k, 11 - k)%nat) (seq 0 12).

Definition diagonal_iso : SubGraphIsomorphism :=
  mkIso (diagonal_scanner 0) (diagonal_scanner 1) diagonal_map.

Definition half_turn : Matrix := ((0, -1, 0), (-1, 0, 0), (0, 0, -1)).

(** Two points seen by two scanners; the second scanner is turned by
    [quarter_turn] and moved by [(3, 0, 5)]. *)
Definition quarter_turn : Matrix := ((0, 0, 1), (0, 1, 0), (-1, 0, 0)).

Definition pair_scanner1 : Scanner := scanner_of 0 [(0, 0, 0); (1, 2, 3)].
Definition pair_scanner2 : Scanner := scanner_of 1 [(2, 2, -2); (5, 0, -3)].
Definition pair_iso : SubGraphIsomorphism :=
  mkIso pair_scanner1 pair_scanner2 [(0, 1); (1, 0)]%nat.

(** The rows that are not found yet are rows of zeros. *)
Definition zero_rows (st : RotState) : Prop :=
  forall a, (a < 3)%nat -> flag a st = false -> mat_row (rot st) a = zero_vector.

(** The pair of correspondences [i01 -> _] and [j01 -> _] defines axis [a]:
    the delta of their points of scanner01 along [a] is not zero and its
    magnitude differs from the magnitudes along the other two axes. *)
Definition axis_defining (s1 : Scanner) (a i01 j01 : nat) : Prop :=
  exists p q, scans s1 !! i01 = Some p /\ scans s1 !! j01 = Some q
              /\ unique_delta (pick a (delta p q)) = true.

(** Row [a] of [m] is the ratio of the deltas of an axis-defining pair of
    correspondences of [items]. *)
Definition row_from_pair (s1 s2 : Scanner) (items : dict) (a : nat) (m : Matrix) : Prop :=
  exists i01 i02 j01 j02 p1 q1 p2 q2,
    (i01, i02) ∈ items /\ (j01, j02) ∈ items
    /\ scans s1 !! i01 = Some p1 /\ scans s1 !! j01 = Some q1
    /\ scans s2 !! i02 = Some p2 /\ scans s2 !! j02 = Some q2
    /\ unique_delta (pick a (delta p1 q1)) = true
    /\ mat_row m a = ratio_row (pick a (delta p1 q1)).1.1 (delta p2 q2).

(** What one pair of correspondences does to axis [a]. *)
Definition axis_kept (a : nat) (st st' : RotState) : Prop :=
  flag a st' = flag a st /\ mat_row (rot st') a = mat_row (rot st) a.

Definition axis_set (s1 s2 : Scanner) (i01 i02 j01 j02 a : nat) (st st' : RotState) : Prop :=
  flag a st = false /\ flag a st' = true
  /\ exists p1 q1 p2 q2,
       scans s1 !! i01 = Some p1 /\ scans s1 !! j01 = Some q1
       /\ scans s2 !! i02 = Some p2 /\ scans s2 !! j02 = Some q2
       /\ unique_delta (pick a (delta p1 q1)) = true
       /\ mat_row (rot st') a = ratio_row (pick a (delta p1 q1)).1.1 (delta p2 q2).

(** The rows found so far come from axis-defining pairs of [items]. *)
Definition rows_from_pairs (s1 s2 : Scanner) (items : dict) (st : RotState) : Prop :=
  forall a, (a < 3)%nat ->
    if flag a st then row_from_pair s1 s2 items a (rot st)
    else mat_row (rot st) a = zero_vector.

(** One scanner matched with itself, index by index. *)
Definition same_iso : SubGraphIsomorphism :=
  mkIso pair_scanner1 pair_scanner1 [(0, 0); (1, 1)]%nat.

(** ** The reference scanner *)

(** The scanner has the identity rotation and no translation, and its points
    are 64-bit integers. *)
Definition reference_frame (s : Scanner) : Prop :=
  rotation_matrix s = identity_matrix
  /\ translation s = Some zero_vector
  /\ Forall point_in_range (scans s).

(** ** A scene of two scanners that share twelve points *)

Definition shared_points : list Point :=
  [(3, 1, 4); (15, 9, 2); (6, 53, 5); (8, 97, 93); (23, 84, 62); (64, 33, 83);
   (27, 95, 2); (88, 41, 97); (16, 93, 99); (37, 51, 5); (82, 9, 74); (94, 45, 92)].

(** The frame of the second scanner. *)
Definition to_second (p : Point) : Point :=
  let '(x, y, z) := p in (- z + 5, y, x - 3).

Definition scene_first : list Point :=
  shared_points ++ [(-50, -20, 7); (-31, -77, 12); (-5, -66, -39)].

Definition scene_second : list Point :=
  map to_second shared_points ++ [(200, 300, 400); (-200, 10, -300); (7, -300, 250)].

Definition scene : list (nat * list Point) := [(0%nat, scene_first); (1%nat, scene_second)].

(** ** The points of a scanner in the reference frame *)

(** The points of [s] under its rotation and translation, in index order. *)
Definition transformed (s : Scanner) : list Point :=
  match translation s with
  | Some t => map (fun p => vec_add (mat_dot (rotation_matrix s) p) t) (scans s)
  | None => []
  end.

(** Every point of scanner02 whose image is a point of scanner01 is a value
    of the map. *)
Definition covered (s1 s2 : Scanner) (items : dict) : Prop :=
  forall i2 p, get_scan s2 i2 = Ok p -> p ∈ scans s1 -> i2 ∈ items.*2.

Definition coveredb (s1 s2 : Scanner) (items : dict) : bool :=
  forallb (fun '(i2, p) =>
             negb (existsb (point_eqb p) (scans s1))
             || existsb (Nat.eqb i2) items.*2)
          (enumerate (transformed s2)).

(** The scanners of the scene, the map the matcher finds, and the scanners
    after the transform solver. *)
(** The value a computation returns, or [d] when it raises. *)
Definition value_or {A} (d : A) (r : result A) : A :=
  match r with
  | Ok a => a
  | Raise _ => d
  end.

Definition scene_scanner (i : nat) : Scanner :=
  default (Scanner_init i) (value_or [] (load scene) !! i).

Definition scene_iso : SubGraphIsomorphism :=
  value_or (SubGraphIsomorphism_init (scene_scanner 0) (scene_scanner 1))
    (find_subgraph_isomorphism (scene_scanner 0) (scene_scanner 1)).

Definition scene_oriented : Scanner * Scanner :=
  value_or (scene_scanner 0, scene_scanner 1)
    (orient_02_to_01 (scene_scanner 0) (scene_scanner 1) scene_iso).

Definition scene_driver : Driver :=
  mkDriver (scene_scanner 0) [scene_scanner 1] [].

Definition scene_merged : Driver :=
  value_or scene_driver (driver_step scene_driver).

(** ** A scene in which the matcher misses a shared point *)

(** The first scanner sees the twelve shared points and the point [extra].
    The second scanner sees the same thirteen points in its own frame, and
    thirteen more: [decoy_centre] and, for each shared point [p], a point at
    the distance of [p] to [extra] from [decoy_centre]. Their edges come first
    among the edges of equal weight of the second scanner. *)
Definition extra : Point := (40, 60, 20).

Definition decoy_centre : Point := (-1000, -1000, -1000).

Definition decoy (k : nat) (p : Point) : Point :=
  let '(x, y, z) := p in
  let '(dx, dy, dz) := (40 - x, 60 - y, 20 - z) in
  match (k mod 4)%nat with
  | 0%nat => (-1000 + dy, -1000 + dz, -1000 + dx)
  | 1%nat => (-1000 + dz, -1000 + dx, -1000 + dy)
  | 2%nat => (-1000 - dx, -1000 + dz, -1000 + dy)
  | _ => (-1000 + dy, -1000 - dx, -1000 - dz)
  end.

Definition decoy_first : Scanner := scanner_of 0 (shared_points ++ [extra]).

Definition decoy_second : Scanner :=
  scanner_of 1 (map to_second (shared_points ++ [extra])
                ++ [decoy_centre] ++ imap decoy shared_points).

Definition decoy_iso : SubGraphIsomorphism :=
  value_or (SubGraphIsomorphism_init decoy_first decoy_second)
    (find_subgraph_isomorphism decoy_first decoy_second).

Definition decoy_oriented : Scanner * Scanner :=
  value_or (decoy_first, decoy_second)
    (orient_02_to_01 decoy_first decoy_second decoy_iso).

Definition decoy_merged : Scanner :=
  value_or decoy_first (merge_02_into_01 decoy_oriented.1 decoy_oriented.2).

(** ** Consistent correspondence maps *)

(** The claim about the matcher: equal graph entries at every two
    correspondences of the map. *)
Definition consistent (s1 s2 : Scanner) (items : dict) : Prop :=
  forall i1 i2 j1 j2, (i1, i2) ∈ items -> (j1, j2) ∈ items ->
    exists w, graph_get (graph s1) i1 j1 = Ok w /\ graph_get (graph s2) i2 j2 = Ok w.

Definition consistentb (s1 s2 : Scanner) (items : dict) : bool :=
  forallb (fun '(i1, i2) =>
    forallb (fun '(j1, j2) =>
      match graph_get (graph s1) i1 j1, graph_get (graph s2) i2 j2 with
      | Ok a, Ok b => a =? b
      | _, _ => false
      end) items) items.

(** The same with the closed form of the graphs, and with indices in range. *)
Definition good_items (s1 s2 : Scanner) (items : dict) : Prop :=
  valid_items s1 s2 items
  /\ forall i1 i2 j1 j2, (i1, i2) ∈ items -> (j1, j2) ∈ items ->
       graph_entry (scans s1) i1 j1 = graph_entry (scans s2) i2 j2.

Definition good_map (s1 s2 : Scanner) (m : SubGraphIsomorphism) : Prop :=
  scanner01 m = s1 /\ scanner02 m = s2 /\ good_items s1 s2 (iso_map m).

Definition good_edge (s : Scanner) (e : Edge) : Prop :=
  (edge_i e < size s)%nat /\ (edge_j e < size s)%nat
  /\ weight e = graph_entry (scans s) (edge_i e) (edge_j e).

(** ** Definitions for the further properties *)

(** The correspondences of the candidate maps come from the matched edges. *)
Definition from_pairs (pairs : list (Edge * Edge)) (items : dict) : Prop :=
  forall k v, (k, v) ∈ items ->
    exists e1 e2, (e1, e2) ∈ pairs
      /\ (k = edge_i e1 \/ k = edge_j e1) /\ (v = edge_i e2 \/ v = edge_j e2).

(** The 48 matrices whose rows are signed unit vectors along three different
    axes: the 24 rotations and their mirror images. *)
Definition signed_permutations : list Matrix :=
  List.filter (fun m => negb (det3 m =? 0))
    (flat_map (fun r0 => flat_map (fun r1 => List.map (fun r2 => (r0, r1, r2)) unit_rows)
                           unit_rows) unit_rows).

(** The axis of a signed unit vector. *)
Definition axis_of (r : Point) : option nat :=
  match r with
  | (1, 0, 0) | (-1, 0, 0) => Some 0%nat
  | (0, 1, 0) | (0, -1, 0) => Some 1%nat
  | (0, 0, 1) | (0, 0, -1) => Some 2%nat
  | _ => None
  end.

(** The magnitude of the coordinate of [v] along an axis. *)
Definition abs_coord (o : option nat) (v : Point) : Z :=
  match o with
  | Some c => Int64.abs (pick c v).1.1
  | None => 0
  end.

(** Two points and their mirror images in the plane [x = 0]. *)
Definition mirror_scanner : Scanner := scanner_of 1 [(0, 0, 0); (-1, 2, 3)].

Definition mirror_iso : SubGraphIsomorphism :=
  mkIso pair_scanner1 mirror_scanner [(0, 1); (1, 0)]%nat.

(** The pairs of scanners in the order of the two loops of lines 369 and 370,
    and what one pair adds to the largest distance: nothing for a scanner
    and itself. *)
Definition scanner_pairs (scanners : list Scanner)
    : list ((nat * Scanner) * (nat * Scanner)) :=
  flat_map (fun x => map (pair x) (enumerate scanners)) (enumerate scanners).

Definition pair_distance (p : (nat * Scanner) * (nat * Scanner)) : result (option Z) :=
  if (p.1.1 =? p.2.1)%nat then Ok None
  else d ← origin_distance p.1.2 p.2.2; Ok (Some d).

(** What the worklist loop keeps: the reference scanner is in the reference
    frame with its graph built, the scanners of the worklist have their
    graphs built, the oriented scanners have an origin, and no scanner is
    lost: the indices of the scanners are the indices of the input. *)
Definition driver_invariant (indices : list nat) (d : Driver) : Prop :=
  up_to_date (scanner00 d) /\ reference_frame (scanner00 d)
  /\ Forall up_to_date (unoriented_scanners d)
  /\ Forall (fun s => is_Some (get_origin s)) (oriented d)
  /\ index (scanner00 d) :: map index (unoriented_scanners d ++ oriented d)
     ≡ₚ indices.


(** * Properties *)

(** ** Arithmetic modulo [2^64] *)

Module Int64Facts.
Import Int64.

Lemma modulus_eq : modulus = 18446744073709551616.
Proof. reflexivity. Qed.

Lemma half_eq : half = 9223372036854775808.
Proof. reflexivity. Qed.

Ltac unfold_int64 :=
  unfold add, sub, mul, neg, abs, square, in_range, int_min, int_max, wrap, eqm in *;
  rewrite ?modulus_eq, ?half_eq in *.

#[global] Instance eqm_equiv : Equivalence eqm.
Proof.
  split.
  - intros x. reflexivity.
  - intros x y H. unfold eqm in *. congruence.
  - intros x y z H1 H2. unfold eqm in *. congruence.
Qed.

#[global] Instance add_eqm : Proper (eqm ==> eqm ==> eqm) Z.add.
Proof.
  intros a a' Ha b b' Hb. unfold eqm in *.
  rewrite (Z.add_mod a), (Z.add_mod a') by (rewrite modulus_eq; lia).
  congruence.
Qed.

#[global] Instance mul_eqm : Proper (eqm ==> eqm ==> eqm) Z.mul.
Proof.
  intros a a' Ha b b' Hb. unfold eqm in *.
  rewrite (Z.mul_mod a), (Z.mul_mod a') by (rewrite modulus_eq; lia).
  congruence.
Qed.

#[global] Instance opp_eqm : Proper (eqm ==> eqm) Z.opp.
Proof.
  intros a a' Ha.
  rewrite <- (Z.mul_1_l a), <- (Z.mul_1_l a'), <- !Z.mul_opp_l.
  now apply mul_eqm.
Qed.

#[global] Instance sub_eqm : Proper (eqm ==> eqm ==> eqm) Z.sub.
Proof.
  intros a a' Ha b b' Hb. rewrite <- !Z.add_opp_r.
  apply add_eqm; [assumption | now apply opp_eqm].
Qed.

Lemma wrap_eqm a : eqm (wrap a) a.
Proof.
  unfold eqm, wrap.
  rewrite Zminus_mod_idemp_l.
  f_equal. lia.
Qed.

Lemma wrap_in_range a : in_range (wrap a).
Proof.
  unfold_int64.
  pose proof (Z.mod_pos_bound (a + 9223372036854775808) 18446744073709551616).
  lia.
Qed.

Lemma wrap_id a : in_range a -> wrap a = a.
Proof.
  intros H. unfold_int64.
  rewrite Z.mod_small; lia.
Qed.

#[global] Instance wrap_proper : Proper (eqm ==> eq) wrap.
Proof.
  intros a b H. unfold wrap. f_equal.
  assert (eqm (a + half) (b + half)) as E by (now rewrite H).
  exact E.
Qed.

#[global] Instance wrap_eqm_proper : Proper (eqm ==> eqm) wrap.
Proof. intros a b H. now rewrite (wrap_proper a b H). Qed.

Lemma eqm_in_range a b : in_range a -> in_range b -> eqm a b -> a = b.
Proof.
  intros Ha Hb H.
  rewrite <- (wrap_id a), <- (wrap_id b) by assumption.
  now apply wrap_proper.
Qed.

Lemma wrap_wrap a : wrap (wrap a) = wrap a.
Proof. apply wrap_id, wrap_in_range. Qed.

Lemma in_rangeb_spec a : in_rangeb a = true <-> in_range a.
Proof. unfold in_rangeb, in_range. rewrite andb_true_iff, !Z.leb_le. tauto. Qed.

Lemma neg_in_range a : in_range a -> int_min < a -> neg a = - a.
Proof. intros H1 H2. unfold neg. apply wrap_id. unfold_int64. lia. Qed.

Lemma neg_int_min : neg int_min = int_min.
Proof. reflexivity. Qed.

Lemma abs_in_range a : in_range a -> int_min < a -> abs a = Z.abs a.
Proof. intros H1 H2. unfold abs. apply wrap_id. unfold_int64. lia. Qed.

Lemma abs_int_min : abs int_min = int_min.
Proof. reflexivity. Qed.

Lemma abs_pos a : in_range a -> 0 < abs a -> a <> 0 /\ int_min < a.
Proof.
  intros H1 H2. destruct (Z.eq_dec a int_min) as [-> | Hne].
  - rewrite abs_int_min in H2. unfold_int64. lia.
  - assert (int_min < a) as Hlt by (unfold_int64; lia).
    rewrite abs_in_range in H2 by assumption. lia.
Qed.

Lemma abs_neg a : in_range a -> abs (neg a) = abs a.
Proof.
  intros H. destruct (Z.eq_dec a int_min) as [-> | Hne].
  - reflexivity.
  - assert (int_min < a) as Hlt by (unfold_int64; lia).
    rewrite neg_in_range by assumption.
    rewrite !abs_in_range; try assumption; unfold_int64; lia.
Qed.

Lemma neg_eq_0 a : in_range a -> neg a = 0 -> a = 0.
Proof.
  intros H E. destruct (Z.eq_dec a int_min) as [-> | Hne].
  - rewrite neg_int_min in E. discriminate.
  - rewrite neg_in_range in E; [lia | assumption | unfold_int64; lia].
Qed.

Lemma sub_eq_0 a b : in_range a -> in_range b -> sub a b = 0 -> a = b.
Proof.
  intros Ha Hb E. apply eqm_in_range; try assumption.
  pose proof (wrap_eqm (a - b)) as H. unfold sub in E. rewrite E in H.
  assert (eqm (0 + b) (a - b + b)) as H' by (now rewrite H).
  replace (a - b + b) with a in H' by ring. simpl in H'. now symmetry.
Qed.

Lemma neg_range a : in_range (neg a).
Proof. apply wrap_in_range. Qed.

Lemma floordiv_same a : in_range a -> 0 < abs a -> floordiv a a = 1.
Proof.
  intros H1 H2. destruct (abs_pos a H1 H2) as [Hz _].
  unfold floordiv. destruct (Z.eqb_spec a 0); [contradiction | ].
  now rewrite Z.div_same.
Qed.

Lemma floordiv_neg a : in_range a -> 0 < abs a -> floordiv a (neg a) = -1.
Proof.
  intros H1 H2. destruct (abs_pos a H1 H2) as [Hz Hm].
  rewrite neg_in_range by assumption.
  unfold floordiv. destruct (Z.eqb_spec (- a) 0); [lia | ].
  replace (a / - a) with (-1); [reflexivity | ].
  apply Z.div_unique_exact; lia.
Qed.

(** [wrap a = wrap b] from a ring identity between [a] and [b] in which the
    inner wrap-arounds have been dropped. *)
Ltac eqm_ring :=
  unfold add, sub, mul, neg, square;
  apply wrap_proper; try (rewrite_strat (bottomup wrap_eqm));
  match goal with |- eqm ?a ?b => replace a with b by ring; reflexivity end.

Lemma wrap_eq_in_range a b : in_range b -> eqm a b -> wrap a = b.
Proof. intros Hb H. rewrite <- (wrap_id b Hb). now apply wrap_proper. Qed.

(** [wrap a = b] for [b] in range, from a ring identity. *)
Ltac eqm_ring_to :=
  unfold add, sub, mul, neg, square;
  apply wrap_eq_in_range;
  [assumption
  | try (rewrite_strat (bottomup wrap_eqm));
    match goal with |- eqm ?a ?b => replace a with b by ring; reflexivity end].

End Int64Facts.
Import Int64Facts.

(** ** The exception monad *)

Lemma bind_Ok {A B} (m : result A) (k : A -> result B) (r : B) :
  m ≫= k = Ok r <-> exists a, m = Ok a /\ k a = Ok r.
Proof.
  destruct m as [a | e]; simpl.
  - split; [intros H; exists a; auto | intros (a' & Ha & H); congruence].
  - split; [discriminate | intros (a' & Ha & H); discriminate].
Qed.

Lemma bind_Ok_l {A B} (a : A) (k : A -> result B) : Ok a ≫= k = k a.
Proof. reflexivity. Qed.

Lemma assert_Ok (line : nat) (c : bool) (u : unit) : assert line c = Ok u <-> c = true.
Proof. destruct c, u; simpl; split; congruence. Qed.

Lemma assert_Raise (line : nat) (c : bool) (e : exn) :
  assert line c = Raise e -> e = AssertionError line.
Proof. destruct c; simpl; congruence. Qed.

Lemma list_get_Ok {A} (l : list A) (i : nat) (x : A) : list_get l i = Ok x <-> l !! i = Some x.
Proof. unfold list_get. destruct (l !! i); split; congruence. Qed.

Lemma list_get_lt {A} (l : list A) (i : nat) :
  (i < length l)%nat -> exists x, list_get l i = Ok x /\ l !! i = Some x.
Proof.
  intros H. destruct (lookup_lt_is_Some_2 l i H) as [x Hx].
  exists x. split; [now apply list_get_Ok | assumption].
Qed.

(** Inversion of a successful sequence of binds. *)
Ltac inv_Ok H :=
  repeat match type of H with
  | _ ≫= _ = Ok _ =>
      let a := fresh "a" in let Ha := fresh "Ha" in
      apply bind_Ok in H; destruct H as (a & Ha & H)
  end.

Lemma foldM_app {A B} (f : A -> B -> result A) (a : A) (l1 l2 : list B) :
  foldM f a (l1 ++ l2) = foldM f a l1 ≫= fun a' => foldM f a' l2.
Proof.
  revert a. induction l1 as [| x l1 IH]; intros a; simpl; [reflexivity | ].
  destruct (f a x) as [a' | e]; simpl; [apply IH | reflexivity].
Qed.

(** An invariant of a monadic fold that never fails. *)
Lemma foldM_invariant {A B} (P : A -> Prop) (Q : B -> Prop) (f : A -> B -> result A) :
  (forall a x, P a -> Q x -> exists a', f a x = Ok a' /\ P a') ->
  forall l a, P a -> Forall Q l -> exists a', foldM f a l = Ok a' /\ P a'.
Proof.
  intros Hf l. induction l as [| x l IH]; intros a Ha Hl; simpl.
  - eauto.
  - inversion Hl as [| ? ? Hx Hl']; subst.
    destruct (Hf a x Ha Hx) as (a' & -> & Ha'). simpl. now apply IH.
Qed.

(** An invariant of the successful runs of a monadic fold. *)
Lemma foldM_preserves {A B} (P : A -> Prop) (f : A -> B -> result A) :
  (forall a x a', P a -> f a x = Ok a' -> P a') ->
  forall l a a', P a -> foldM f a l = Ok a' -> P a'.
Proof.
  intros Hf l. induction l as [| x l IH]; intros a a' Ha H; simpl in H.
  - congruence.
  - apply bind_Ok in H. destruct H as (a1 & H1 & H). eauto.
Qed.

(** ** Rotations and distances *)

Lemma rotations24_length : length rotations24 = 24%nat.
Proof. reflexivity. Qed.

(** Case analysis over the 24 rotations. *)
Ltac rotation_cases H :=
  apply list_elem_of_In in H; vm_compute in H;
  repeat (destruct H as [H | H]; [symmetry in H; subst | ]); [ .. | contradiction].

(** The delta of two transformed points is the rotated delta. *)
Lemma delta_transform (rotation : Matrix) (translation p q : Point) :
  delta (transform rotation translation p) (transform rotation translation q)
  = mat_dot rotation (delta p q).
Proof.
  destruct rotation as [[[[a b] c] [[d e] f]] [[g h] i]].
  destruct translation as [[tx ty] tz], p as [[px py] pz], q as [[qx qy] qz].
  unfold transform, vec_add, mat_dot, row_dot, delta.
  repeat f_equal; Int64Facts.eqm_ring.
Qed.

Lemma norm2_rotation (rotation : Matrix) (d : Point) :
  rotation ∈ rotations24 -> norm2 (mat_dot rotation d) = norm2 d.
Proof.
  intros H. destruct d as [[dx dy] dz].
  rotation_cases H; unfold norm2, mat_dot, row_dot; Int64Facts.eqm_ring.
Qed.

Lemma squared_distance_transform (rotation : Matrix) (translation p q : Point) :
  rotation ∈ rotations24 ->
  squared_distance (transform rotation translation p) (transform rotation translation q)
  = squared_distance p q.
Proof.
  intros H. unfold squared_distance.
  rewrite delta_transform.
  apply (norm2_rotation rotation (delta p q) H).
Qed.

(** C4. Distance invariance: a scanner whose rotation is one of the 24
    rotations, with any translation, maps two of its points to points at the
    same squared distance as the two points themselves. *)
Theorem distance_invariance (s : Scanner) (t : Point) (i j : nat) (p q : Point) :
  rotation_matrix s ∈ rotations24 ->
  translation s = Some t ->
  scans s !! i = Some p ->
  scans s !! j = Some q ->
  exists p' q',
    get_scan s i = Ok p' /\ get_scan s j = Ok q'
    /\ squared_distance p' q' = squared_distance p q.
Proof.
  intros Hrot Ht Hi Hj.
  exists (transform (rotation_matrix s) t p), (transform (rotation_matrix s) t q).
  unfold get_scan, list_get. rewrite Hi, Hj, Ht. simpl.
  split; [reflexivity | split; [reflexivity | ]].
  now apply squared_distance_transform.
Qed.

Lemma distance_invariance_witness :
  exists p' q',
    get_scan (set_rotation pair_scanner2 quarter_turn) 0 = Ok p'
    /\ get_scan (set_rotation pair_scanner2 quarter_turn) 1 = Ok q'
    /\ squared_distance p' q' = squared_distance (2, 2, -2) (5, 0, -3).
Proof.
  apply (distance_invariance (set_rotation pair_scanner2 quarter_turn) zero_vector 0 1).
  - apply list_elem_of_In. vm_compute. tauto.
  - reflexivity.
  - reflexivity.
  - reflexivity.
Defined.

(** ** The stable sort *)

Section SortedFacts.
Context {A : Type} (leb : A -> A -> bool).
Hypothesis leb_total : forall a b, leb a b = false -> leb b a = true.

Let le (a b : A) : Prop := leb a b = true.

Lemma insert_sorted_Permutation (x : A) (l : list A) : insert_sorted leb x l ≡ₚ x :: l.
Proof.
  induction l as [| y l IH]; simpl; [reflexivity | ].
  destruct (leb x y); [reflexivity | ].
  rewrite IH. apply Permutation_swap.
Qed.

Lemma sorted_Permutation (l : list A) : sorted leb l ≡ₚ l.
Proof.
  induction l as [| x l IH]; simpl; [reflexivity | ].
  rewrite insert_sorted_Permutation. now rewrite IH.
Qed.

Lemma length_sorted (l : list A) : length (sorted leb l) = length l.
Proof. apply Permutation_length, sorted_Permutation. Qed.

Lemma insert_sorted_Sorted (x : A) (l : list A) :
  Sorted le l -> Sorted le (insert_sorted leb x l).
Proof.
  induction 1 as [| y l Hl IH Hy]; simpl.
  - repeat constructor.
  - destruct (leb x y) eqn:E.
    + constructor; [now constructor | now constructor].
    + constructor; [assumption | ].
      destruct Hy as [| z l Hz]; simpl.
      * constructor. now apply leb_total.
      * destruct (leb x z); constructor; [now apply leb_total | assumption].
Qed.

Lemma sorted_Sorted (l : list A) : Sorted le (sorted leb l).
Proof.
  induction l as [| x l IH]; simpl; [constructor | now apply insert_sorted_Sorted].
Qed.

(** A sorted list is left as it is. *)
Lemma sorted_id (l : list A) : Sorted le l -> sorted leb l = l.
Proof.
  induction 1 as [| x l Hl IH Hx]; simpl; [reflexivity | ].
  rewrite IH. destruct Hx as [| y l Hy]; simpl; [reflexivity | ].
  unfold le in Hy. now rewrite Hy.
Qed.
End SortedFacts.

Lemma point_leb_total (p q : Point) : point_leb p q = false -> point_leb q p = true.
Proof.
  destruct p as [[x1 y1] z1], q as [[x2 y2] z2]. unfold point_leb. intros H.
  destruct (Z.ltb_spec x1 x2), (Z.eqb_spec x1 x2), (Z.ltb_spec y1 y2),
    (Z.eqb_spec y1 y2), (Z.leb_spec z1 z2); simpl in H; try discriminate;
  destruct (Z.ltb_spec x2 x1), (Z.eqb_spec x2 x1), (Z.ltb_spec y2 y1),
    (Z.eqb_spec y2 y1), (Z.leb_spec z2 z1); simpl; try reflexivity; lia.
Qed.

Lemma weight_leb_total (e1 e2 : Edge) : weight_leb e1 e2 = false -> weight_leb e2 e1 = true.
Proof. unfold weight_leb. rewrite Z.leb_gt, Z.leb_le. lia. Qed.

#[global] Instance weight_le_trans : Transitive weight_le.
Proof. intros a b c. unfold weight_le, weight_leb. rewrite !Z.leb_le. lia. Qed.

(** ** The distance graph *)

Lemma foldl_build_graph_cell (index01 : nat) (point01 : Point) (cs : list (nat * Point))
    (g : list (list Z)) (es : list Edge) :
  foldl (build_graph_cell index01 point01) (g, es) cs
  = (foldl write g (map (cell_of index01 point01) cs),
     es ++ flat_map cell_edge (map (cell_of index01 point01) cs)).
Proof.
  revert g es. induction cs as [| [j q] cs IH]; intros g es; simpl.
  - now rewrite app_nil_r.
  - rewrite IH. f_equal.
    destruct (0 <? squared_distance point01 q); simpl; [ | reflexivity].
    now rewrite <- app_assoc.
Qed.

Lemma foldl_build_graph_row (scans' : list Point) (rs : list (nat * Point))
    (g : list (list Z)) (es : list Edge) :
  foldl (build_graph_row scans') (g, es) rs
  = (foldl write g (flat_map (row_cells scans') rs),
     es ++ flat_map cell_edge (flat_map (row_cells scans') rs)).
Proof.
  revert g es. induction rs as [| [i p] rs IH]; intros g es; simpl.
  - now rewrite app_nil_r.
  - change (build_graph_row scans' (g, es) (i, p))
      with (foldl (build_graph_cell i p) (g, es) (drop i (enumerate scans'))).
    rewrite foldl_build_graph_cell, IH.
    rewrite foldl_app, flat_map_app, app_assoc. reflexivity.
Qed.

Lemma build_graph_loops_eq (N : nat) (scans' : list Point) :
  build_graph_loops N scans'
  = (foldl write (zeros N N) (all_cells scans'), all_edges scans').
Proof. unfold build_graph_loops. now rewrite foldl_build_graph_row. Qed.

Lemma dims_zeros (N : nat) : dims N (zeros N N).
Proof.
  split; [apply length_replicate | ].
  apply Forall_replicate, length_replicate.
Qed.

Lemma dims_set2 (N : nat) (g : list (list Z)) (i j : nat) (d : Z) :
  dims N g -> dims N (set2 g i j d).
Proof.
  intros [Hl Hr]. split.
  - unfold set2. now rewrite length_alter.
  - unfold set2. apply Forall_alter; [assumption | ].
    intros row _ Hrow. now rewrite length_insert.
Qed.

Lemma dims_write (N : nat) (g : list (list Z)) (w : nat * nat * Z) :
  dims N g -> dims N (write g w).
Proof. destruct w as [[i j] d]. intros H. now apply dims_set2, dims_set2. Qed.

Lemma dims_foldl_write (N : nat) (ws : list (nat * nat * Z)) (g : list (list Z)) :
  dims N g -> dims N (foldl write g ws).
Proof.
  revert g. induction ws as [| w ws IH]; intros g H; simpl; [assumption | ].
  now apply IH, dims_write.
Qed.

Lemma lookup2_set2 (N : nat) (g : list (list Z)) (i j a b : nat) (d : Z) :
  dims N g -> (i < N)%nat -> (j < N)%nat ->
  lookup2 (set2 g i j d) a b
  = if (i =? a)%nat && (j =? b)%nat then Some d else lookup2 g a b.
Proof.
  intros [Hl Hr] Hi Hj. unfold lookup2, set2.
  rewrite list_lookup_alter.
  destruct (Nat.eqb_spec i a) as [-> | Hia]; simpl.
  - rewrite decide_True by reflexivity.
    destruct (lookup_lt_is_Some_2 g a) as [row Hrow]; [lia | ].
    rewrite Hrow. simpl.
    assert (length row = N) as Hlen
      by (rewrite Forall_lookup in Hr; eapply Hr; eassumption).
    destruct (Nat.eqb_spec j b) as [-> | Hjb].
    + apply list_lookup_insert_eq. lia.
    + now apply list_lookup_insert_ne.
  - now rewrite decide_False by assumption.
Qed.

Lemma lookup2_write (N : nat) (g : list (list Z)) (i j a b : nat) (d : Z) :
  dims N g -> (i < N)%nat -> (j < N)%nat ->
  lookup2 (write g (i, j, d)) a b
  = if touches (i, j, d) a b then Some d else lookup2 g a b.
Proof.
  intros Hg Hi Hj. unfold write, touches.
  rewrite (lookup2_set2 N), (lookup2_set2 N) by (try apply dims_set2; assumption).
  destruct ((i =? a)%nat && (j =? b)%nat), ((j =? a)%nat && (i =? b)%nat) eqn:E;
    rewrite (andb_comm (i =? b)%nat), ?E; simpl; reflexivity.
Qed.

(** Every cell written so far holds the value [f] gives it, the others are
    as before. *)
Lemma lookup2_foldl_write (N : nat) (f : nat -> nat -> Z) (ws : list (nat * nat * Z))
    (g : list (list Z)) (a b : nat) :
  dims N g ->
  (forall i j, f i j = f j i) ->
  Forall (fun w => let '(i, j, d) := w in (i < N)%nat /\ (j < N)%nat /\ d = f i j) ws ->
  lookup2 (foldl write g ws) a b
  = if existsb (fun w => touches w a b) ws then Some (f a b) else lookup2 g a b.
Proof.
  intros Hg Hf. revert g Hg.
  induction ws as [| [[i j] d] ws IH]; intros g Hg Hws; cbn [foldl existsb].
  - reflexivity.
  - inversion Hws as [| ? ? Hw Hws']; subst.
    simpl in Hw. destruct Hw as (Hi & Hj & Hd).
    rewrite IH by (try apply dims_write; assumption).
    destruct (existsb _ ws); [now rewrite orb_true_r | ].
    rewrite orb_false_r, (lookup2_write N) by assumption.
    destruct (touches _ a b) eqn:E; [ | reflexivity].
    unfold touches in E. f_equal.
    apply orb_true_iff in E.
    destruct E as [E | E]; apply andb_true_iff in E; destruct E as [E1 E2];
      apply Nat.eqb_eq in E1, E2; subst; auto.
Qed.

Lemma In_enumerate {A} (l : list A) (i : nat) (x : A) :
  In (i, x) (enumerate l) <-> l !! i = Some x.
Proof.
  unfold enumerate. rewrite <- list_elem_of_In, list_elem_of_lookup. split.
  - intros [k Hk]. rewrite list_lookup_imap in Hk.
    destruct (l !! k) eqn:E; simpl in Hk; [ | discriminate].
    injection Hk as <- <-. assumption.
  - intros H. exists i. now rewrite list_lookup_imap, H.
Qed.

Lemma In_all_cells (pts : list Point) (w : nat * nat * Z) :
  In w (all_cells pts) <->
  exists i j p q, w = (i, j, squared_distance p q)
                  /\ pts !! i = Some p /\ pts !! j = Some q /\ (i <= j)%nat.
Proof.
  unfold all_cells, row_cells. rewrite in_flat_map. split.
  - intros ([i p] & Hr & Hw). simpl in Hw.
    apply in_map_iff in Hw. destruct Hw as ([j q] & <- & Hc).
    apply In_enumerate in Hr.
    apply list_elem_of_In, list_elem_of_lookup in Hc. destruct Hc as [k Hk].
    rewrite lookup_drop in Hk.
    assert (In (j, q) (enumerate pts)) as Hj
      by (apply list_elem_of_In, list_elem_of_lookup; eauto).
    apply In_enumerate in Hj.
    unfold enumerate in Hk. rewrite list_lookup_imap in Hk.
    destruct (pts !! (i + k)%nat) eqn:E; simpl in Hk; [ | discriminate].
    injection Hk as Hjk Hq.
    exists i, j, p, q. unfold cell_of. simpl.
    repeat split; [assumption | assumption | lia].
  - intros (i & j & p & q & -> & Hi & Hj & Hij).
    exists (i, p). split; [now apply In_enumerate | ]. simpl.
    apply in_map_iff. exists (j, q). split; [reflexivity | ].
    apply list_elem_of_In, list_elem_of_lookup. exists (j - i)%nat.
    rewrite lookup_drop. replace (i + (j - i))%nat with j by lia.
    unfold enumerate. now rewrite list_lookup_imap, Hj.
Qed.

Lemma squared_distance_same (p : Point) : squared_distance p p = 0.
Proof.
  destruct p as [[x y] z]. unfold squared_distance, delta, Int64.sub.
  rewrite !Z.sub_diag. reflexivity.
Qed.

Lemma graph_entry_sym (pts : list Point) (a b : nat) :
  graph_entry pts a b = graph_entry pts b a.
Proof. unfold graph_entry. now rewrite Nat.min_comm, Nat.max_comm. Qed.

Lemma graph_entry_diag (pts : list Point) (a : nat) : graph_entry pts a a = 0.
Proof. unfold graph_entry. rewrite Nat.min_id, Nat.max_id. apply squared_distance_same. Qed.

Lemma graph_entry_le (pts : list Point) (i j : nat) (p q : Point) :
  pts !! i = Some p -> pts !! j = Some q -> (i <= j)%nat ->
  graph_entry pts i j = squared_distance p q.
Proof.
  intros Hi Hj Hij. unfold graph_entry.
  rewrite Nat.min_l, Nat.max_r by lia.
  now rewrite (list_lookup_total_correct _ _ _ Hi), (list_lookup_total_correct _ _ _ Hj).
Qed.

Lemma all_cells_valid (pts : list Point) :
  Forall (fun w => let '(i, j, d) := w in
            (i < length pts)%nat /\ (j < length pts)%nat /\ d = graph_entry pts i j)
         (all_cells pts).
Proof.
  apply Forall_forall. intros w Hw.
  apply list_elem_of_In, In_all_cells in Hw.
  destruct Hw as (i & j & p & q & -> & Hi & Hj & Hij).
  repeat split.
  - now apply lookup_lt_Some in Hi.
  - now apply lookup_lt_Some in Hj.
  - symmetry. now apply graph_entry_le.
Qed.

Lemma all_cells_cover (pts : list Point) (a b : nat) :
  (a < length pts)%nat -> (b < length pts)%nat ->
  existsb (fun w => touches w a b) (all_cells pts) = true.
Proof.
  intros Ha Hb. apply existsb_exists.
  destruct (lookup_lt_is_Some_2 pts (a `min` b)%nat) as [p Hp]; [lia | ].
  destruct (lookup_lt_is_Some_2 pts (a `max` b)%nat) as [q Hq]; [lia | ].
  exists ((a `min` b)%nat, (a `max` b)%nat, squared_distance p q). split.
  - apply In_all_cells. exists (a `min` b)%nat, (a `max` b)%nat, p, q.
    repeat split; [assumption | assumption | lia].
  - unfold touches.
    destruct (Nat.le_ge_cases a b).
    + rewrite Nat.min_l, Nat.max_r, !Nat.eqb_refl by lia. reflexivity.
    + rewrite Nat.min_r, Nat.max_l, !Nat.eqb_refl by lia. apply orb_true_r.
Qed.

(** The closed form of the graph the loops build. *)
Lemma build_graph_loops_lookup (pts : list Point) (a b : nat) :
  (a < length pts)%nat -> (b < length pts)%nat ->
  lookup2 (build_graph_loops (length pts) pts).1 a b = Some (graph_entry pts a b).
Proof.
  intros Ha Hb. rewrite build_graph_loops_eq. simpl.
  rewrite (lookup2_foldl_write (length pts) (graph_entry pts)).
  - now rewrite all_cells_cover.
  - apply dims_zeros.
  - apply graph_entry_sym.
  - apply all_cells_valid.
Qed.

Lemma build_graph_loops_dims (pts : list Point) :
  dims (length pts) (build_graph_loops (length pts) pts).1.
Proof. rewrite build_graph_loops_eq. apply dims_foldl_write, dims_zeros. Qed.

Lemma graph_get_lookup2 (g : list (list Z)) (a b : nat) (v : Z) :
  lookup2 g a b = Some v -> graph_get (Some g) a b = Ok v.
Proof.
  unfold lookup2, graph_get, list_get. intros H.
  destruct (g !! a) as [row | ]; simpl in *; [ | discriminate].
  now rewrite H.
Qed.

(** The edges of the loops, before they are sorted. *)
Lemma In_all_edges (pts : list Point) (e : Edge) :
  In e (all_edges pts) ->
  (edge_i e < edge_j e)%nat /\ (edge_j e < length pts)%nat
  /\ weight e = graph_entry pts (edge_i e) (edge_j e) /\ 0 < weight e.
Proof.
  unfold all_edges. rewrite in_flat_map. intros (w & Hw & He).
  apply In_all_cells in Hw. destruct Hw as (i & j & p & q & -> & Hi & Hj & Hij).
  simpl in He. destruct (0 <? squared_distance p q) eqn:E; [ | contradiction].
  destruct He as [<- | []]. simpl. apply Z.ltb_lt in E.
  assert (i <> j) as Hne.
  { intros ->. rewrite Hi in Hj. injection Hj as ->.
    rewrite squared_distance_same in E. lia. }
  repeat split.
  - lia.
  - now apply lookup_lt_Some in Hj.
  - symmetry. now apply graph_entry_le.
  - assumption.
Qed.

(** What an up-to-date scanner knows of its graph and of its edges. *)
Lemma up_to_date_graph (s : Scanner) (a b : nat) :
  up_to_date s -> (a < size s)%nat -> (b < size s)%nat ->
  graph_get (graph s) a b = Ok (graph_entry (scans s) a b).
Proof.
  intros [Hg _] Ha Hb. rewrite Hg.
  now apply graph_get_lookup2, build_graph_loops_lookup.
Qed.

Lemma up_to_date_edges (s : Scanner) :
  up_to_date s ->
  exists es, unique_edges_by_weight s = Some es
    /\ Sorted weight_le es
    /\ es ≡ₚ all_edges (scans s).
Proof.
  intros [_ He]. rewrite He, build_graph_loops_eq. simpl.
  eexists. split; [reflexivity | split].
  - apply sorted_Sorted, weight_leb_total.
  - apply sorted_Permutation.
Qed.

Lemma build_graph_up_to_date (s : Scanner) : up_to_date (build_graph s).
Proof.
  unfold up_to_date, build_graph.
  destruct (build_graph_loops (length (scans s)) (sorted point_leb (scans s)))
    as [g es] eqn:E.
  simpl. rewrite length_sorted, E. simpl. split; reflexivity.
Qed.

(** ** The points of a scanner *)

Lemma orient_scans (s1 s2 : Scanner) (iso : SubGraphIsomorphism) (s1' s2' : Scanner) :
  orient_02_to_01 s1 s2 iso = Ok (s1', s2') ->
  scans s1' = scans s1 /\ scans s2' = scans s2.
Proof.
  unfold orient_02_to_01. intros H. inv_Ok H.
  injection H as <- <-. split; reflexivity.
Qed.

(** The claim C7 as it is written fails: [build_graph] reorders the points. *)
Lemma build_graph_reorders : scans (build_graph unsorted_scanner) <> scans unsorted_scanner.
Proof. vm_compute. discriminate. Qed.

(** C7 (amended). [build_graph] replaces the points by their stable sort in
    the lexicographic order: a permutation of the same points, the same
    sequence when it was sorted already. [add_scan] appends one point. The
    other operations of a scanner and the transform solver leave the points
    as they are. *)
Theorem points_sequence_frame (s : Scanner) :
  (scans (build_graph s) ≡ₚ scans s
   /\ Sorted point_le (scans (build_graph s))
   /\ (Sorted point_le (scans s) -> scans (build_graph s) = scans s))
  /\ (forall x y z s', add_scan s x y z = Ok s' -> scans s' = scans s ++ [(x, y, z)])
  /\ (forall m, scans (set_rotation s m) = scans s)
  /\ (forall t, scans (set_translation s t) = scans s)
  /\ scans (reset_rotation s) = scans s
  /\ scans (reset_translation s) = scans s
  /\ (forall s2 iso s1' s2',
        orient_02_to_01 s s2 iso = Ok (s1', s2') ->
        scans s1' = scans s /\ scans s2' = scans s2).
Proof.
  assert (scans (build_graph s) = sorted point_leb (scans s)) as E.
  { unfold build_graph.
    now destruct (build_graph_loops (length (scans s)) (sorted point_leb (scans s))). }
  split; [split; [ | split] | split; [ | repeat (split; [reflexivity | ])]].
  - rewrite E. apply sorted_Permutation.
  - rewrite E. apply sorted_Sorted, point_leb_total.
  - intros H. rewrite E. now apply sorted_id.
  - intros x y z s' H. unfold add_scan, numpy_array in H.
    destruct (_ && _); simpl in H; [ | discriminate].
    injection H as <-. reflexivity.
  - intros s2 iso s1' s2'. apply orient_scans.
Qed.

(** ** The merge-join of the edge lists *)

Lemma advance_spec (w : Z) (after : list Edge) (e e' : Edge) (after' : list Edge) :
  advance w e after = (e', after') ->
  exists dropped,
    e :: after = dropped ++ e' :: after'
    /\ Forall (fun x => weight x < w) dropped
    /\ (weight e' < w -> after' = []).
Proof.
  revert e. induction after as [| next after IH]; intros e H; simpl in H.
  - injection H as <- <-. exists []. auto.
  - destruct (Z.ltb_spec (weight e) w) as [Hlt | Hge].
    + destruct (IH next H) as (dropped & E & Hd & Hlast).
      exists (e :: dropped). rewrite E. auto.
    + injection H as <- <-. exists []. repeat split; [constructor | lia].
Qed.

Lemma first_with_weight_None (w : Z) (es : list Edge) :
  Forall (fun x => weight x <> w) es -> first_with_weight w es = None.
Proof.
  induction 1 as [| x es Hx _ IH]; simpl; [reflexivity | ].
  destruct (Z.eqb_spec (weight x) w); [contradiction | assumption].
Qed.

Lemma first_with_weight_skip (w : Z) (dropped es : list Edge) :
  Forall (fun x => weight x <> w) dropped ->
  first_with_weight w (dropped ++ es) = first_with_weight w es.
Proof.
  induction 1 as [| x dropped Hx _ IH]; simpl; [reflexivity | ].
  destruct (Z.eqb_spec (weight x) w); [contradiction | assumption].
Qed.

Lemma first_with_weight_head (w : Z) (e : Edge) (after : list Edge) :
  StronglySorted weight_le (e :: after) ->
  (weight e < w -> after = []) ->
  first_with_weight w (e :: after) = if weight e =? w then Some e else None.
Proof.
  intros Hs Hlast. simpl.
  destruct (Z.eqb_spec (weight e) w) as [ | Hne]; [reflexivity | ].
  destruct (Z.lt_ge_cases (weight e) w) as [Hlt | Hge].
  - now rewrite (Hlast Hlt).
  - apply first_with_weight_None.
    apply StronglySorted_inv in Hs. destruct Hs as [_ Hall].
    eapply Forall_impl; [exact Hall | ].
    intros x Hx. unfold weight_le, weight_leb in Hx. simpl in Hx.
    apply Z.leb_le in Hx. lia.
Qed.

Lemma omap_ext_In {A B} (f g : A -> option B) (l : list A) :
  (forall x, x ∈ l -> f x = g x) -> omap f l = omap g l.
Proof.
  induction l as [| x l IH]; intros H; csimpl; [reflexivity | ].
  rewrite (H x) by left.
  rewrite IH; [reflexivity | ]. intros y Hy. apply H. now right.
Qed.

Lemma first_matches_cons (e1 : Edge) (rest es2 : list Edge) :
  first_matches (e1 :: rest) es2
  = match first_with_weight (weight e1) es2 with
    | Some e2 => (e1, e2) :: first_matches rest es2
    | None => first_matches rest es2
    end.
Proof. unfold first_matches. csimpl. now destruct (first_with_weight _ _). Qed.

Lemma first_matches_ext (es1 es2 es2' : list Edge) :
  (forall x, x ∈ es1 -> first_with_weight (weight x) es2 = first_with_weight (weight x) es2') ->
  first_matches es1 es2 = first_matches es1 es2'.
Proof. intros H. apply omap_ext_In. intros x Hx. now rewrite H. Qed.

Lemma match_edges_spec (es1 : list Edge) (e : Edge) (after : list Edge) :
  StronglySorted weight_le es1 ->
  StronglySorted weight_le (e :: after) ->
  match_edges es1 e after = first_matches es1 (e :: after).
Proof.
  revert e after. induction es1 as [| e1 rest IH]; intros e after H1 H2.
  - reflexivity.
  - cbn [match_edges].
    destruct (advance (weight e1) e after) as [e' after'] eqn:Ea.
    destruct (advance_spec _ _ _ _ _ Ea) as (dropped & E & Hd & Hlast).
    apply StronglySorted_inv in H1. destruct H1 as [H1 Hle].
    assert (StronglySorted weight_le (e' :: after')) as H2'.
    { rewrite E in H2. now apply StronglySorted_app_1_r in H2. }
    rewrite (IH e' after' H1 H2'), first_matches_cons.
    rewrite E at 1.
    rewrite first_with_weight_skip
      by (eapply Forall_impl; [exact Hd | simpl; intros; lia]).
    rewrite (first_with_weight_head _ _ _ H2' Hlast), (Z.eqb_sym (weight e')).
    rewrite (first_matches_ext rest (e :: after) (e' :: after')).
    2: { intros x Hx. rewrite E. apply first_with_weight_skip.
         rewrite Forall_forall in Hle. specialize (Hle x Hx).
         unfold weight_le, weight_leb in Hle. apply Z.leb_le in Hle.
         eapply Forall_impl; [exact Hd | simpl; intros; lia]. }
    destruct (weight e1 =? weight e'); reflexivity.
Qed.

(** The claim C5 as it is written fails: scanner B has two edges of weight 1,
    scanner A has one, and only the first of the two pairs is enumerated. *)
Lemma second_match_is_missing :
  ~ enumerates_all_matches (scanner_of 0 corner) (scanner_of 1 corner3).
Proof.
  intros H.
  destruct (H [mkEdge 0 1 1] [mkEdge 0 1 1; mkEdge 0 2 1; mkEdge 1 2 2]
              (mkEdge 0 1 1) (mkEdge 0 2 1))
    as (pairs & Hp & Hin); try reflexivity.
  - left.
  - right. left.
  - vm_compute in Hp. injection Hp as <-.
    apply list_elem_of_In in Hin. destruct Hin as [Hin | []]. discriminate.
Qed.

(** C5 (amended). With both edge lists sorted by weight, the first phase of
    the matcher pairs every edge of scanner A, in order, with the first edge
    of scanner B that has the same weight, when there is one; no other pair is
    enumerated. *)
Theorem matched_edges_first_match (s1 s2 : Scanner) (es1 es2 : list Edge) :
  unique_edges_by_weight s1 = Some es1 ->
  unique_edges_by_weight s2 = Some es2 ->
  es2 <> [] ->
  Sorted weight_le es1 ->
  Sorted weight_le es2 ->
  matched_edges s1 s2 = Ok (first_matches es1 es2).
Proof.
  intros E1 E2 Hne H1 H2. unfold matched_edges. rewrite E2, E1.
  destruct es2 as [| e after]; [contradiction | ].
  f_equal. apply match_edges_spec; now apply Sorted_StronglySorted; [apply _ | ].
Qed.

Lemma matched_edges_first_match_witness :
  matched_edges (scanner_of 0 corner) (scanner_of 1 corner3)
  = Ok [(mkEdge 0 1 1, mkEdge 0 1 1)].
Proof.
  apply (matched_edges_first_match (scanner_of 0 corner) (scanner_of 1 corner3)
           [mkEdge 0 1 1] [mkEdge 0 1 1; mkEdge 0 2 1; mkEdge 1 2 2]).
  - reflexivity.
  - reflexivity.
  - discriminate.
  - repeat constructor.
  - repeat constructor.
Defined.

(** ** A scanner without edges *)

Lemma all_edges_one_point (pts : list Point) :
  (forall p q, p ∈ pts -> q ∈ pts -> p = q) -> all_edges pts = [].
Proof.
  intros H. destruct (all_edges pts) as [| e es] eqn:E; [reflexivity | exfalso].
  assert (In e (all_edges pts)) as He by (rewrite E; now left).
  unfold all_edges in He. apply in_flat_map in He. destruct He as (w & Hw & He).
  apply In_all_cells in Hw. destruct Hw as (i & j & p & q & -> & Hi & Hj & _).
  assert (p = q) as -> by (apply H; eapply list_elem_of_lookup_2; eassumption).
  simpl in He. rewrite squared_distance_same in He. exact He.
Qed.

Lemma build_graph_edges (s : Scanner) :
  unique_edges_by_weight (build_graph s)
  = Some (sorted weight_leb (all_edges (sorted point_leb (scans s)))).
Proof.
  unfold build_graph. rewrite build_graph_loops_eq. reflexivity.
Qed.

(** C8. When scanner02 has no edge the matcher raises [IndexError] at line
    162 instead of returning an empty map; [build_graph] leaves a scanner
    without edges whenever it has fewer than two distinct points; and a
    matcher that returns has found a first edge in scanner02, of positive
    weight when the graph of scanner02 is up to date. *)
Theorem matcher_needs_an_edge (s1 s2 : Scanner) :
  (unique_edges_by_weight s2 = Some [] ->
   find_subgraph_isomorphism s1 s2 = Raise IndexError)
  /\ ((forall p q, p ∈ scans s2 -> q ∈ scans s2 -> p = q) ->
      unique_edges_by_weight (build_graph s2) = Some []
      /\ find_subgraph_isomorphism s1 (build_graph s2) = Raise IndexError)
  /\ (forall m, find_subgraph_isomorphism s1 s2 = Ok m ->
      exists e es, unique_edges_by_weight s2 = Some (e :: es)
                   /\ (up_to_date s2 -> 0 < weight e)).
Proof.
  assert (forall s, unique_edges_by_weight s = Some [] ->
                    find_subgraph_isomorphism s1 s = Raise IndexError) as Hempty.
  { intros s E. unfold find_subgraph_isomorphism, matched_edges. now rewrite E. }
  split; [apply Hempty | split].
  - intros H.
    assert (unique_edges_by_weight (build_graph s2) = Some []) as E.
    { rewrite build_graph_edges, all_edges_one_point; [reflexivity | ].
      intros p q Hp Hq.
      apply H; [now rewrite <- (sorted_Permutation point_leb (scans s2))
               | now rewrite <- (sorted_Permutation point_leb (scans s2))]. }
    split; [exact E | now apply Hempty].
  - intros m H. unfold find_subgraph_isomorphism, matched_edges in H.
    destruct (unique_edges_by_weight s2) as [[| e es] | ] eqn:E;
      try discriminate.
    exists e, es. split; [reflexivity | ].
    intros Hup. destruct (up_to_date_edges s2 Hup) as (es' & E' & _ & Hperm).
    rewrite E in E'. injection E' as <-.
    assert (In e (all_edges (scans s2))) as He
      by (apply list_elem_of_In; rewrite <- Hperm; left).
    now apply In_all_edges in He.
Qed.

(** ** Results of computations *)

Lemma result_sat_bind {A B} (E : exn -> Prop) (P : A -> Prop) (Q : B -> Prop)
    (m : result A) (k : A -> result B) :
  result_sat E P m -> (forall a, P a -> result_sat E Q (k a)) ->
  result_sat E Q (m ≫= k).
Proof. destruct m as [a | e]; simpl; auto. Qed.

Lemma result_sat_impl {A} (E E' : exn -> Prop) (P Q : A -> Prop) (r : result A) :
  result_sat E P r -> (forall e, E e -> E' e) -> (forall a, P a -> Q a) ->
  result_sat E' Q r.
Proof. destruct r; simpl; auto. Qed.

Lemma result_sat_Ok {A} (P : A -> Prop) (r : result A) :
  result_sat no_exn P r <-> exists a, r = Ok a /\ P a.
Proof.
  destruct r as [a | e]; simpl; split.
  - eauto.
  - intros (a' & [= <-] & H). exact H.
  - intros [].
  - intros (a' & [=] & _).
Qed.

Lemma result_sat_any {A} (P : A -> Prop) (r : result A) :
  result_sat any_exn P r <-> forall a, r = Ok a -> P a.
Proof.
  destruct r as [a | e]; simpl; split.
  - intros H a' [= <-]. exact H.
  - auto.
  - discriminate.
  - intros. exact I.
Qed.

(** ** The rotation search *)

Section RotationLoops.
Context (E : exn -> Prop) (I : RotState -> Prop) (s1 s2 : Scanner).

Lemma rotation_inner_sat (i01 i02 : nat) (items : dict) (st : RotState) :
  (forall j01 j02 st0, (j01, j02) ∈ items -> I st0 ->
     result_sat E I (rotation_pair s1 s2 i01 i02 j01 j02 st0)) ->
  I st -> result_sat E I (rotation_inner s1 s2 i01 i02 items st).
Proof.
  revert st. induction items as [| [j01 j02] rest IH]; intros st H Hst; simpl.
  - assumption.
  - eapply result_sat_bind; [apply H; [left | assumption] | ].
    intros st' Hst'. destruct (all_rotated st'); [assumption | ].
    apply IH; [ | assumption].
    intros j j' st0 Hin. apply H. now right.
Qed.

Lemma rotation_outer_sat (all_items items : dict) (st : RotState) :
  (forall i01 i02 j01 j02 st0, (i01, i02) ∈ items -> (j01, j02) ∈ all_items -> I st0 ->
     result_sat E I (rotation_pair s1 s2 i01 i02 j01 j02 st0)) ->
  I st -> result_sat E I (rotation_outer s1 s2 all_items items st).
Proof.
  revert st. induction items as [| [i01 i02] rest IH]; intros st H Hst; simpl.
  - assumption.
  - eapply result_sat_bind.
    + apply rotation_inner_sat; [ | assumption].
      intros j01 j02 st0 Hin. apply H; [left | assumption].
    + intros st' Hst'. destruct (all_rotated st'); [assumption | ].
      apply IH; [ | assumption].
      intros i i' j j' st0 Hin. apply H. now right.
Qed.

Lemma find_rotation_sat (items : dict) :
  (forall i01 i02 j01 j02 st0, (i01, i02) ∈ items -> (j01, j02) ∈ items -> I st0 ->
     result_sat E I (rotation_pair s1 s2 i01 i02 j01 j02 st0)) ->
  I (mkRot false false false zero_matrix) ->
  result_sat E I (find_rotation s1 s2 items).
Proof. apply rotation_outer_sat. Qed.
End RotationLoops.

Lemma row_dot_e0 x y z : Int64.in_range x -> row_dot (1, 0, 0) (x, y, z) = x.
Proof. intros H. rewrite <- (wrap_id x H) at 2. unfold row_dot. eqm_ring. Qed.

Lemma row_dot_e1 x y z : Int64.in_range y -> row_dot (0, 1, 0) (x, y, z) = y.
Proof. intros H. rewrite <- (wrap_id y H) at 2. unfold row_dot. eqm_ring. Qed.

Lemma row_dot_e2 x y z : Int64.in_range z -> row_dot (0, 0, 1) (x, y, z) = z.
Proof. intros H. rewrite <- (wrap_id z H) at 2. unfold row_dot. eqm_ring. Qed.

Lemma row_dot_n0 x y z : row_dot (-1, 0, 0) (x, y, z) = Int64.neg x.
Proof. unfold row_dot. eqm_ring. Qed.

Lemma row_dot_n1 x y z : row_dot (0, -1, 0) (x, y, z) = Int64.neg y.
Proof. unfold row_dot. eqm_ring. Qed.

Lemma row_dot_n2 x y z : row_dot (0, 0, -1) (x, y, z) = Int64.neg z.
Proof. unfold row_dot. eqm_ring. Qed.

Ltac split_tests :=
  repeat match goal with
  | |- context [Z.ltb ?a ?b] => destruct (Z.ltb_spec a b); simpl; try lia
  | |- context [Z.eqb ?a ?b] => destruct (Z.eqb_spec a b); simpl; try lia
  end.

(** The block of one axis on deltas related by a rotation: the assertion
    holds and the row written is the row of the rotation. *)
Lemma axis_step_spec (R : Matrix) (d2 : Point) (line a : nat) (rotated : bool)
    (M : Matrix) (d o1 o2 : Z) :
  R ∈ rotations24 -> point_in_range d2 -> (a < 3)%nat ->
  (rotated = false -> mat_row M a = zero_vector) ->
  pick a (mat_dot R d2) = (d, o1, o2) ->
  axis_step line a d o1 o2 d2 rotated M
  = Ok (rotated || unique_delta (d, o1, o2),
        if negb rotated && unique_delta (d, o1, o2)
        then set_row M a (mat_row R a) else M).
Proof.
  intros HR Hd2 Ha HM Hpick.
  destruct d2 as [[x y] z]. destruct Hd2 as (Hx & Hy & Hz).
  destruct rotated; [reflexivity | ].
  specialize (HM eq_refl). destruct M as [[m0 m1] m2].
  destruct a as [| [| [| a]]]; [ | | | lia]; simpl in HM; subst.
  all: rotation_cases HR; cbn [pick mat_dot] in Hpick;
    rewrite ?row_dot_e0, ?row_dot_e1, ?row_dot_e2, ?row_dot_n0, ?row_dot_n1, ?row_dot_n2
      in Hpick by assumption;
    injection Hpick as <- <- <-;
    unfold axis_step, unique_delta; rewrite ?abs_neg by assumption;
    cbn [negb andb orb mat_row set_row].
  all: split_tests; unfold assert; simpl;
    rewrite ?floordiv_same, ?floordiv_neg by assumption; reflexivity.
Qed.

Lemma delta_in_range (p q : Point) : point_in_range (delta p q).
Proof.
  destruct p as [[x1 y1] z1], q as [[x2 y2] z2]. simpl.
  repeat split; apply wrap_in_range.
Qed.

Lemma mat_row_set_row (M : Matrix) (a b : nat) (r : Point) :
  (a < 3)%nat -> (b < 3)%nat ->
  mat_row (set_row M a r) b = if (a =? b)%nat then r else mat_row M b.
Proof.
  intros Ha Hb. destruct M as [[m0 m1] m2].
  destruct a as [| [| [| a]]], b as [| [| [| b]]]; try lia; reflexivity.
Qed.

(** One pair of correspondences related by a rotation: no assertion fails and
    the rows found are rows of the rotation. *)
Lemma rotation_pair_related (R : Matrix) (t : Point) (s1 s2 : Scanner)
    (i01 i02 j01 j02 : nat) (p1 p2 q1 q2 : Point) (st : RotState) :
  R ∈ rotations24 ->
  scans s1 !! i01 = Some p1 -> scans s2 !! i02 = Some p2 -> p1 = transform R t p2 ->
  scans s1 !! j01 = Some q1 -> scans s2 !! j02 = Some q2 -> q1 = transform R t q2 ->
  rows_found R st ->
  result_sat no_exn (rows_found R) (rotation_pair s1 s2 i01 i02 j01 j02 st).
Proof.
  intros HR Hp1 Hp2 -> Hq1 Hq2 -> Hst. unfold rotation_pair.
  destruct (negb (i01 =? i02)%nat); [ | exact Hst].
  apply list_get_Ok in Hp1, Hp2, Hq1, Hq2. rewrite Hp1, Hq1, Hp2, Hq2. simpl.
  rewrite delta_transform.
  pose proof (delta_in_range p2 q2) as Hd2.
  destruct (mat_dot R (delta p2 q2)) as [[dx dy] dz] eqn:Ed.
  pose proof (Hst 0%nat ltac:(lia)) as H0.
  pose proof (Hst 1%nat ltac:(lia)) as H1.
  pose proof (Hst 2%nat ltac:(lia)) as H2.
  rewrite (axis_step_spec R (delta p2 q2) 252 0 (x_rotated st) (rot st) dx dy dz);
    [ | assumption | assumption | lia | | now rewrite Ed].
  2: { intros Hf. simpl in H0. now rewrite Hf in H0. }
  simpl.
  rewrite (axis_step_spec R (delta p2 q2) 263 1 (y_rotated st) _ dy dx dz);
    [ | assumption | assumption | lia | | now rewrite Ed].
  2: { intros Hf. simpl in H1. rewrite Hf in H1.
       destruct (_ && _); rewrite ?mat_row_set_row by lia; simpl; assumption. }
  simpl.
  rewrite (axis_step_spec R (delta p2 q2) 274 2 (z_rotated st) _ dz dx dy);
    [ | assumption | assumption | lia | | now rewrite Ed].
  2: { intros Hf. simpl in H2. rewrite Hf in H2.
       destruct (_ && unique_delta (dy, _, _)), (_ && unique_delta (dx, _, _));
         rewrite ?mat_row_set_row by lia; simpl; assumption. }
  simpl. intros a Ha.
  destruct a as [| [| [| a]]]; [ | | | lia]; simpl in *;
    destruct (x_rotated st), (y_rotated st), (z_rotated st);
    destruct (unique_delta (dx, dy, dz)), (unique_delta (dy, dx, dz)),
      (unique_delta (dz, dx, dy)); simpl;
    rewrite ?mat_row_set_row by lia; simpl; first [assumption | reflexivity].
Qed.

Lemma find_rotation_related (R : Matrix) (t : Point) (s1 s2 : Scanner) (items : dict) :
  R ∈ rotations24 -> related R t s1 s2 items ->
  result_sat no_exn (rows_found R) (find_rotation s1 s2 items).
Proof.
  intros HR Hrel. apply find_rotation_sat.
  - intros i01 i02 j01 j02 st Hi Hj Hst.
    destruct (Hrel _ _ Hi) as (p1 & p2 & Hp1 & Hp2 & Ep).
    destruct (Hrel _ _ Hj) as (q1 & q2 & Hq1 & Hq2 & Eq).
    eapply rotation_pair_related; eassumption.
  - intros a Ha. destruct a as [| [| [| a]]]; [ | | | lia]; reflexivity.
Qed.

Lemma rows_found_all (R : Matrix) (st : RotState) :
  rows_found R st -> all_rotated st = true -> rot st = R.
Proof.
  intros H Hall. unfold all_rotated in Hall.
  apply andb_true_iff in Hall. destruct Hall as [Hall Hz].
  apply andb_true_iff in Hall. destruct Hall as [Hx Hy].
  pose proof (H 0%nat ltac:(lia)) as H0.
  pose proof (H 1%nat ltac:(lia)) as H1.
  pose proof (H 2%nat ltac:(lia)) as H2.
  simpl in H0, H1, H2. rewrite Hx in H0. rewrite Hy in H1. rewrite Hz in H2.
  destruct (rot st) as [[m0 m1] m2], R as [[r0 r1] r2]. simpl in *. congruence.
Qed.

(** ** The transform solver *)

Lemma delta_same (p : Point) : delta p p = (0, 0, 0).
Proof.
  destruct p as [[x y] z]. unfold delta, Int64.sub. now rewrite !Z.sub_diag.
Qed.

Lemma check_loop_equal (s1 s2 : Scanner) (items : dict) :
  (forall i1 i2, (i1, i2) ∈ items ->
     exists p1, scans s1 !! i1 = Some p1 /\ get_scan s2 i2 = Ok p1) ->
  check_loop s1 s2 items = Ok tt.
Proof.
  induction items as [| [i1 i2] rest IH]; intros H; simpl; [reflexivity | ].
  destruct (H i1 i2) as (p1 & Hp1 & Hs); [left | ].
  apply list_get_Ok in Hp1. rewrite Hs, Hp1. simpl.
  rewrite delta_same. simpl.
  apply IH. intros j1 j2 Hin. apply H. now right.
Qed.

(** The translation of lines 291-296 when scanner02 has rotation [R] and no
    translation yet. *)
Lemma translation_recovered (R : Matrix) (t p2 : Point) :
  point_in_range t ->
  (let '(dx, dy, dz) := delta (transform R t p2) (vec_add (mat_dot R p2) zero_vector) in
   (Int64.neg dx, Int64.neg dy, Int64.neg dz)) = t.
Proof.
  destruct R as [[[[a b] c] [[d e] f]] [[g h] i]].
  destruct t as [[tx ty] tz], p2 as [[x y] z]. intros (Hx & Hy & Hz).
  unfold transform, vec_add, mat_dot, row_dot, delta, zero_vector.
  rewrite <- (wrap_id tx Hx) at 2. rewrite <- (wrap_id ty Hy) at 2.
  rewrite <- (wrap_id tz Hz) at 2.
  repeat f_equal; eqm_ring.
Qed.

Lemma find_rotation_nil (s1 s2 : Scanner) :
  find_rotation s1 s2 [] = Ok (mkRot false false false zero_matrix).
Proof. reflexivity. Qed.

Lemma consistentb_consistent (s1 s2 : Scanner) (items : dict) :
  consistentb s1 s2 items = true -> consistent s1 s2 items.
Proof.
  unfold consistentb. rewrite forallb_forall. intros H i1 i2 j1 j2 Hi Hj.
  apply list_elem_of_In in Hi, Hj.
  specialize (H _ Hi). simpl in H. rewrite forallb_forall in H.
  specialize (H _ Hj). simpl in H.
  destruct (graph_get (graph s1) i1 j1) as [a | ]; [ | discriminate].
  destruct (graph_get (graph s2) i2 j2) as [b | ]; [ | discriminate].
  apply Z.eqb_eq in H. subst. eauto.
Qed.

(** The claim C1 as it is written fails: twelve correspondences on a diagonal
    are consistent and related by a rotation and a translation, but no pair
    of them has a delta of unique magnitude and the solver stops at the
    assertion of line 287. *)
Lemma orient_fails_on_diagonal :
  (12 <= iso_size diagonal_iso)%nat
  /\ consistent (diagonal_scanner 0) (diagonal_scanner 1) diagonal_map
  /\ half_turn ∈ rotations24
  /\ related half_turn (11, 11, 11) (diagonal_scanner 0) (diagonal_scanner 1) diagonal_map
  /\ translation (diagonal_scanner 1) = Some zero_vector
  /\ orient_02_to_01 (diagonal_scanner 0) (diagonal_scanner 1) diagonal_iso
     = Raise (AssertionError 287).
Proof.
  split; [vm_compute; lia | split; [ | split; [ | split; [ | split]]]].
  - apply consistentb_consistent. vm_compute. reflexivity.
  - apply list_elem_of_In. vm_compute. tauto.
  - intros i1 i2 H. apply list_elem_of_In in H. vm_compute in H.
    repeat (destruct H as [[= <- <-] | H];
            [eexists _, _; split; [ | split]; reflexivity | ]).
    contradiction.
  - reflexivity.
  - vm_compute. reflexivity.
Qed.

(** ** The translation of scanner02 at entry *)

(** The delta the check computes for the correspondence that gave the
    translation: the opposite of the translation scanner02 had at entry. *)
Lemma check_delta_old_translation (R : Matrix) (t_old p1 p2 : Point) :
  (let '(dx, dy, dz) := delta p1 (vec_add (mat_dot R p2) t_old) in
   delta p1 (vec_add (mat_dot R p2) (Int64.neg dx, Int64.neg dy, Int64.neg dz)))
  = (let '(tx, ty, tz) := t_old in (Int64.neg tx, Int64.neg ty, Int64.neg tz)).
Proof.
  destruct R as [[[[a b] c] [[d e] f]] [[g h] i]].
  destruct t_old as [[tx ty] tz], p1 as [[x1 y1] z1], p2 as [[x y] z].
  unfold vec_add, mat_dot, row_dot, delta.
  repeat f_equal; eqm_ring.
Qed.

Lemma translation_from_zero (R : Matrix) (p1 p2 : Point) :
  point_in_range p1 ->
  (let '(dx, dy, dz) := delta p1 (vec_add (mat_dot R p2) zero_vector) in
   vec_add (mat_dot R p2) (Int64.neg dx, Int64.neg dy, Int64.neg dz)) = p1.
Proof.
  destruct R as [[[[a b] c] [[d e] f]] [[g h] i]].
  destruct p1 as [[x1 y1] z1], p2 as [[x y] z]. intros (Hx & Hy & Hz).
  unfold vec_add, mat_dot, row_dot, delta, zero_vector.
  rewrite <- (wrap_id x1 Hx) at 2. rewrite <- (wrap_id y1 Hy) at 2.
  rewrite <- (wrap_id z1 Hz) at 2.
  repeat f_equal; eqm_ring.
Qed.

(** C9. Once the rotation is found, the translation of lines 291-297
    includes the translation scanner02 had at entry: when that translation is
    not zero the check of line 303 fails at the first correspondence, and when
    it is zero the new translation sends the rotated point of scanner02 to its
    point of scanner01. *)
Theorem translation_must_be_zero (s1 s2 : Scanner) (iso : SubGraphIsomorphism)
    (st : RotState) (i01 i02 : nat) (rest : dict) (p1 p2 t_old : Point) :
  index s1 = index (scanner01 iso) ->
  index s2 = index (scanner02 iso) ->
  find_rotation (reset_translation (reset_rotation s1)) s2 (iso_map iso) = Ok st ->
  all_rotated st = true ->
  iso_map iso = (i01, i02) :: rest ->
  scans s1 !! i01 = Some p1 ->
  scans s2 !! i02 = Some p2 ->
  point_in_range p1 ->
  translation s2 = Some t_old ->
  point_in_range t_old ->
  (t_old <> zero_vector ->
   orient_02_to_01 s1 s2 iso = Raise (AssertionError 303))
  /\ (t_old = zero_vector ->
      exists t_new,
        find_translation (reset_translation (reset_rotation s1))
          (set_rotation s2 (rot st)) (iso_map iso) = Ok (Some t_new)
        /\ get_scan (set_translation (set_rotation s2 (rot st)) (Some t_new)) i02
           = Ok p1).
Proof.
  intros Hi1 Hi2 Hst Hall Eitems Hp1 Hp2 Hr1 Ht Hrt.
  pose proof Hp1 as Hg1. pose proof Hp2 as Hg2.
  apply list_get_Ok in Hg1, Hg2.
  split.
  - intros Hne. unfold orient_02_to_01.
    rewrite <- Hi1, <- Hi2, !Nat.eqb_refl, Hst. simpl. rewrite Hall. simpl.
    rewrite Eitems. unfold find_translation, get_scan. simpl.
    rewrite Hg2, Ht, Hg1. simpl.
    pose proof (check_delta_old_translation (rot st) t_old p1 p2) as Hd.
    destruct (delta p1 (vec_add (mat_dot (rot st) p2) t_old)) as [[dx dy] dz].
    simpl. unfold get_scan. simpl. rewrite ?Hg2, ?Hg1. simpl. rewrite Hd.
    destruct t_old as [[tx ty] tz]. destruct Hrt as (Hx & Hy & Hz).
    destruct (Z.eqb_spec (Int64.neg tx) 0) as [Ex | ]; [ | reflexivity].
    destruct (Z.eqb_spec (Int64.neg ty) 0) as [Ey | ]; [ | reflexivity].
    destruct (Z.eqb_spec (Int64.neg tz) 0) as [Ez | ]; [ | reflexivity].
    exfalso. apply Hne. unfold zero_vector.
    now rewrite (neg_eq_0 tx Hx Ex), (neg_eq_0 ty Hy Ey), (neg_eq_0 tz Hz Ez).
  - intros ->. rewrite Eitems. unfold find_translation, get_scan. simpl.
    rewrite Hg2, Ht, Hg1. simpl.
    pose proof (translation_from_zero (rot st) p1 p2 Hr1) as Hd.
    destruct (delta p1 (vec_add (mat_dot (rot st) p2) zero_vector)) as [[dx dy] dz].
    eexists. split; [reflexivity | ]. simpl. now rewrite Hd.
Qed.

Lemma translation_must_be_zero_witness :
  exists t_new,
    find_translation (reset_translation (reset_rotation pair_scanner1))
      (set_rotation pair_scanner2 quarter_turn) (iso_map pair_iso) = Ok (Some t_new)
    /\ get_scan (set_translation (set_rotation pair_scanner2 quarter_turn) (Some t_new)) 1
       = Ok (0, 0, 0).
Proof.
  apply (translation_must_be_zero pair_scanner1 pair_scanner2 pair_iso
           (mkRot true true true quarter_turn) 0 1 [(1, 0)%nat]
           (0, 0, 0) (5, 0, -3) zero_vector); try reflexivity.
  - vm_compute. intuition discriminate.
  - vm_compute. intuition discriminate.
Defined.

(** ** The pairs that define the axes *)

Lemma axis_step_sat (line a : nat) (d o1 o2 : Z) (d2 : Point) (rotated : bool)
    (M : Matrix) :
  (a < 3)%nat ->
  (rotated = false -> mat_row M a = zero_vector) ->
  result_sat assertion_exn
    (fun r => r = (rotated || unique_delta (d, o1, o2),
                   if negb rotated && unique_delta (d, o1, o2)
                   then set_row M a (ratio_row d d2) else M))
    (axis_step line a d o1 o2 d2 rotated M).
Proof.
  intros Ha HM. destruct d2 as [[dx02 dy02] dz02].
  destruct rotated; [reflexivity | ]. specialize (HM eq_refl).
  unfold axis_step, unique_delta. cbn [negb andb orb].
  destruct (_ && _ && _); [ | reflexivity].
  destruct M as [[m0 m1] m2].
  destruct a as [| [| [| a]]]; [ | | | lia]; simpl in HM; subst;
    unfold ratio_row, zero_vector;
    destruct (Int64.abs d =? Int64.abs dx02), (Int64.abs d =? Int64.abs dy02),
      (Int64.abs d =? Int64.abs dz02); simpl; auto.
Qed.

Lemma rotation_pair_sat (E : exn -> Prop) (s1 s2 : Scanner) (i01 i02 j01 j02 : nat)
    (st : RotState) :
  (forall e, assertion_exn e -> E e) ->
  (E IndexError \/
   ((i01 < size s1)%nat /\ (j01 < size s1)%nat
    /\ (i02 < size s2)%nat /\ (j02 < size s2)%nat)) ->
  zero_rows st ->
  result_sat E
    (fun st' => forall a, (a < 3)%nat ->
       axis_kept a st st' \/ axis_set s1 s2 i01 i02 j01 j02 a st st')
    (rotation_pair s1 s2 i01 i02 j01 j02 st).
Proof.
  intros HE Hvalid Hz. unfold rotation_pair.
  destruct (negb (i01 =? i02)%nat); [ | intros a Ha; left; split; reflexivity].
  assert (forall (l : list Point) (i : nat) (k : Point -> result RotState)
            (Q : RotState -> Prop),
            (E IndexError \/ (i < length l)%nat) ->
            (forall p, l !! i = Some p -> result_sat E Q (k p)) ->
            result_sat E Q (list_get l i ≫= k)) as Hget.
  { intros l i k Q Hi Hk. unfold list_get.
    destruct (l !! i) as [p | ] eqn:El; simpl; [now apply Hk | ].
    destruct Hi as [Hi | Hi]; [exact Hi | ].
    apply lookup_ge_None in El. lia. }
  apply Hget; [unfold size in Hvalid; tauto | intros p1 Hp1].
  apply Hget; [unfold size in Hvalid; tauto | intros q1 Hq1].
  apply Hget; [unfold size in Hvalid; tauto | intros p2 Hp2].
  apply Hget; [unfold size in Hvalid; tauto | intros q2 Hq2].
  destruct (delta p1 q1) as [[dx dy] dz] eqn:Ed.
  destruct st as [xr yr zr M].
  pose proof (Hz 0%nat ltac:(lia)) as H0.
  pose proof (Hz 1%nat ltac:(lia)) as H1.
  pose proof (Hz 2%nat ltac:(lia)) as H2.
  simpl in H0, H1, H2.
  eapply result_sat_bind.
  { eapply result_sat_impl;
      [apply (axis_step_sat 252 0 dx dy dz (delta p2 q2) xr M); [lia | exact H0]
      | exact HE | intros r Hr; exact Hr]. }
  intros [xr' M1] [= -> ->].
  eapply result_sat_bind.
  { eapply result_sat_impl;
      [apply (axis_step_sat 263 1 dy dx dz (delta p2 q2) yr); [lia | ]
      | exact HE | intros r Hr; exact Hr].
    intros Hy. destruct (_ && _); rewrite ?mat_row_set_row by lia; simpl; auto. }
  intros [yr' M2] [= -> ->].
  eapply result_sat_bind.
  { eapply result_sat_impl;
      [apply (axis_step_sat 274 2 dz dx dy (delta p2 q2) zr); [lia | ]
      | exact HE | intros r Hr; exact Hr].
    intros Hzr.
    destruct (_ && unique_delta (dy, _, _)), (_ && unique_delta (dx, _, _));
      rewrite ?mat_row_set_row by lia; simpl; auto. }
  intros [zr' M3] [= -> ->].
  simpl. intros a Ha.
  assert (forall b (t : Z * Z * Z),
            pick b (dx, dy, dz) = t -> flag b (mkRot xr yr zr M) = false ->
            unique_delta t = true ->
            forall M', mat_row M' b = ratio_row t.1.1 (delta p2 q2) ->
            forall st', flag b st' = true -> rot st' = M' ->
            axis_set s1 s2 i01 i02 j01 j02 b (mkRot xr yr zr M) st') as Hset.
  { intros b t Ht Hf Hu M' HM' st' Hf' <-. split; [exact Hf | split; [exact Hf' | ]].
    exists p1, q1, p2, q2. rewrite Ed, Ht. auto 10. }
  destruct a as [| [| [| a]]]; [ | | | lia].
  - destruct xr; simpl.
    + left. split; [reflexivity | ]. simpl.
      destruct (_ && unique_delta (dz, _, _)), (_ && unique_delta (dy, _, _));
        rewrite ?mat_row_set_row by lia; reflexivity.
    + destruct (unique_delta (dx, dy, dz)) eqn:Eu; simpl.
      * right. eapply (Hset 0%nat); try reflexivity; [exact Eu | ]. simpl.
        destruct (_ && unique_delta (dz, _, _)), (_ && unique_delta (dy, _, _));
          rewrite ?mat_row_set_row by lia; reflexivity.
      * left. split; [reflexivity | ]. simpl.
        destruct (_ && unique_delta (dz, _, _)), (_ && unique_delta (dy, _, _));
          rewrite ?mat_row_set_row by lia; reflexivity.
  - destruct yr; simpl.
    + left. split; [reflexivity | ]. simpl.
      destruct (_ && unique_delta (dz, _, _)), (_ && unique_delta (dx, _, _));
        rewrite ?mat_row_set_row by lia; reflexivity.
    + destruct (unique_delta (dy, dx, dz)) eqn:Eu; simpl.
      * right. eapply (Hset 1%nat); try reflexivity; [exact Eu | ]. simpl.
        destruct (_ && unique_delta (dz, _, _)), (_ && unique_delta (dx, _, _));
          rewrite ?mat_row_set_row by lia; reflexivity.
      * left. split; [reflexivity | ]. simpl.
        destruct (_ && unique_delta (dz, _, _)), (_ && unique_delta (dx, _, _));
          rewrite ?mat_row_set_row by lia; reflexivity.
  - destruct zr; simpl.
    + left. split; [reflexivity | ]. simpl.
      destruct (_ && unique_delta (dy, _, _)), (_ && unique_delta (dx, _, _));
        rewrite ?mat_row_set_row by lia; reflexivity.
    + destruct (unique_delta (dz, dx, dy)) eqn:Eu; simpl.
      * right. eapply (Hset 2%nat); try reflexivity; [exact Eu | ]. simpl.
        destruct (_ && unique_delta (dy, _, _)), (_ && unique_delta (dx, _, _));
          rewrite ?mat_row_set_row by lia; reflexivity.
      * left. split; [reflexivity | ]. simpl.
        destruct (_ && unique_delta (dy, _, _)), (_ && unique_delta (dx, _, _));
          rewrite ?mat_row_set_row by lia; reflexivity.
Qed.

Lemma zero_rows_kept_or_set (s1 s2 : Scanner) (i01 i02 j01 j02 : nat)
    (st st' : RotState) :
  zero_rows st ->
  (forall a, (a < 3)%nat ->
     axis_kept a st st' \/ axis_set s1 s2 i01 i02 j01 j02 a st st') ->
  zero_rows st'.
Proof.
  intros Hz H a Ha Hf. destruct (H a Ha) as [[Ef Er] | (_ & Hf' & _)].
  - rewrite Er. apply Hz; [assumption | congruence].
  - congruence.
Qed.

Lemma find_rotation_rows_from_pairs (s1 s2 : Scanner) (items : dict) :
  result_sat any_exn (rows_from_pairs s1 s2 items) (find_rotation s1 s2 items).
Proof.
  apply find_rotation_sat.
  - intros i01 i02 j01 j02 st Hi Hj Hst.
    assert (zero_rows st) as Hz.
    { intros a Ha Hf. specialize (Hst a Ha). now rewrite Hf in Hst. }
    eapply result_sat_impl;
      [apply (rotation_pair_sat any_exn s1 s2 i01 i02 j01 j02 st);
         [intros; exact I | left; exact I | exact Hz]
      | auto | ].
    intros st' H a Ha. specialize (Hst a Ha).
    destruct (H a Ha) as [[Ef Er] | (Hf & Hf' & p1 & q1 & p2 & q2 & Hset)].
    + rewrite Ef. destruct (flag a st); [ | congruence].
      destruct Hst as (i & i' & j & j' & r1 & r2 & r3 & r4 & Hrow).
      exists i, i', j, j', r1, r2, r3, r4. rewrite Er. exact Hrow.
    + rewrite Hf'. exists i01, i02, j01, j02, p1, q1, p2, q2. tauto.
  - intros a Ha. destruct a as [| [| [| a]]]; [ | | | lia]; reflexivity.
Qed.

Lemma find_rotation_axis_missing (s1 s2 : Scanner) (items : dict) (a : nat) :
  valid_items s1 s2 items ->
  (a < 3)%nat ->
  (forall i01 i02 j01 j02, (i01, i02) ∈ items -> (j01, j02) ∈ items ->
     ~ axis_defining s1 a i01 j01) ->
  result_sat assertion_exn (fun st => flag a st = false) (find_rotation s1 s2 items).
Proof.
  intros Hvalid Ha Hno.
  eapply result_sat_impl;
    [apply (find_rotation_sat assertion_exn
              (fun st => zero_rows st /\ flag a st = false) s1 s2 items)
    | auto | intros st [_ H]; exact H].
  - intros i01 i02 j01 j02 st Hi Hj [Hz Hf].
    eapply result_sat_impl;
      [apply (rotation_pair_sat assertion_exn s1 s2 i01 i02 j01 j02 st);
         [auto | right | exact Hz]
      | auto | ].
    + destruct (Hvalid _ _ Hi), (Hvalid _ _ Hj). tauto.
    + intros st' H. simpl in H.
      split; [exact (zero_rows_kept_or_set _ _ _ _ _ _ _ _ Hz H) | ].
      destruct (H a Ha) as [[Ef _] | (_ & _ & p1 & q1 & p2 & q2 & Hset)];
        [congruence | ].
      exfalso. apply (Hno i01 i02 j01 j02 Hi Hj).
      exists p1, q1. tauto.
  - split; [ | now destruct a as [| [| [| a]]]].
    intros b Hb _. destruct b as [| [| [| b]]]; [ | | | lia]; reflexivity.
Qed.

Lemma all_rotated_flag (st : RotState) (a : nat) :
  all_rotated st = true -> flag a st = true.
Proof.
  unfold all_rotated. intros H.
  apply andb_true_iff in H. destruct H as [H Hz].
  apply andb_true_iff in H. destruct H as [Hx Hy].
  destruct a as [| [| a]]; assumption.
Qed.

(** The claim C6 as it is written fails: the solver succeeds on a map in
    which no pair of correspondences has a delta along x that is larger than
    its deltas along y and z. *)
Lemma orient_uses_smaller_delta :
  (exists r, orient_02_to_01 pair_scanner1 pair_scanner2 pair_iso = Ok r)
  /\ forall i01 i02 j01 j02 p q,
       (i01, i02) ∈ iso_map pair_iso -> (j01, j02) ∈ iso_map pair_iso ->
       scans pair_scanner1 !! i01 = Some p -> scans pair_scanner1 !! j01 = Some q ->
       larger_delta (pick 0 (delta p q)) = false.
Proof.
  split; [eexists; vm_compute; reflexivity | ].
  intros i01 i02 j01 j02 p q Hi Hj.
  apply list_elem_of_In in Hi, Hj. vm_compute in Hi, Hj.
  destruct Hi as [[= <- <-] | [[= <- <-] | []]];
    destruct Hj as [[= <- <-] | [[= <- <-] | []]];
    intros [= <-] [= <-]; reflexivity.
Qed.

(** The solver also stops at line 287 on a map that sends every index to
    itself, whatever its deltas: line 246 compares [i01] with [i02]. *)
Remark orient_skips_equal_indices :
  orient_02_to_01 pair_scanner1 pair_scanner1 same_iso = Raise (AssertionError 287)
  /\ axis_defining pair_scanner1 0 0 1
  /\ axis_defining pair_scanner1 1 0 1
  /\ axis_defining pair_scanner1 2 0 1.
Proof.
  split; [vm_compute; reflexivity | ].
  repeat split; eexists _, _; (split; [ | split]); reflexivity.
Qed.

(** C6 (amended). The rotation search writes the row of an axis only from a
    pair of mapped correspondences whose delta along that axis, in the frame
    of scanner01, is not zero and has a magnitude different from the
    magnitudes along the other two axes (it need not be larger), and the row
    is the ratio of the delta of scanner02 to that delta. When for some axis
    no pair of mapped correspondences has such a delta, the solver fails by
    assertion. *)
Theorem rotation_uses_unique_deltas (s1 s2 : Scanner) (iso : SubGraphIsomorphism) :
  (forall s1' s2', orient_02_to_01 s1 s2 iso = Ok (s1', s2') ->
     forall a, (a < 3)%nat ->
       row_from_pair s1 s2 (iso_map iso) a (rotation_matrix s2'))
  /\ (valid_items s1 s2 (iso_map iso) ->
      forall a, (a < 3)%nat ->
        (forall i01 i02 j01 j02,
           (i01, i02) ∈ iso_map iso -> (j01, j02) ∈ iso_map iso ->
           ~ axis_defining s1 a i01 j01) ->
        exists line, orient_02_to_01 s1 s2 iso = Raise (AssertionError line)).
Proof.
  split.
  - intros s1' s2' H a Ha. unfold orient_02_to_01 in H. inv_Ok H.
    injection H as _ <-. simpl.
    pose proof (find_rotation_rows_from_pairs
                  (reset_translation (reset_rotation s1)) s2 (iso_map iso)) as Hr.
    rewrite Ha2 in Hr. simpl in Hr. specialize (Hr a Ha).
    apply assert_Ok in Ha3. now rewrite (all_rotated_flag _ a Ha3) in Hr.
  - intros Hvalid a Ha Hno. unfold orient_02_to_01.
    destruct (assert 236 _) as [[] | e] eqn:E1; simpl.
    2: { apply assert_Raise in E1. subst. eauto. }
    destruct (assert 237 _) as [[] | e] eqn:E2; simpl.
    2: { apply assert_Raise in E2. subst. eauto. }
    pose proof (find_rotation_axis_missing
                  (reset_translation (reset_rotation s1)) s2 (iso_map iso) a
                  Hvalid Ha Hno) as Hr.
    destruct (find_rotation _ _ _) as [st | e]; simpl in *.
    + assert (all_rotated st = false) as ->.
      { destruct (all_rotated st) eqn:Eall; [ | reflexivity].
        rewrite (all_rotated_flag _ a Eall) in Hr. discriminate. }
      simpl. eauto.
    + destruct e; try contradiction. eauto.
Qed.

(** ** The transform solver on related scanners *)

(** One pair of correspondences related by a rotation, with the flags: an
    axis is found when it was found before or when the pair is read (line
    246) and its delta along the axis is unique. *)
Lemma rotation_pair_related_flags (R : Matrix) (t : Point) (s1 s2 : Scanner)
    (i01 i02 j01 j02 : nat) (p1 p2 q1 q2 : Point) (st : RotState) :
  R ∈ rotations24 ->
  scans s1 !! i01 = Some p1 -> scans s2 !! i02 = Some p2 -> p1 = transform R t p2 ->
  scans s1 !! j01 = Some q1 -> scans s2 !! j02 = Some q2 -> q1 = transform R t q2 ->
  rows_found R st ->
  exists st', rotation_pair s1 s2 i01 i02 j01 j02 st = Ok st'
    /\ rows_found R st'
    /\ forall a, (a < 3)%nat ->
         flag a st'
         = flag a st || (negb (i01 =? i02)%nat && unique_delta (pick a (delta p1 q1))).
Proof.
  intros HR Hp1 Hp2 -> Hq1 Hq2 -> Hst.
  pose proof (rotation_pair_related R t s1 s2 i01 i02 j01 j02 _ p2 _ q2 st HR
                Hp1 Hp2 eq_refl Hq1 Hq2 eq_refl Hst) as Hsat.
  assert (exists st', rotation_pair s1 s2 i01 i02 j01 j02 st = Ok st'
            /\ forall a, (a < 3)%nat ->
                 flag a st'
                 = flag a st
                   || (negb (i01 =? i02)%nat
                       && unique_delta
                            (pick a (delta (transform R t p2) (transform R t q2)))))
    as (st' & E & Hflags).
  { unfold rotation_pair.
    destruct (negb (i01 =? i02)%nat).
    2: { exists st. split; [reflexivity | ].
         intros a Ha. cbn [andb]. now rewrite orb_false_r. }
    apply list_get_Ok in Hp1, Hp2, Hq1, Hq2. rewrite Hp1, Hq1, Hp2, Hq2.
    rewrite !bind_Ok_l. rewrite delta_transform.
    pose proof (delta_in_range p2 q2) as Hd2.
    destruct (mat_dot R (delta p2 q2)) as [[dx dy] dz] eqn:Ed.
    pose proof (Hst 0%nat ltac:(lia)) as H0.
    pose proof (Hst 1%nat ltac:(lia)) as H1.
    pose proof (Hst 2%nat ltac:(lia)) as H2.
    rewrite (axis_step_spec R (delta p2 q2) 252 0 (x_rotated st) (rot st) dx dy dz);
      [ | assumption | assumption | lia | | now rewrite Ed].
    2: { intros Hf. simpl in H0. now rewrite Hf in H0. }
    rewrite bind_Ok_l. cbv beta iota.
    rewrite (axis_step_spec R (delta p2 q2) 263 1 (y_rotated st) _ dy dx dz);
      [ | assumption | assumption | lia | | now rewrite Ed].
    2: { intros Hf. simpl in H1. rewrite Hf in H1.
         destruct (_ && _); rewrite ?mat_row_set_row by lia; simpl; assumption. }
    rewrite bind_Ok_l. cbv beta iota.
    rewrite (axis_step_spec R (delta p2 q2) 274 2 (z_rotated st) _ dz dx dy);
      [ | assumption | assumption | lia | | now rewrite Ed].
    2: { intros Hf. simpl in H2. rewrite Hf in H2.
         destruct (_ && unique_delta (dy, _, _)), (_ && unique_delta (dx, _, _));
           rewrite ?mat_row_set_row by lia; simpl; assumption. }
    rewrite bind_Ok_l. cbv beta iota.
    eexists. split; [reflexivity | ].
    intros a Ha. destruct a as [| [| [| a]]]; [ | | | lia]; reflexivity. }
  exists st'. split; [exact E | split; [ | exact Hflags]].
  rewrite E in Hsat. exact Hsat.
Qed.

Section RelatedSearch.
Context (R : Matrix) (t : Point) (s1 s2 : Scanner) (all_items : dict).
Hypothesis HR : R ∈ rotations24.
Hypothesis Hrel : related R t s1 s2 all_items.

Lemma axis_defining_unique (a i01 j01 : nat) (p1 q1 : Point) :
  scans s1 !! i01 = Some p1 -> scans s1 !! j01 = Some q1 ->
  axis_defining s1 a i01 j01 -> unique_delta (pick a (delta p1 q1)) = true.
Proof.
  intros Hp Hq (p & q & Hp' & Hq' & Hu). congruence.
Qed.

(** The inner loop on a related map: it returns; the axes found stay found;
    and when it ends without the three axes, every axis that a pair it read
    defines is found. *)
Lemma rotation_inner_complete (i01 i02 : nat) (items : dict) (st : RotState) :
  (i01, i02) ∈ all_items ->
  (forall j j', (j, j') ∈ items -> (j, j') ∈ all_items) ->
  rows_found R st ->
  exists st', rotation_inner s1 s2 i01 i02 items st = Ok st'
    /\ rows_found R st'
    /\ (forall a, (a < 3)%nat -> flag a st = true -> flag a st' = true)
    /\ (all_rotated st' = true
        \/ forall j01 j02 a, (j01, j02) ∈ items -> (a < 3)%nat ->
             i01 <> i02 -> axis_defining s1 a i01 j01 -> flag a st' = true).
Proof.
  intros Hi. revert st. induction items as [| [j01 j02] rest IH]; intros st Hsub Hst;
    cbn [rotation_inner].
  - exists st. split; [reflexivity | split; [exact Hst | split; [auto | right]]].
    intros j01 j02 a H. now apply elem_of_nil in H.
  - destruct (Hrel _ _ Hi) as (p1 & p2 & Hp1 & Hp2 & Ep).
    destruct (Hrel j01 j02) as (q1 & q2 & Hq1 & Hq2 & Eq); [apply Hsub; left | ].
    destruct (rotation_pair_related_flags R t s1 s2 i01 i02 j01 j02 p1 p2 q1 q2 st
                HR Hp1 Hp2 Ep Hq1 Hq2 Eq Hst) as (st1 & -> & Hst1 & Hflags).
    rewrite bind_Ok_l.
    assert (forall a, (a < 3)%nat -> flag a st = true -> flag a st1 = true) as Hmono1
      by (intros a Ha Hf; now rewrite (Hflags a Ha), Hf).
    assert (forall a, (a < 3)%nat -> i01 <> i02 -> axis_defining s1 a i01 j01 ->
              flag a st1 = true) as Hhead.
    { intros a Ha Hne Hdef. rewrite (Hflags a Ha).
      rewrite (proj2 (Nat.eqb_neq i01 i02) Hne).
      rewrite (axis_defining_unique a i01 j01 p1 q1 Hp1 Hq1 Hdef).
      apply orb_true_r. }
    destruct (all_rotated st1) eqn:Eall.
    + exists st1. split; [reflexivity | split; [exact Hst1 | split; [exact Hmono1 | ]]].
      now left.
    + destruct (IH st1) as (st' & H' & Hst' & Hmono & Hdone);
        [intros j j' H; apply Hsub; now right | exact Hst1 | ].
      exists st'. split; [exact H' | split; [exact Hst' | split]].
      * intros a Ha Hf. apply Hmono; [exact Ha | now apply Hmono1].
      * destruct Hdone as [Hdone | Hdone]; [now left | right].
        intros j j' a Hin Ha Hne Hdef. apply elem_of_cons in Hin.
        destruct Hin as [[= -> ->] | Hin].
        -- apply Hmono; [exact Ha | now apply Hhead].
        -- now apply (Hdone j j' a).
Qed.

(** The outer loop, in the same way. *)
Lemma rotation_outer_complete (items : dict) (st : RotState) :
  (forall i i', (i, i') ∈ items -> (i, i') ∈ all_items) ->
  rows_found R st ->
  exists st', rotation_outer s1 s2 all_items items st = Ok st'
    /\ rows_found R st'
    /\ (forall a, (a < 3)%nat -> flag a st = true -> flag a st' = true)
    /\ (all_rotated st' = true
        \/ forall i01 i02 j01 j02 a,
             (i01, i02) ∈ items -> (j01, j02) ∈ all_items -> (a < 3)%nat ->
             i01 <> i02 -> axis_defining s1 a i01 j01 -> flag a st' = true).
Proof.
  revert st. induction items as [| [i01 i02] rest IH]; intros st Hsub Hst;
    cbn [rotation_outer].
  - exists st. split; [reflexivity | split; [exact Hst | split; [auto | right]]].
    intros i01 i02 j01 j02 a H. now apply elem_of_nil in H.
  - destruct (rotation_inner_complete i01 i02 all_items st)
      as (st1 & -> & Hst1 & Hmono1 & Hdone1); [apply Hsub; left | auto | exact Hst | ].
    rewrite bind_Ok_l.
    destruct (all_rotated st1) eqn:Eall.
    + exists st1. split; [reflexivity | split; [exact Hst1 | split; [exact Hmono1 | ]]].
      now left.
    + destruct Hdone1 as [Hdone1 | Hdone1]; [congruence | ].
      destruct (IH st1) as (st' & H' & Hst' & Hmono & Hdone);
        [intros i i' H; apply Hsub; now right | exact Hst1 | ].
      exists st'. split; [exact H' | split; [exact Hst' | split]].
      * intros a Ha Hf. apply Hmono; [exact Ha | now apply Hmono1].
      * destruct Hdone as [Hdone | Hdone]; [now left | right].
        intros i i' j j' a Hin Hj Ha Hne Hdef. apply elem_of_cons in Hin.
        destruct Hin as [[= -> ->] | Hin].
        -- apply Hmono; [exact Ha | now apply (Hdone1 j j' a)].
        -- now apply (Hdone i i' j j' a).
Qed.

(** The rotation search on a related map finds the three axes when each of
    them is defined by a pair of correspondences that line 246 lets through. *)
Lemma find_rotation_complete :
  (forall a, (a < 3)%nat ->
     exists i01 i02 j01 j02,
       (i01, i02) ∈ all_items /\ (j01, j02) ∈ all_items
       /\ i01 <> i02 /\ axis_defining s1 a i01 j01) ->
  exists st, find_rotation s1 s2 all_items = Ok st
    /\ rows_found R st /\ all_rotated st = true.
Proof.
  intros Hdef. unfold find_rotation.
  destruct (rotation_outer_complete all_items (mkRot false false false zero_matrix))
    as (st & H & Hst & _ & Hdone); [auto | | ].
  { intros a Ha. destruct a as [| [| [| a]]]; [ | | | lia]; reflexivity. }
  exists st. split; [exact H | split; [exact Hst | ]].
  destruct Hdone as [Hall | Hdone]; [exact Hall | ].
  assert (forall a, (a < 3)%nat -> flag a st = true) as Hflags.
  { intros a Ha. destruct (Hdef a Ha) as (i01 & i02 & j01 & j02 & Hi & Hj & Hne & Hd).
    now apply (Hdone i01 i02 j01 j02 a). }
  pose proof (Hflags 0%nat ltac:(lia)) as F0.
  pose proof (Hflags 1%nat ltac:(lia)) as F1.
  pose proof (Hflags 2%nat ltac:(lia)) as F2.
  simpl in F0, F1, F2. unfold all_rotated. now rewrite F0, F1, F2.
Qed.

End RelatedSearch.

Lemma related_valid_items (R : Matrix) (t : Point) (s1 s2 : Scanner) (items : dict) :
  related R t s1 s2 items -> valid_items s1 s2 items.
Proof.
  intros Hrel i1 i2 Hin. destruct (Hrel i1 i2 Hin) as (p1 & p2 & Hp1 & Hp2 & _).
  unfold size. split; eapply lookup_lt_Some; eassumption.
Qed.

(** C1 (amended). Scanner02 has no translation yet and every correspondence
    of the map relates a point of scanner02 to its image in scanner01 by one
    of the 24 rotations [R] and a translation [t]. When each of the three axes
    is defined by a pair of correspondences that the solver reads (the delta
    of the two points of scanner01 along the axis is not zero and differs in
    magnitude from the deltas along the other two axes; the solver reads a
    pair only when the two indices of its first correspondence differ, line
    246), the solver returns with the rotation [R] and the translation [t]
    and the final check holds: every mapped point of scanner02 is sent to its
    point of scanner01. When for some axis no pair of correspondences at all
    defines it, the solver stops at the assertion of line 287. *)
Theorem orient_recovers_transform (s1 s2 : Scanner) (iso : SubGraphIsomorphism)
    (R : Matrix) (t : Point) :
  index s1 = index (scanner01 iso) ->
  index s2 = index (scanner02 iso) ->
  R ∈ rotations24 ->
  point_in_range t ->
  translation s2 = Some zero_vector ->
  related R t s1 s2 (iso_map iso) ->
  ((forall a, (a < 3)%nat ->
      exists i01 i02 j01 j02,
        (i01, i02) ∈ iso_map iso /\ (j01, j02) ∈ iso_map iso
        /\ i01 <> i02 /\ axis_defining s1 a i01 j01) ->
   exists s1' s2',
     orient_02_to_01 s1 s2 iso = Ok (s1', s2')
     /\ rotation_matrix s2' = R
     /\ translation s2' = Some t
     /\ forall i1 i2, (i1, i2) ∈ iso_map iso ->
          exists p1, scans s1' !! i1 = Some p1 /\ get_scan s2' i2 = Ok p1)
  /\ ((exists a, (a < 3)%nat
         /\ forall i01 i02 j01 j02,
              (i01, i02) ∈ iso_map iso -> (j01, j02) ∈ iso_map iso ->
              ~ axis_defining s1 a i01 j01) ->
      orient_02_to_01 s1 s2 iso = Raise (AssertionError 287)).
Proof.
  intros Hi1 Hi2 HR Ht Ht2 Hrel. split.
  - intros Hdef.
    destruct (find_rotation_complete R t (reset_translation (reset_rotation s1)) s2
                (iso_map iso) HR Hrel Hdef) as (st & Hst & Hrows & Hall).
    unfold orient_02_to_01.
    rewrite <- Hi1, <- Hi2, !Nat.eqb_refl, Hst. simpl. rewrite Hall. simpl.
    rewrite (rows_found_all R st Hrows Hall).
    destruct (iso_map iso) as [| [i0 j0] rest] eqn:Eitems.
    { rewrite find_rotation_nil in Hst. injection Hst as <-. discriminate. }
    destruct (Hrel i0 j0) as (p1 & p2 & Hp1 & Hp2 & Ep); [left | ].
    assert (find_translation (reset_translation (reset_rotation s1)) (set_rotation s2 R)
              ((i0, j0) :: rest) = Ok (Some t)) as Etr.
    { unfold find_translation, get_scan. simpl.
      apply list_get_Ok in Hp1, Hp2. rewrite Hp2, Ht2, Hp1. simpl.
      rewrite Ep. pose proof (translation_recovered R t p2 Ht) as Htr.
      destruct (delta _ _) as [[dx dy] dz]. now rewrite Htr. }
    rewrite Etr, bind_Ok_l.
    assert (forall i1 i2, (i1, i2) ∈ (i0, j0) :: rest ->
              exists q1, scans s1 !! i1 = Some q1
                /\ get_scan (set_translation (set_rotation s2 R) (Some t)) i2 = Ok q1)
      as Hcheck.
    { intros i1 i2 Hin. destruct (Hrel i1 i2 Hin) as (q1 & q2 & Hq1 & Hq2 & Eq).
      exists q1. split; [exact Hq1 | ].
      unfold get_scan. simpl. apply list_get_Ok in Hq2. rewrite Hq2. simpl.
      now rewrite Eq. }
    rewrite (check_loop_equal (reset_translation (reset_rotation s1)) _ _ Hcheck),
      bind_Ok_l.
    eexists _, _. split; [reflexivity | ]. simpl. auto.
  - intros (a & Ha & Hno).
    destruct (proj1 (result_sat_Ok _ _)
                (find_rotation_related R t (reset_translation (reset_rotation s1)) s2
                   (iso_map iso) HR Hrel)) as (st & Hst & _).
    pose proof (find_rotation_axis_missing
                  (reset_translation (reset_rotation s1)) s2 (iso_map iso) a
                  (related_valid_items R t _ _ _ Hrel) Ha Hno) as Hmiss.
    rewrite Hst in Hmiss. simpl in Hmiss.
    assert (all_rotated st = false) as Hall.
    { destruct (all_rotated st) eqn:Eall; [ | reflexivity].
      rewrite (all_rotated_flag st a Eall) in Hmiss. discriminate. }
    unfold orient_02_to_01.
    rewrite <- Hi1, <- Hi2, !Nat.eqb_refl, Hst. simpl. now rewrite Hall.
Qed.

Lemma orient_recovers_transform_witness :
  exists s1' s2',
    orient_02_to_01 pair_scanner1 pair_scanner2 pair_iso = Ok (s1', s2')
    /\ rotation_matrix s2' = quarter_turn
    /\ translation s2' = Some (3, 0, 5).
Proof.
  destruct (proj1 (orient_recovers_transform pair_scanner1 pair_scanner2 pair_iso
                     quarter_turn (3, 0, 5)
                     eq_refl eq_refl
                     ltac:(apply list_elem_of_In; vm_compute; tauto)
                     ltac:(vm_compute; intuition discriminate)
                     eq_refl
                     ltac:(intros i1 i2 H; apply list_elem_of_In in H; vm_compute in H;
                           repeat (destruct H as [[= <- <-] | H];
                                   [eexists _, _; split; [ | split]; reflexivity | ]);
                           contradiction)))
    as (s1' & s2' & H & HR & Ht & _).
  - intros a Ha. exists 0%nat, 1%nat, 1%nat, 0%nat.
    split; [left | split; [right; left | split; [discriminate | ]]].
    exists (0, 0, 0), (1, 2, 3).
    split; [reflexivity | split; [reflexivity | ]].
    destruct a as [| [| [| a]]]; [ | | | lia]; vm_compute; reflexivity.
  - exists s1', s2'. auto.
Defined.

(** ** The reference scanner of the driver *)

Lemma foldM_preserves_Forall {A B} (P : A -> Prop) (Q : B -> Prop)
    (f : A -> B -> result A) :
  (forall a x a', P a -> Q x -> f a x = Ok a' -> P a') ->
  forall l a a', P a -> Forall Q l -> foldM f a l = Ok a' -> P a'.
Proof.
  intros Hf l. induction l as [| x l IH]; intros a a' Ha Hl H; simpl in H.
  - congruence.
  - apply bind_Ok in H. destruct H as (a1 & H1 & H).
    inversion Hl; subst. eauto.
Qed.

Lemma numpy_array_Ok (x y z : Z) (p : Point) :
  numpy_array x y z = Ok p -> p = (x, y, z) /\ point_in_range (x, y, z).
Proof.
  unfold numpy_array. destruct (Int64.in_rangeb x) eqn:Ex; [ | discriminate].
  destruct (Int64.in_rangeb y) eqn:Ey; [ | discriminate].
  destruct (Int64.in_rangeb z) eqn:Ez; [ | discriminate].
  simpl. intros [= <-]. apply in_rangeb_spec in Ex, Ey, Ez. simpl. auto.
Qed.

Lemma numpy_array_in_range (x y z : Z) :
  point_in_range (x, y, z) -> numpy_array x y z = Ok (x, y, z).
Proof.
  intros (Hx & Hy & Hz). apply in_rangeb_spec in Hx, Hy, Hz.
  unfold numpy_array. now rewrite Hx, Hy, Hz.
Qed.

Lemma add_scan_frame (s s' : Scanner) (x y z : Z) :
  reference_frame s -> add_scan s x y z = Ok s' -> reference_frame s'.
Proof.
  intros (Hr & Ht & Hp) H. unfold add_scan in H. inv_Ok H.
  apply numpy_array_Ok in Ha. destruct Ha as [-> Hin].
  injection H as <-. repeat split; simpl; try assumption.
  apply Forall_app. split; [assumption | now constructor].
Qed.

Lemma build_graph_scans (s : Scanner) :
  scans (build_graph s) = sorted point_leb (scans s).
Proof.
  unfold build_graph.
  now destruct (build_graph_loops (length (scans s)) (sorted point_leb (scans s))).
Qed.

Lemma build_graph_transform (s : Scanner) :
  rotation_matrix (build_graph s) = rotation_matrix s
  /\ translation (build_graph s) = translation s
  /\ index (build_graph s) = index s.
Proof.
  unfold build_graph.
  now destruct (build_graph_loops (length (scans s)) (sorted point_leb (scans s))).
Qed.

Lemma build_graph_frame (s : Scanner) : reference_frame s -> reference_frame (build_graph s).
Proof.
  intros (Hr & Ht & Hp). destruct (build_graph_transform s) as (Er & Et & _).
  repeat split; [congruence | congruence | ].
  rewrite build_graph_scans. now rewrite sorted_Permutation.
Qed.

Lemma load_scanner_frame (r : nat * list Point) (s : Scanner) :
  load_scanner r = Ok s -> reference_frame s.
Proof.
  unfold load_scanner.
  apply (foldM_preserves reference_frame).
  - intros a [[x y] z] a' Ha H. eapply add_scan_frame; eassumption.
  - repeat split. constructor.
Qed.

Lemma load_frame (input : list (nat * list Point)) (scanners : list Scanner) :
  load input = Ok scanners -> Forall reference_frame scanners.
Proof.
  unfold load. intros H. inv_Ok H. injection H as <-.
  revert a Ha. induction input as [| r rest IH]; intros ss H; simpl in H.
  - injection H as <-. constructor.
  - inv_Ok H. injection H as <-. simpl. constructor.
    + apply build_graph_frame. eapply load_scanner_frame; eassumption.
    + now apply IH.
Qed.

Lemma vec_add_in_range (p q : Point) : point_in_range (vec_add p q).
Proof.
  destruct p as [[x1 y1] z1], q as [[x2 y2] z2]. simpl.
  repeat split; apply wrap_in_range.
Qed.

Lemma get_scan_in_range (s : Scanner) (i : nat) (p : Point) :
  get_scan s i = Ok p -> point_in_range p.
Proof.
  unfold get_scan. intros H. inv_Ok H.
  destruct (translation s); [ | discriminate].
  injection H as <-. apply vec_add_in_range.
Qed.

Lemma get_scan_loop_in_range (s : Scanner) (indices : list nat) (l : list Point) :
  get_scan_loop s indices = Ok l -> Forall point_in_range l.
Proof.
  revert l. induction indices as [| i rest IH]; intros l H; simpl in H.
  - injection H as <-. constructor.
  - inv_Ok H. injection H as <-. constructor.
    + eapply get_scan_in_range; eassumption.
    + now apply IH.
Qed.

Lemma get_scans_in_range (s : Scanner) (l : list Point) :
  get_scans s = Ok l -> Forall point_in_range l.
Proof.
  unfold get_scans. intros H. inv_Ok H. injection H as <-.
  rewrite sorted_Permutation. eapply get_scan_loop_in_range; eassumption.
Qed.

(** The identity rotation and the zero translation leave a point as it is. *)
Lemma transform_identity (p : Point) :
  point_in_range p -> vec_add (mat_dot identity_matrix p) zero_vector = p.
Proof.
  destruct p as [[x y] z]. intros (Hx & Hy & Hz).
  unfold vec_add, mat_dot, row_dot, identity_matrix, zero_vector.
  repeat f_equal; eqm_ring_to.
Qed.

Lemma get_scan_frame (s : Scanner) (i : nat) (p : Point) :
  reference_frame s -> scans s !! i = Some p -> get_scan s i = Ok p.
Proof.
  intros (Hr & Ht & Hp) Hi. unfold get_scan.
  rewrite (proj2 (list_get_Ok _ _ _) Hi), Ht, Hr. simpl.
  f_equal. apply transform_identity.
  rewrite Forall_lookup in Hp. eapply Hp; eassumption.
Qed.

Lemma merge_point_frame (s s' : Scanner) (q : Point) :
  reference_frame s -> point_in_range q -> merge_point s q = Ok s' ->
  reference_frame s'.
Proof.
  intros Hs Hq H. unfold merge_point in H. inv_Ok H.
  destruct (existsb _ a); [now injection H as <- | ].
  destruct q as [[x y] z]. eapply add_scan_frame; eassumption.
Qed.

Lemma merge_frame (s1 s2 s : Scanner) :
  reference_frame s1 -> merge_02_into_01 s1 s2 = Ok s -> reference_frame s.
Proof.
  intros Hs H. unfold merge_02_into_01 in H. inv_Ok H. injection H as <-.
  apply build_graph_frame.
  eapply (foldM_preserves_Forall reference_frame point_in_range);
    [ | exact Hs | | exact Ha0].
  - intros. eapply merge_point_frame; eassumption.
  - eapply get_scans_in_range; eassumption.
Qed.

Lemma orient_frame (s1 s2 : Scanner) (iso : SubGraphIsomorphism) (s1' s2' : Scanner) :
  Forall point_in_range (scans s1) ->
  orient_02_to_01 s1 s2 iso = Ok (s1', s2') -> reference_frame s1'.
Proof.
  intros Hp H. unfold orient_02_to_01 in H. inv_Ok H.
  injection H as <- _. repeat split. exact Hp.
Qed.

Lemma driver_step_frame (st st' : Driver) :
  reference_frame (scanner00 st) -> driver_step st = Ok st' ->
  reference_frame (scanner00 st').
Proof.
  intros Hs H. unfold driver_step in H.
  destruct (unoriented_scanners st) as [| scanner01 rest]; [now injection H as <- | ].
  inv_Ok H. destruct (12 <=? iso_size a)%nat; [ | now injection H as <-].
  inv_Ok H. destruct a0 as [s00 s01]. inv_Ok H. injection H as <-. simpl.
  eapply merge_frame; [ | eassumption].
  eapply orient_frame; [ | eassumption]. apply Hs.
Qed.

Lemma driver_steps_frame (n : nat) (st st' : Driver) :
  reference_frame (scanner00 st) -> driver_steps n st = Ok st' ->
  reference_frame (scanner00 st').
Proof.
  revert st. induction n as [| n IH]; intros st Hs H; simpl in H.
  - now injection H as <-.
  - inv_Ok H. eapply IH; [ | eassumption]. eapply driver_step_frame; eassumption.
Qed.

(** C10. In every state of the worklist loop the reference scanner has the
    identity rotation and the zero translation, and [get_scan] returns each
    of its points as it is stored: the points are in the reference frame. *)
Theorem reference_scanner_frame (input : list (nat * list Point))
    (scanners : list Scanner) (d d' : Driver) (n : nat) :
  load input = Ok scanners ->
  driver_init scanners = Ok d ->
  driver_steps n d = Ok d' ->
  rotation_matrix (scanner00 d') = identity_matrix
  /\ translation (scanner00 d') = Some zero_vector
  /\ forall i p, scans (scanner00 d') !! i = Some p -> get_scan (scanner00 d') i = Ok p.
Proof.
  intros Hload Hinit Hsteps.
  assert (reference_frame (scanner00 d)) as Hd.
  { unfold driver_init in Hinit. inv_Ok Hinit. injection Hinit as <-. simpl.
    apply list_get_Ok in Ha.
    pose proof (load_frame _ _ Hload) as Hall.
    rewrite Forall_lookup in Hall. eapply Hall; eassumption. }
  pose proof (driver_steps_frame n d d' Hd Hsteps) as Hd'.
  split; [apply Hd' | split; [apply Hd' | ]].
  intros i p. now apply get_scan_frame.
Qed.

Lemma reference_scanner_frame_witness :
  rotation_matrix (scanner00 scene_merged) = identity_matrix
  /\ translation (scanner00 scene_merged) = Some zero_vector
  /\ forall i p, scans (scanner00 scene_merged) !! i = Some p ->
       get_scan (scanner00 scene_merged) i = Ok p.
Proof.
  apply (reference_scanner_frame scene [scene_scanner 0; scene_scanner 1]
           scene_driver scene_merged 1).
  - vm_compute. reflexivity.
  - reflexivity.
  - vm_compute. reflexivity.
Defined.

(** ** The merge engine *)

Lemma point_eqb_eq (p q : Point) : point_eqb p q = true <-> p = q.
Proof.
  destruct p as [[x1 y1] z1], q as [[x2 y2] z2]. unfold point_eqb.
  rewrite !andb_true_iff, !Z.eqb_eq. split; [intros [[-> ->] ->] | intros [= -> -> ->]]; auto.
Qed.

Lemma existsb_point_eqb (q : Point) (l : list Point) :
  existsb (fun p => point_eqb p q) l = true <-> q ∈ l.
Proof.
  rewrite existsb_exists. split.
  - intros (p & Hin & E). apply point_eqb_eq in E. subst. now apply list_elem_of_In.
  - intros H. exists q. split; [now apply list_elem_of_In | now apply point_eqb_eq].
Qed.

Lemma get_scan_loop_drop (s : Scanner) (t : Point) (n k : nat) :
  translation s = Some t ->
  (k + n = length (scans s))%nat ->
  get_scan_loop s (seq k n)
  = Ok (map (fun p => vec_add (mat_dot (rotation_matrix s) p) t) (drop k (scans s))).
Proof.
  intros Ht. revert k. induction n as [| n IH]; intros k Hk; simpl.
  - now rewrite drop_ge by lia.
  - destruct (lookup_lt_is_Some_2 (scans s) k) as [p Hp]; [lia | ].
    unfold get_scan at 1. rewrite (proj2 (list_get_Ok _ _ _) Hp), Ht. simpl.
    rewrite IH by lia. simpl. now rewrite (drop_S _ _ _ Hp).
Qed.

Lemma get_scans_transformed (s : Scanner) (t : Point) :
  translation s = Some t -> get_scans s = Ok (sorted point_leb (transformed s)).
Proof.
  intros Ht. unfold get_scans, transformed.
  rewrite (get_scan_loop_drop s t (length (scans s)) 0 Ht) by lia.
  now rewrite Ht.
Qed.

Lemma transformed_frame (s : Scanner) : reference_frame s -> transformed s = scans s.
Proof.
  intros (Hr & Ht & Hp). unfold transformed. rewrite Ht, Hr.
  induction Hp as [| p l Hp _ IH]; cbn [map]; [reflexivity | ].
  now rewrite transform_identity, IH.
Qed.

Lemma transformed_lookup (s : Scanner) (i : nat) (q : Point) :
  get_scan s i = Ok q <-> transformed s !! i = Some q.
Proof.
  unfold get_scan, transformed, list_get.
  destruct (translation s) as [t | ].
  - rewrite list_lookup_fmap. destruct (scans s !! i); simpl; split; congruence.
  - destruct (scans s !! i); simpl; split; intros H; try discriminate;
      now rewrite lookup_nil in H.
Qed.

Lemma filter_ext_elem {A} (P1 P2 : A -> Prop)
    `{!forall x, Decision (P1 x), !forall x, Decision (P2 x)} (l : list A) :
  (forall x, x ∈ l -> P1 x <-> P2 x) -> filter P1 l = filter P2 l.
Proof.
  induction l as [| a l IH]; intros Hext; [reflexivity | ].
  assert (filter P1 l = filter P2 l) as E
    by (apply IH; intros x Hx; apply Hext; now right).
  destruct (decide (P1 a)) as [Ha | Ha].
  - rewrite !filter_cons_True; [now rewrite E | apply Hext; [left | exact Ha] | exact Ha].
  - rewrite !filter_cons_False; [exact E | | exact Ha].
    intros Ha2. apply Ha, Hext; [left | exact Ha2].
Qed.

Lemma merge_point_frame_eq (s : Scanner) (q : Point) :
  reference_frame s ->
  merge_point s q
  = if existsb (fun p => point_eqb p q) (sorted point_leb (scans s)) then Ok s
    else let '(x, y, z) := q in add_scan s x y z.
Proof.
  intros Hs. unfold merge_point.
  rewrite (get_scans_transformed s zero_vector) by apply Hs.
  now rewrite transformed_frame by assumption.
Qed.

(** The loop of the merge on distinct points: the points that are not there
    yet are appended. *)
Lemma merge_loop_scans (l : list Point) (s : Scanner) :
  reference_frame s -> NoDup l -> Forall point_in_range l ->
  exists s', foldM merge_point s l = Ok s'
    /\ reference_frame s'
    /\ scans s' = scans s ++ filter (fun q => q ∉ scans s) l.
Proof.
  revert s. induction l as [| q l IH]; intros s Hs Hnd Hr; cbn [foldM].
  - exists s. rewrite filter_nil, app_nil_r. auto.
  - apply NoDup_cons in Hnd. destruct Hnd as [Hq Hnd].
    inversion Hr as [| ? ? Hqr Hr']; subst.
    rewrite (merge_point_frame_eq s q Hs).
    destruct (existsb _ _) eqn:Eex.
    + apply existsb_point_eqb in Eex. rewrite sorted_Permutation in Eex.
      rewrite bind_Ok_l. destruct (IH s Hs Hnd Hr') as (s' & H & Hs' & E).
      exists s'. split; [exact H | split; [exact Hs' | ]].
      rewrite E, filter_cons_False; [reflexivity | tauto].
    + assert (q ∉ scans s) as Hnot.
      { intros Hin. rewrite <- (sorted_Permutation point_leb) in Hin.
        apply existsb_point_eqb in Hin. congruence. }
      destruct q as [[x y] z]. unfold add_scan.
      rewrite (numpy_array_in_range x y z Hqr), !bind_Ok_l.
      match goal with |- context [foldM merge_point ?s1 l] => set (s1' := s1) end.
      assert (reference_frame s1') as Hs1.
      { destruct Hs as (H1 & H2 & H3). repeat split; simpl; try assumption.
        apply Forall_app. split; [assumption | now constructor]. }
      destruct (IH s1' Hs1 Hnd Hr') as (s' & H & Hs' & E).
      exists s'. split; [exact H | split; [exact Hs' | ]].
      rewrite E. simpl. rewrite filter_cons_True by assumption.
      rewrite <- app_assoc. simpl. do 2 f_equal.
      apply filter_ext_elem. intros p Hp.
      rewrite elem_of_app, list_elem_of_singleton.
      split; [tauto | ]. intros Hps [ | ->]; [tauto | contradiction].
Qed.

Lemma check_loop_Ok (s1 s2 : Scanner) (items : dict) :
  check_loop s1 s2 items = Ok tt ->
  forall i1 i2, (i1, i2) ∈ items ->
    exists p1 q, scans s1 !! i1 = Some p1 /\ get_scan s2 i2 = Ok q
                 /\ delta p1 q = (0, 0, 0).
Proof.
  induction items as [| [j1 j2] rest IH]; intros H i1 i2 Hin.
  - now apply elem_of_nil in Hin.
  - simpl in H. inv_Ok H.
    destruct (delta a0 a) as [[dx dy] dz] eqn:Ed. inv_Ok H.
    apply assert_Ok in Ha1.
    apply andb_true_iff in Ha1. destruct Ha1 as [Ha1 Ez].
    apply andb_true_iff in Ha1. destruct Ha1 as [Ex Ey].
    apply Z.eqb_eq in Ex, Ey, Ez. subst.
    apply elem_of_cons in Hin. destruct Hin as [[= -> ->] | Hin].
    + exists a0, a. apply list_get_Ok in Ha0. auto.
    + destruct a1. now apply IH.
Qed.

Lemma delta_zero (p q : Point) :
  point_in_range p -> point_in_range q -> delta p q = (0, 0, 0) -> p = q.
Proof.
  destruct p as [[x1 y1] z1], q as [[x2 y2] z2].
  intros (Hx1 & Hy1 & Hz1) (Hx2 & Hy2 & Hz2) [= Ex Ey Ez].
  apply sub_eq_0 in Ex, Ey, Ez; try assumption. congruence.
Qed.

(** What a successful run of the solver leaves. *)
Lemma orient_Ok (s1 s2 : Scanner) (iso : SubGraphIsomorphism) (s1' s2' : Scanner) :
  orient_02_to_01 s1 s2 iso = Ok (s1', s2') ->
  s1' = reset_translation (reset_rotation s1)
  /\ scans s2' = scans s2
  /\ is_Some (translation s2')
  /\ forall i1 i2, (i1, i2) ∈ iso_map iso ->
       exists p1 q, scans s1 !! i1 = Some p1 /\ get_scan s2' i2 = Ok q
                    /\ delta p1 q = (0, 0, 0).
Proof.
  intros H. unfold orient_02_to_01 in H. inv_Ok H. injection H as <- <-.
  destruct a4.
  pose proof (check_loop_Ok _ _ _ Ha4) as Hcheck.
  split; [reflexivity | split; [reflexivity | split; [ | exact Hcheck]]].
  destruct (iso_map iso) as [| [i1 i2] rest] eqn:E.
  - rewrite find_rotation_nil in Ha1. injection Ha1 as <-. discriminate.
  - destruct (Hcheck i1 i2) as (p1 & q & _ & Hq & _); [left | ].
    unfold get_scan in Hq. inv_Ok Hq.
    destruct (translation _); [eauto | discriminate].
Qed.

Lemma NoDup_snd_of_fst {K V} (l : list (K * V)) :
  NoDup l.*1 ->
  (forall a b a' b', (a, b) ∈ l -> (a', b') ∈ l -> b = b' -> a = a') ->
  NoDup l.*2.
Proof.
  induction l as [| [a b] l IH]; intros Hnd Hinj; csimpl; [constructor | ].
  csimpl in Hnd. apply NoDup_cons in Hnd. destruct Hnd as [Ha Hnd].
  apply NoDup_cons. split.
  - intros Hb. apply list_elem_of_fmap in Hb. destruct Hb as ([a' b'] & Eb & Hin).
    simpl in Eb. subst b'. apply Ha.
    rewrite (Hinj a b a' b); [ | left | now right | reflexivity].
    apply list_elem_of_fmap. exists (a', b). auto.
  - apply IH; [exact Hnd | ].
    intros x y x' y' H1 H2. apply Hinj; now right.
Qed.

(** The points of [TB] that are points of [A] are as many as the
    correspondences. *)
Lemma overlap_count (A TB : list Point) (items : dict) :
  NoDup TB -> NoDup A -> NoDup items.*1 ->
  (forall i1 i2, (i1, i2) ∈ items -> exists p, A !! i1 = Some p /\ TB !! i2 = Some p) ->
  (forall i2 p, TB !! i2 = Some p -> p ∈ A -> i2 ∈ items.*2) ->
  length (filter (fun q => q ∈ A) TB) = length items.
Proof.
  intros HTB HA Hkeys Hmap Hcov.
  assert (NoDup items.*2) as HV.
  { apply NoDup_snd_of_fst; [exact Hkeys | ].
    intros a b a' b' H1 H2 <-.
    destruct (Hmap _ _ H1) as (p & Hp1 & Hp2).
    destruct (Hmap _ _ H2) as (p' & Hp1' & Hp2').
    assert (p = p') as <- by congruence.
    exact (NoDup_lookup A a a' p HA Hp1 Hp1'). }
  assert (forall i2, i2 ∈ items.*2 ->
            exists p, TB !! i2 = Some p /\ p ∈ A) as Hval.
  { intros i2 Hi. apply list_elem_of_fmap in Hi. destruct Hi as ([i1 i2'] & E & Hin).
    simpl in E. subst i2'. destruct (Hmap _ _ Hin) as (p & Hp1 & Hp2).
    exists p. split; [exact Hp2 | eapply list_elem_of_lookup_2; eassumption]. }
  rewrite <- (length_fmap snd items), <- (length_fmap (fun i2 => TB !!! i2) items.*2).
  apply Permutation_length, NoDup_Permutation.
  - now apply NoDup_filter.
  - apply NoDup_fmap_2_strong; [ | exact HV].
    intros x y Hx Hy E.
    destruct (Hval x Hx) as (p & Hp & _). destruct (Hval y Hy) as (p' & Hp' & _).
    rewrite (list_lookup_total_correct _ _ _ Hp) in E.
    rewrite (list_lookup_total_correct _ _ _ Hp') in E. subst p'.
    exact (NoDup_lookup TB x y p HTB Hp Hp').
  - intros q. rewrite list_elem_of_filter, list_elem_of_fmap. split.
    + intros [HqA HqT]. apply list_elem_of_lookup in HqT. destruct HqT as [i2 Hi2].
      exists i2. split; [ | eapply Hcov; eassumption].
      symmetry. now apply list_lookup_total_correct.
    + intros (i2 & -> & Hi). destruct (Hval i2 Hi) as (p & Hp & HpA).
      rewrite (list_lookup_total_correct _ _ _ Hp).
      split; [exact HpA | eapply list_elem_of_lookup_2; eassumption].
Qed.

Lemma length_filter_complement {A} (P : A -> Prop) `{!forall x, Decision (P x)}
    (l : list A) :
  (length (filter P l) + length (filter (fun x => ~ P x) l) = length l)%nat.
Proof. now rewrite <- length_app, filter_app_complement. Qed.

Lemma length_transformed (s : Scanner) :
  is_Some (translation s) -> length (transformed s) = size s.
Proof. intros [t Ht]. unfold transformed, size. rewrite Ht. apply length_map. Qed.

(** C2 (amended). After the transform is solved, the merge appends to the
    reference scanner the images of the points of scanner02 that are not
    among its points. When the points of the reference scanner are pairwise
    distinct, the images of the points of scanner02 are pairwise distinct and
    every point of scanner02 whose image is a point of the reference scanner
    is a value of the map, the point count after the merge is
    [|A| + |B| - |map|]. *)
Theorem merge_size_law (s1 s2 : Scanner) (iso : SubGraphIsomorphism)
    (s1' s2' : Scanner) :
  orient_02_to_01 s1 s2 iso = Ok (s1', s2') ->
  Forall point_in_range (scans s1) ->
  NoDup (scans s1) ->
  NoDup (transformed s2') ->
  NoDup (iso_map iso).*1 ->
  covered s1 s2' (iso_map iso) ->
  exists s, merge_02_into_01 s1' s2' = Ok s
    /\ (size s + iso_size iso = size s1 + size s2)%nat.
Proof.
  intros Hor Hr HA HTB Hkeys Hcov.
  destruct (orient_Ok _ _ _ _ _ Hor) as (-> & Hsc & [t Ht] & Hcheck).
  assert (reference_frame (reset_translation (reset_rotation s1))) as Hs1
    by (repeat split; exact Hr).
  unfold merge_02_into_01.
  rewrite (get_scans_transformed s2' t Ht), bind_Ok_l.
  assert (Forall point_in_range (transformed s2')) as HrB.
  { unfold transformed. rewrite Ht. apply Forall_forall. intros q Hq.
    apply list_elem_of_fmap in Hq. destruct Hq as (p & -> & _).
    apply vec_add_in_range. }
  destruct (merge_loop_scans (sorted point_leb (transformed s2'))
              (reset_translation (reset_rotation s1)) Hs1) as (s & Hs & _ & Esc).
  { now rewrite sorted_Permutation. }
  { now rewrite sorted_Permutation. }
  rewrite Hs, bind_Ok_l. eexists. split; [reflexivity | ].
  unfold size, iso_size. rewrite build_graph_scans, length_sorted, Esc, length_app.
  simpl. rewrite sorted_Permutation.
  rewrite <- (overlap_count (scans s1) (transformed s2') (iso_map iso)); try assumption.
  - pose proof (length_filter_complement (fun q => q ∈ scans s1) (transformed s2')) as Hc.
    rewrite length_transformed in Hc by eauto. unfold size in Hc.
    rewrite Hsc in Hc. lia.
  - intros i1 i2 Hin. destruct (Hcheck i1 i2 Hin) as (p1 & q & Hp1 & Hq & Ed).
    exists p1. split; [exact Hp1 | ].
    apply transformed_lookup. rewrite Hq. f_equal. symmetry.
    apply delta_zero; [ | eapply get_scan_in_range; eassumption | exact Ed].
    rewrite Forall_lookup in Hr. eapply Hr; eassumption.
  - intros i2 p Hp. apply Hcov. now apply transformed_lookup.
Qed.

Lemma coveredb_covered (s1 s2 : Scanner) (items : dict) :
  coveredb s1 s2 items = true -> covered s1 s2 items.
Proof.
  unfold coveredb. rewrite forallb_forall. intros H i2 p Hp Hin.
  apply transformed_lookup, In_enumerate in Hp.
  specialize (H _ Hp). simpl in H.
  assert (existsb (point_eqb p) (scans s1) = true) as E.
  { apply existsb_exists. exists p.
    split; [now apply list_elem_of_In | now apply point_eqb_eq]. }
  rewrite E in H. simpl in H.
  apply existsb_exists in H. destruct H as (v & Hv & Ev).
  apply Nat.eqb_eq in Ev. subst. now apply list_elem_of_In.
Qed.

(** The claim C2 as it is written fails: the two scanners share thirteen
    points, the matcher returns a map of twelve of them, the solver succeeds,
    and the merge leaves 13 + 26 - 13 = 26 points, not 13 + 26 - 12; the
    assertion of line 357 stops the driver. *)
Lemma merge_size_law_fails :
  NoDup (scans decoy_first) /\ NoDup (scans decoy_second)
  /\ find_subgraph_isomorphism decoy_first decoy_second = Ok decoy_iso
  /\ iso_size decoy_iso = 12%nat
  /\ orient_02_to_01 decoy_first decoy_second decoy_iso = Ok decoy_oriented
  /\ merge_02_into_01 decoy_oriented.1 decoy_oriented.2 = Ok decoy_merged
  /\ size decoy_first = 13%nat /\ size decoy_second = 26%nat
  /\ size decoy_merged = 26%nat
  /\ driver_step (mkDriver decoy_first [decoy_second] [])
     = Raise (AssertionError 357).
Proof.
  split; [apply (bool_decide_unpack _); vm_compute; exact I | ].
  split; [apply (bool_decide_unpack _); vm_compute; exact I | ].
  do 7 (split; [vm_compute; reflexivity | ]).
  vm_compute. reflexivity.
Qed.

Lemma merge_size_law_witness :
  exists s, merge_02_into_01 scene_oriented.1 scene_oriented.2 = Ok s
    /\ (size s + iso_size scene_iso = size (scene_scanner 0) + size (scene_scanner 1))%nat.
Proof.
  apply (merge_size_law (scene_scanner 0) (scene_scanner 1) scene_iso).
  - vm_compute. reflexivity.
  - assert (load scene = Ok [scene_scanner 0; scene_scanner 1]) as Hload
      by (vm_compute; reflexivity).
    apply load_frame in Hload. exact (proj2 (proj2 (Forall_inv Hload))).
  - apply (bool_decide_unpack _). vm_compute. exact I.
  - apply (bool_decide_unpack _). vm_compute. exact I.
  - apply (bool_decide_unpack _). vm_compute. exact I.
  - apply coveredb_covered. vm_compute. reflexivity.
Defined.

(** ** The correspondence matcher *)

Lemma dict_set_elem (m : dict) (k0 v0 k v : nat) :
  (k, v) ∈ dict_set m k0 v0 -> (k, v) = (k0, v0) \/ (k, v) ∈ m.
Proof.
  induction m as [| [k' v'] m IH]; simpl.
  - intros H. apply list_elem_of_singleton in H. now left.
  - destruct (Nat.eqb_spec k' k0) as [-> | Hne]; intros H;
      apply elem_of_cons in H; destruct H as [H | H].
    + now left.
    + right. now right.
    + right. rewrite H. left.
    + destruct (IH H) as [E | Hin]; [now left | right; now right].
Qed.

Lemma dict_get_elem (m : dict) (k v : nat) : dict_get m k = Some v -> (k, v) ∈ m.
Proof.
  induction m as [| [k' v'] m IH]; simpl; [discriminate | ].
  destruct (Nat.eqb_spec k' k) as [-> | Hne].
  - intros [= ->]. left.
  - intros H. right. now apply IH.
Qed.

Section Matcher.
Context (s1 s2 : Scanner).
Hypothesis Hup1 : up_to_date s1.
Hypothesis Hup2 : up_to_date s2.

Lemma good_items_nil : good_items s1 s2 [].
Proof.
  split.
  - intros i1 i2 H. now apply elem_of_nil in H.
  - intros i1 i2 j1 j2 H. now apply elem_of_nil in H.
Qed.

Lemma good_items_add (items : dict) (j1 j2 : nat) :
  good_items s1 s2 items ->
  (j1 < size s1)%nat -> (j2 < size s2)%nat ->
  (forall i1 i2, (i1, i2) ∈ items ->
     graph_entry (scans s1) i1 j1 = graph_entry (scans s2) i2 j2) ->
  good_items s1 s2 (dict_set items j1 j2).
Proof.
  intros [Hv Hc] Hj1 Hj2 Hnew. split.
  - intros i1 i2 H. apply dict_set_elem in H.
    destruct H as [[= -> ->] | H]; [auto | now apply Hv].
  - intros a a2 b b2 Ha Hb. apply dict_set_elem in Ha, Hb.
    destruct Ha as [[= -> ->] | Ha], Hb as [[= -> ->] | Hb].
    + now rewrite !graph_entry_diag.
    + rewrite graph_entry_sym, (graph_entry_sym (scans s2)). now apply Hnew.
    + now apply Hnew.
    + now apply Hc.
Qed.

Lemma test_edge_loop_spec (j1 j2 : nat) (items : dict) :
  valid_items s1 s2 items ->
  (j1 < size s1)%nat -> (j2 < size s2)%nat ->
  exists b, test_edge_loop (graph s1) (graph s2) j1 j2 items = Ok b
    /\ (b = true ->
        forall i1 i2, (i1, i2) ∈ items ->
          graph_entry (scans s1) i1 j1 = graph_entry (scans s2) i2 j2).
Proof.
  intros Hv Hj1 Hj2. induction items as [| [i1 i2] rest IH]; simpl.
  - exists true. split; [reflexivity | ].
    intros _ a b H. now apply elem_of_nil in H.
  - destruct (Hv i1 i2) as [Hi1 Hi2]; [left | ].
    rewrite (up_to_date_graph s1 i1 j1 Hup1 Hi1 Hj1).
    rewrite (up_to_date_graph s2 i2 j2 Hup2 Hi2 Hj2). simpl.
    destruct (Z.eqb_spec (graph_entry (scans s1) i1 j1) (graph_entry (scans s2) i2 j2))
      as [E | Hne]; simpl.
    + destruct IH as (b & Hb & Hall).
      { intros a a2 H. apply Hv. now right. }
      exists b. split; [exact Hb | ].
      intros Hbt a a2 H. apply elem_of_cons in H.
      destruct H as [[= -> ->] | H]; [exact E | now apply Hall].
    + exists false. split; [reflexivity | discriminate].
Qed.

Lemma good_map_add (m : SubGraphIsomorphism) (j1 j2 : nat) :
  good_map s1 s2 m ->
  (j1 < size s1)%nat -> (j2 < size s2)%nat ->
  (forall i1 i2, (i1, i2) ∈ iso_map m ->
     graph_entry (scans s1) i1 j1 = graph_entry (scans s2) i2 j2) ->
  good_map s1 s2 (add m j1 j2).
Proof.
  intros (E1 & E2 & Hg) Hj1 Hj2 Hnew. unfold add, good_map. simpl.
  split; [assumption | split; [assumption | now apply good_items_add]].
Qed.

Lemma test_edge_addition_spec (m : SubGraphIsomorphism) (j1 j2 : nat) :
  good_map s1 s2 m ->
  (j1 < size s1)%nat -> (j2 < size s2)%nat ->
  exists b, test_edge_addition m j1 j2 = Ok b
    /\ (b = true -> good_map s1 s2 (add m j1 j2)).
Proof.
  intros Hm Hj1 Hj2. pose proof Hm as (E1 & E2 & Hv & Hc).
  unfold test_edge_addition.
  destruct (dict_get (iso_map m) j1) as [v | ] eqn:Eg.
  - eexists. split; [reflexivity | ].
    intros Hb. apply Nat.eqb_eq in Hb. subst v. apply dict_get_elem in Eg.
    apply good_map_add; try assumption.
    intros i1 i2 Hin. now apply Hc.
  - rewrite E1, E2.
    destruct (test_edge_loop_spec j1 j2 (iso_map m) Hv Hj1 Hj2) as (b & Hb & Hall).
    exists b. split; [exact Hb | ].
    intros Hbt. apply good_map_add; try assumption. now apply Hall.
Qed.

Lemma extend_spec (m : SubGraphIsomorphism) (a a2 b b2 : nat) :
  good_map s1 s2 m ->
  (a < size s1)%nat -> (a2 < size s2)%nat ->
  (b < size s1)%nat -> (b2 < size s2)%nat ->
  exists r, extend m a a2 b b2 = Ok r
    /\ forall m', r = Some m' -> good_map s1 s2 m'.
Proof.
  intros Hm Ha Ha2 Hb Hb2. unfold extend.
  destruct (test_edge_addition_spec m a a2 Hm Ha Ha2) as (t1 & -> & H1).
  rewrite bind_Ok_l. destruct t1.
  - specialize (H1 eq_refl).
    destruct (test_edge_addition_spec (add m a a2) b b2 H1 Hb Hb2) as (t2 & -> & H2).
    rewrite bind_Ok_l. destruct t2.
    + eexists. split; [reflexivity | ]. intros m' [= <-]. now apply H2.
    + eexists. split; [reflexivity | ]. discriminate.
  - eexists. split; [reflexivity | ]. discriminate.
Qed.

Lemma keep_good (st : list SubGraphIsomorphism * bool) (r : option SubGraphIsomorphism) :
  Forall (good_map s1 s2) st.1 ->
  (forall m', r = Some m' -> good_map s1 s2 m') ->
  Forall (good_map s1 s2) (keep st r).1.
Proof.
  intros Hst Hr. destruct r as [m' | ]; simpl; [ | assumption].
  apply Forall_app. split; [assumption | ]. constructor; [now apply Hr | constructor].
Qed.

Lemma try_map_spec (i01 j01 i02 j02 : nat) (st : list SubGraphIsomorphism * bool)
    (map : SubGraphIsomorphism) :
  (i01 < size s1)%nat -> (j01 < size s1)%nat ->
  (i02 < size s2)%nat -> (j02 < size s2)%nat ->
  Forall (good_map s1 s2) st.1 -> good_map s1 s2 map ->
  exists st', try_map i01 j01 i02 j02 st map = Ok st'
    /\ Forall (good_map s1 s2) st'.1.
Proof.
  intros Hi1 Hj1 Hi2 Hj2 Hst Hm. unfold try_map. cbv zeta.
  assert (forall (c : bool) st0, Forall (good_map s1 s2) st0.1 ->
            Forall (good_map s1 s2)
              (if c then (st0.1 ++ [map], true) else st0).1) as Hkeep.
  { intros c st0 H0. destruct c; simpl; [ | assumption].
    apply Forall_app. split; [assumption | ].
    constructor; [exact Hm | constructor]. }
  pose proof (Hkeep (opt_is (get_map map i01) i02 && opt_is (get_map map j01) j02)
                st Hst) as H1.
  set (st1 := if opt_is (get_map map i01) i02 && opt_is (get_map map j01) j02
              then (st.1 ++ [map], true) else st) in *.
  pose proof (Hkeep (opt_is (get_map map i01) j02 && opt_is (get_map map j01) i02)
                st1 H1) as H2.
  set (st2 := if opt_is (get_map map i01) j02 && opt_is (get_map map j01) i02
              then (st1.1 ++ [map], true) else st1) in *.
  clearbody st2. clear st1 H1 Hkeep.
  assert (exists st3,
            (if is_None (get_map map i01) || is_None (get_map map j01) then
               r1 ← extend map i01 i02 j01 j02;
               r2 ← extend map i01 j02 j01 i02;
               Ok (keep (keep st2 r1) r2)
             else Ok st2) = Ok st3
            /\ Forall (good_map s1 s2) st3.1) as (st3 & -> & H3).
  { destruct (_ || _); [ | eauto].
    destruct (extend_spec map i01 i02 j01 j02 Hm Hi1 Hi2 Hj1 Hj2) as (r1 & -> & Hr1).
    rewrite bind_Ok_l.
    destruct (extend_spec map i01 j02 j01 i02 Hm Hi1 Hj2 Hj1 Hi2) as (r2 & -> & Hr2).
    rewrite bind_Ok_l. eexists. split; [reflexivity | ].
    apply keep_good; [now apply keep_good | assumption]. }
  rewrite bind_Ok_l. destruct st3 as [new_maps mapped]. simpl in H3.
  destruct mapped; eexists; (split; [reflexivity | ]); simpl; [assumption | ].
  apply Forall_app. split; [assumption | ].
  constructor; [exact Hm | constructor].
Qed.

Lemma good_map_seed (i01 j01 i02 j02 : nat) :
  (i01 < size s1)%nat -> (j01 < size s1)%nat ->
  (i02 < size s2)%nat -> (j02 < size s2)%nat ->
  graph_entry (scans s1) i01 j01 = graph_entry (scans s2) i02 j02 ->
  good_map s1 s2 (add (add (SubGraphIsomorphism_init s1 s2) i01 i02) j01 j02).
Proof.
  intros Hi1 Hj1 Hi2 Hj2 E.
  apply good_map_add; try assumption.
  - apply good_map_add; try assumption.
    + split; [reflexivity | split; [reflexivity | apply good_items_nil]].
    + intros a b H. now apply elem_of_nil in H.
  - intros a b H. simpl in H. apply list_elem_of_singleton in H.
    injection H as -> ->. exact E.
Qed.

Lemma process_edge_pair_spec (maps : list SubGraphIsomorphism) (e1 e2 : Edge) :
  good_edge s1 e1 -> good_edge s2 e2 -> weight e1 = weight e2 ->
  Forall (good_map s1 s2) maps ->
  exists maps', process_edge_pair s1 s2 maps (e1, e2) = Ok maps'
    /\ Forall (good_map s1 s2) maps'.
Proof.
  intros (Hi1 & Hj1 & Ew1) (Hi2 & Hj2 & Ew2) Ew Hmaps. unfold process_edge_pair.
  destruct (foldM_invariant
              (fun st : list SubGraphIsomorphism * bool => Forall (good_map s1 s2) st.1)
              (good_map s1 s2)
              (try_map (edge_i e1) (edge_j e1) (edge_i e2) (edge_j e2)))
    with (l := reverse maps) (a := (@nil SubGraphIsomorphism, false))
    as ([new_maps mapped] & -> & Hnew).
  - intros st m Hst Hm. now apply try_map_spec.
  - constructor.
  - now rewrite reverse_Permutation.
  - rewrite bind_Ok_l. simpl in Hnew.
    destruct mapped; eexists; (split; [reflexivity | ]); [assumption | ].
    assert (graph_entry (scans s1) (edge_i e1) (edge_j e1)
            = graph_entry (scans s2) (edge_i e2) (edge_j e2)) as E by congruence.
    constructor; [now apply good_map_seed | ].
    apply Forall_app. split; [assumption | ].
    constructor; [ | constructor].
    apply good_map_seed; try assumption.
    now rewrite (graph_entry_sym (scans s2)).
Qed.

Lemma largest_good (maps : list SubGraphIsomorphism) :
  Forall (good_map s1 s2) maps -> good_map s1 s2 (largest maps s1 s2).
Proof.
  intros H. unfold largest. destruct maps as [| first others].
  - split; [reflexivity | split; [reflexivity | apply good_items_nil]].
  - inversion H as [| ? ? Hf Ho]; subst. clear H.
    revert first Hf. induction Ho as [| m others Hm _ IH]; intros first Hf; simpl.
    + assumption.
    + apply IH. now destruct (_ <? _)%nat.
Qed.

Lemma good_edge_sorted (s : Scanner) (es : list Edge) (e : Edge) :
  up_to_date s -> unique_edges_by_weight s = Some es -> e ∈ es -> good_edge s e.
Proof.
  intros Hup Ees He.
  destruct (up_to_date_edges s Hup) as (es' & E' & _ & Hperm).
  rewrite Ees in E'. injection E' as <-.
  rewrite Hperm in He. apply list_elem_of_In, In_all_edges in He.
  unfold good_edge, size. intuition lia.
Qed.

Lemma first_matches_elem (es1 es2 : list Edge) (e1 e2 : Edge) :
  (e1, e2) ∈ first_matches es1 es2 ->
  e1 ∈ es1 /\ e2 ∈ es2 /\ weight e1 = weight e2.
Proof.
  unfold first_matches. rewrite list_elem_of_omap.
  intros (x & Hx & Hf).
  destruct (first_with_weight (weight x) es2) as [y | ] eqn:Ef; [ | discriminate].
  injection Hf as <- <-.
  apply find_some in Ef. destruct Ef as [Hin Ew]. apply Z.eqb_eq in Ew.
  split; [assumption | split; [now apply list_elem_of_In | now symmetry]].
Qed.

Lemma good_map_consistent (m : SubGraphIsomorphism) :
  good_map s1 s2 m -> consistent s1 s2 (iso_map m).
Proof.
  intros (_ & _ & Hv & Hc) i1 i2 j1 j2 Hi Hj.
  destruct (Hv _ _ Hi) as [Hi1 Hi2]. destruct (Hv _ _ Hj) as [Hj1 Hj2].
  exists (graph_entry (scans s1) i1 j1). split.
  - now apply up_to_date_graph.
  - rewrite (Hc _ _ _ _ Hi Hj). now apply up_to_date_graph.
Qed.

Lemma find_subgraph_isomorphism_good :
  unique_edges_by_weight s2 <> Some [] ->
  exists m, find_subgraph_isomorphism s1 s2 = Ok m /\ good_map s1 s2 m.
Proof.
  intros Hne.
  destruct (up_to_date_edges s1 Hup1) as (es1 & E1 & Hs1 & _).
  destruct (up_to_date_edges s2 Hup2) as (es2 & E2 & Hs2 & _).
  unfold find_subgraph_isomorphism.
  assert (matched_edges s1 s2 = Ok (first_matches es1 es2)) as ->.
  { unfold matched_edges. rewrite E2, E1.
    destruct es2 as [| e2 after]; [now contradiction Hne | ].
    now rewrite (match_edges_spec es1 e2 after)
      by (now apply Sorted_StronglySorted; [apply _ | ]). }
  rewrite bind_Ok_l.
  destruct (foldM_invariant (Forall (good_map s1 s2))
              (fun p : Edge * Edge =>
                 good_edge s1 p.1 /\ good_edge s2 p.2 /\ weight p.1 = weight p.2)
              (process_edge_pair s1 s2))
    with (l := first_matches es1 es2) (a := @nil SubGraphIsomorphism)
    as (maps & -> & Hmaps).
  - intros maps [e1 e2] Hm (H1 & H2 & Ew). now apply process_edge_pair_spec.
  - constructor.
  - apply Forall_forall. intros [e1 e2] Hin.
    apply first_matches_elem in Hin. destruct Hin as (H1 & H2 & Ew).
    simpl. split; [ | split; [ | exact Ew]].
    + eapply good_edge_sorted; eassumption.
    + eapply good_edge_sorted; eassumption.
  - rewrite bind_Ok_l. eexists. split; [reflexivity | now apply largest_good].
Qed.
End Matcher.

(** C3. For two scanners with up-to-date graphs the matcher returns, unless
    scanner02 has no edge, and the map it returns is consistent: the graph
    of scanner01 at two mapped indices and the graph of scanner02 at their
    images hold the same entry. *)
Theorem matcher_map_consistent (s1 s2 : Scanner) :
  up_to_date s1 -> up_to_date s2 ->
  (forall m, find_subgraph_isomorphism s1 s2 = Ok m -> consistent s1 s2 (iso_map m))
  /\ (unique_edges_by_weight s2 <> Some [] ->
      exists m, find_subgraph_isomorphism s1 s2 = Ok m).
Proof.
  intros Hup1 Hup2. split.
  - intros m Hm.
    assert (unique_edges_by_weight s2 <> Some []) as Hne.
    { intros E. unfold find_subgraph_isomorphism, matched_edges in Hm.
      rewrite E in Hm. discriminate. }
    destruct (find_subgraph_isomorphism_good s1 s2 Hup1 Hup2 Hne) as (m' & Hm' & Hg).
    rewrite Hm in Hm'. injection Hm' as <-.
    now apply (good_map_consistent s1 s2 Hup1 Hup2).
  - intros Hne.
    destruct (find_subgraph_isomorphism_good s1 s2 Hup1 Hup2 Hne) as (m & Hm & _).
    eauto.
Qed.

Lemma matcher_map_consistent_witness :
  consistent (scene_scanner 0) (scene_scanner 1) (iso_map scene_iso)
  /\ exists m, find_subgraph_isomorphism (scene_scanner 0) (scene_scanner 1) = Ok m.
Proof.
  destruct (matcher_map_consistent (scene_scanner 0) (scene_scanner 1)) as [H1 H2].
  - unfold up_to_date. cbv zeta. split; vm_compute; reflexivity.
  - unfold up_to_date. cbv zeta. split; vm_compute; reflexivity.
  - split.
    + apply H1. vm_compute. reflexivity.
    + apply H2. vm_compute. discriminate.
Defined.

(** * Further properties of the program *)

(** ** Distances *)

(** X1. The squared distance does not depend on the order of the two points
    and is zero from a point to itself, with the 64-bit wrap-around of every
    operation. *)
Theorem squared_distance_symmetric (p q : Point) :
  squared_distance p q = squared_distance q p /\ squared_distance p p = 0.
Proof.
  split; [ | apply squared_distance_same].
  destruct p as [[x1 y1] z1], q as [[x2 y2] z2].
  unfold squared_distance, delta. eqm_ring.
Qed.

Lemma abs_sub_sym (a b : Z) : Int64.abs (Int64.sub a b) = Int64.abs (Int64.sub b a).
Proof.
  assert (Int64.sub b a = Int64.neg (Int64.sub a b)) as -> by eqm_ring.
  symmetry. apply abs_neg, wrap_in_range.
Qed.

(** X2. The Manhattan distance does not depend on the order of the two
    points, also when a difference overflows, and is zero from a point to
    itself. *)
Theorem manhatan_distance_symmetric (p q : Point) :
  manhatan_distance p q = manhatan_distance q p /\ manhatan_distance p p = 0.
Proof.
  split.
  - destruct p as [[x1 y1] z1], q as [[x2 y2] z2].
    unfold manhatan_distance, delta.
    now rewrite (abs_sub_sym x2 x1), (abs_sub_sym y2 y1), (abs_sub_sym z2 z1).
  - unfold manhatan_distance. now rewrite delta_same.
Qed.

(** ** Scanners *)

(** X4. [get_scans] returns the points of the scanner under its rotation and
    translation, all of them and each as often as it occurs, in ascending
    lexicographic order; a scanner without points gives the empty list even
    when its translation is [None]. *)
Theorem get_scans_sorted (s : Scanner) :
  (is_Some (translation s) ->
   exists l, get_scans s = Ok l
     /\ l ≡ₚ transformed s /\ Sorted point_le l /\ length l = size s)
  /\ (scans s = [] -> get_scans s = Ok []).
Proof.
  split.
  - intros [t Ht]. exists (sorted point_leb (transformed s)).
    split; [exact (get_scans_transformed s t Ht) | ].
    split; [apply sorted_Permutation | ].
    split; [apply sorted_Sorted, point_leb_total | ].
    rewrite length_sorted. apply length_transformed. eauto.
  - intros E. unfold get_scans. now rewrite E.
Qed.

(** ** The graph and the edges of [build_graph] *)

Lemma graph_get_out_of_range (N : nat) (g : list (list Z)) (a b : nat) :
  dims N g -> (N <= a)%nat \/ (N <= b)%nat -> graph_get (Some g) a b = Raise IndexError.
Proof.
  intros [Hl Hr] H. unfold graph_get, list_get.
  destruct (g !! a) as [row | ] eqn:Ea; simpl; [ | reflexivity].
  assert (length row = N) as Hrow
    by (rewrite Forall_lookup in Hr; eapply Hr; eassumption).
  apply lookup_lt_Some in Ea.
  destruct H as [H | H]; [lia | ].
  now rewrite (proj2 (lookup_ge_None row b)) by lia.
Qed.

Lemma build_graph_graph_eq (s : Scanner) :
  graph (build_graph s)
  = Some (build_graph_loops (size s) (sorted point_leb (scans s))).1.
Proof.
  unfold build_graph, size.
  now destruct (build_graph_loops (length (scans s)) (sorted point_leb (scans s))).
Qed.

(** X6. After [build_graph] the graph is a square matrix over the indices of
    the (sorted) points: the entry at two indices is the squared distance of
    the two points, so the matrix is symmetric with a diagonal of zeros, and
    an index that is not an index of a point raises [IndexError]. *)
Theorem build_graph_graph (s : Scanner) :
  size (build_graph s) = size s
  /\ (forall a b p q,
        scans (build_graph s) !! a = Some p -> scans (build_graph s) !! b = Some q ->
        graph_get (graph (build_graph s)) a b = Ok (squared_distance p q)
        /\ graph_get (graph (build_graph s)) b a = Ok (squared_distance p q))
  /\ (forall a p, scans (build_graph s) !! a = Some p ->
        graph_get (graph (build_graph s)) a a = Ok 0)
  /\ (forall a b, (size s <= a)%nat \/ (size s <= b)%nat ->
        graph_get (graph (build_graph s)) a b = Raise IndexError).
Proof.
  assert (size (build_graph s) = size s) as Hsize
    by (unfold size; rewrite build_graph_scans; apply length_sorted).
  pose proof (build_graph_up_to_date s) as Hup.
  assert (forall a b p q,
            scans (build_graph s) !! a = Some p -> scans (build_graph s) !! b = Some q ->
            graph_get (graph (build_graph s)) a b = Ok (squared_distance p q)) as Hentry.
  { intros a b p q Ha Hb.
    rewrite (up_to_date_graph _ a b Hup)
      by (unfold size; eapply lookup_lt_Some; eassumption).
    f_equal. destruct (Nat.le_ge_cases a b) as [Hab | Hab].
    - now apply graph_entry_le.
    - rewrite graph_entry_sym, (graph_entry_le _ b a q p) by assumption.
      apply squared_distance_symmetric. }
  split; [exact Hsize | split; [ | split]].
  - intros a b p q Ha Hb. split; [now apply Hentry | ].
    rewrite (Hentry b a q p Hb Ha). f_equal. apply squared_distance_symmetric.
  - intros a p Ha. rewrite (Hentry a a p p Ha Ha). f_equal. apply squared_distance_same.
  - intros a b H. rewrite build_graph_graph_eq.
    apply (graph_get_out_of_range (size s)); [ | exact H].
    unfold size. rewrite <- (length_sorted point_leb (scans s)).
    apply build_graph_loops_dims.
Qed.

Lemma flat_map_bind {A B} (f : A -> list B) (l : list A) : flat_map f l = l ≫= f.
Proof. induction l as [| x l IH]; [reflexivity | ]. simpl. now rewrite IH. Qed.

Lemma NoDup_enumerate {A} (l : list A) : NoDup (enumerate l).
Proof.
  apply NoDup_alt. intros i j [k x] Hi Hj. unfold enumerate in *.
  rewrite list_lookup_imap in Hi, Hj.
  destruct (l !! i); simpl in Hi; [ | discriminate].
  destruct (l !! j); simpl in Hj; [ | discriminate].
  congruence.
Qed.

Lemma NoDup_row_cells (pts : list Point) (r : nat * Point) : NoDup (row_cells pts r).
Proof.
  apply NoDup_alt. intros a b [[i j] d] Ha Hb. unfold row_cells, enumerate in *.
  change (map ?f ?l) with (f <$> l) in Ha, Hb.
  rewrite list_lookup_fmap, lookup_drop, list_lookup_imap in Ha, Hb.
  destruct (pts !! (r.1 + a)%nat); simpl in Ha; [ | discriminate].
  destruct (pts !! (r.1 + b)%nat); simpl in Hb; [ | discriminate].
  unfold cell_of in Ha, Hb. simpl in Ha, Hb.
  injection Ha as _ Ha _. injection Hb as _ Hb _. lia.
Qed.

Lemma NoDup_all_cells (pts : list Point) : NoDup (all_cells pts).
Proof.
  unfold all_cells. rewrite flat_map_bind. apply NoDup_bind.
  - intros [i p] [i' p'] [[a b] d] Hin Hin' Hc Hc'.
    unfold row_cells in Hc, Hc'.
    apply list_elem_of_In, in_map_iff in Hc. destruct Hc as (c & Ec & _).
    apply list_elem_of_In, in_map_iff in Hc'. destruct Hc' as (c' & Ec' & _).
    unfold cell_of in Ec, Ec'. simpl in Ec, Ec'.
    injection Ec as -> _ _. injection Ec' as -> _ _.
    apply list_elem_of_In, In_enumerate in Hin, Hin'. congruence.
  - intros r _. apply NoDup_row_cells.
  - apply NoDup_enumerate.
Qed.

Lemma NoDup_all_edges (pts : list Point) : NoDup (all_edges pts).
Proof.
  unfold all_edges. rewrite flat_map_bind. apply NoDup_bind.
  - intros [[i j] d] [[i' j'] d'] e _ _ He He'. simpl in He, He'.
    destruct (0 <? d); [ | now apply elem_of_nil in He].
    destruct (0 <? d'); [ | now apply elem_of_nil in He'].
    apply list_elem_of_singleton in He, He'. congruence.
  - intros [[i j] d] _. simpl. destruct (0 <? d); [apply NoDup_singleton | constructor].
  - apply NoDup_all_cells.
Qed.

Lemma In_all_edges_iff (pts : list Point) (e : Edge) :
  In e (all_edges pts) <->
  (edge_i e < edge_j e)%nat /\ (edge_j e < length pts)%nat
  /\ weight e = graph_entry pts (edge_i e) (edge_j e) /\ 0 < weight e.
Proof.
  split; [apply In_all_edges | ].
  destruct e as [i j w]. simpl. intros (Hij & Hj & -> & Hw).
  destruct (lookup_lt_is_Some_2 pts i) as [p Hp]; [lia | ].
  destruct (lookup_lt_is_Some_2 pts j) as [q Hq]; [lia | ].
  rewrite (graph_entry_le pts i j p q) in * by (assumption || lia).
  unfold all_edges. apply in_flat_map.
  exists (i, j, squared_distance p q). split.
  - apply In_all_cells. exists i, j, p, q. repeat split; [assumption | assumption | lia].
  - simpl. apply Z.ltb_lt in Hw. rewrite Hw. now left.
Qed.

(** X7. After [build_graph] the edge list is sorted by ascending weight, has
    no edge twice, and holds exactly the edges [(i, j, w)] with [i < j] indices
    of points and [w] their positive graph entry: each pair of points at a
    non-zero squared distance gives one edge, a pair at distance zero none. *)
Theorem build_graph_edge_list (s : Scanner) :
  exists es,
    unique_edges_by_weight (build_graph s) = Some es
    /\ Sorted weight_le es
    /\ NoDup es
    /\ forall e, e ∈ es <->
         (edge_i e < edge_j e)%nat /\ (edge_j e < size s)%nat
         /\ 0 < weight e
         /\ graph_get (graph (build_graph s)) (edge_i e) (edge_j e) = Ok (weight e).
Proof.
  pose proof (build_graph_up_to_date s) as Hup.
  assert (size (build_graph s) = size s) as Hsize
    by (unfold size; rewrite build_graph_scans; apply length_sorted).
  destruct (up_to_date_edges _ Hup) as (es & E & Hsorted & Hperm).
  exists es. split; [exact E | split; [exact Hsorted | split]].
  - rewrite Hperm. apply NoDup_all_edges.
  - intros e. rewrite Hperm, list_elem_of_In, In_all_edges_iff.
    fold (size (build_graph s)). rewrite Hsize. split.
    + intros (Hij & Hj & Ew & Hw). repeat split; try assumption.
      rewrite (up_to_date_graph _ _ _ Hup) by lia. now rewrite Ew.
    + intros (Hij & Hj & Hw & Eg). repeat split; try assumption.
      rewrite (up_to_date_graph _ _ _ Hup) in Eg by lia. now injection Eg as <-.
Qed.

(** X8. [build_graph] is idempotent: building the graph of a scanner whose
    graph is built changes nothing. *)
Theorem build_graph_idempotent (s : Scanner) :
  build_graph (build_graph s) = build_graph s.
Proof.
  unfold build_graph at 1.
  rewrite build_graph_scans, length_sorted.
  rewrite (sorted_id point_leb (sorted point_leb (scans s)))
    by (apply sorted_Sorted, point_leb_total).
  destruct (build_graph_transform s) as (-> & -> & ->).
  reflexivity.
Qed.

(** ** The correspondence map and the matcher *)

Lemma dict_get_set_same (m : dict) (k v : nat) : dict_get (dict_set m k v) k = Some v.
Proof.
  induction m as [| [k' v'] m IH]; simpl.
  - now rewrite Nat.eqb_refl.
  - destruct (Nat.eqb_spec k' k) as [-> | Hne]; simpl.
    + now rewrite Nat.eqb_refl.
    + now rewrite (proj2 (Nat.eqb_neq k' k) Hne).
Qed.

Lemma dict_get_set_other (m : dict) (k v k' : nat) :
  k' <> k -> dict_get (dict_set m k v) k' = dict_get m k'.
Proof.
  intros Hne. induction m as [| [k0 v0] m IH]; simpl.
  - now rewrite (proj2 (Nat.eqb_neq k k') (not_eq_sym Hne)).
  - destruct (Nat.eqb_spec k0 k) as [-> | Hne0]; simpl.
    + now rewrite (proj2 (Nat.eqb_neq k k') (not_eq_sym Hne)).
    + now rewrite IH.
Qed.

Lemma dict_get_None (m : dict) (k : nat) : dict_get m k = None <-> k ∉ m.*1.
Proof.
  induction m as [| [k' v'] m IH]; simpl.
  - split; [intros _; apply not_elem_of_nil | reflexivity].
  - rewrite not_elem_of_cons. destruct (Nat.eqb_spec k' k) as [-> | Hne].
    + split; [discriminate | intros [H _]; now contradiction H].
    + rewrite IH. split; [intros H; split; [congruence | exact H] | now intros [_ H]].
Qed.

Lemma dict_set_keys (m : dict) (k v : nat) :
  (dict_set m k v).*1
  = match dict_get m k with Some _ => m.*1 | None => m.*1 ++ [k] end.
Proof.
  induction m as [| [k' v'] m IH]; [reflexivity | ].
  cbn [dict_set dict_get].
  destruct (Nat.eqb_spec k' k) as [-> | Hne]; rewrite !fmap_cons; [reflexivity | ].
  rewrite IH. now destruct (dict_get m k).
Qed.

Lemma dict_set_NoDup (m : dict) (k v : nat) : NoDup m.*1 -> NoDup (dict_set m k v).*1.
Proof.
  intros H. rewrite dict_set_keys. destruct (dict_get m k) eqn:E; [exact H | ].
  apply NoDup_app. split; [exact H | split; [ | apply NoDup_singleton]].
  intros x Hx Hk. apply list_elem_of_singleton in Hk. subst x.
  now apply dict_get_None in E.
Qed.

Lemma dict_set_length (m : dict) (k v : nat) :
  length (dict_set m k v)
  = match dict_get m k with Some _ => length m | None => S (length m) end.
Proof.
  rewrite <- (length_fmap fst (dict_set m k v)), dict_set_keys.
  destruct (dict_get m k); rewrite ?length_app, length_fmap; simpl; lia.
Qed.

(** X9. [add] then [get_map]: the key added maps to the value added, every
    other key is as before, the size grows by one exactly when the key is new,
    the keys stay distinct, and the scanners of the map are untouched; a new
    map has no key. *)
Theorem add_get_map (m : SubGraphIsomorphism) (k v : nat) :
  get_map (add m k v) k = Some v
  /\ (forall k', k' <> k -> get_map (add m k v) k' = get_map m k')
  /\ iso_size (add m k v)
     = match get_map m k with Some _ => iso_size m | None => S (iso_size m) end
  /\ (NoDup (iso_map m).*1 -> NoDup (iso_map (add m k v)).*1)
  /\ scanner01 (add m k v) = scanner01 m
  /\ scanner02 (add m k v) = scanner02 m
  /\ (forall s1 s2, get_map (SubGraphIsomorphism_init s1 s2) k = None).
Proof.
  unfold get_map, add, iso_size. simpl.
  split; [apply dict_get_set_same | ].
  split; [intros k'; apply dict_get_set_other | ].
  split; [apply dict_set_length | ].
  split; [apply dict_set_NoDup | ].
  repeat split.
Qed.

(** X10. On scanners whose graphs are built and a map over their points,
    [test_edge_addition] returns and decides: for a key of the map, whether
    the value asked for is the value held; for a new key, whether every
    correspondence of the map is at the same graph distance from the new pair
    on both sides. *)
Theorem test_edge_addition_decides (m : SubGraphIsomorphism) (j1 j2 : nat) :
  up_to_date (scanner01 m) -> up_to_date (scanner02 m) ->
  valid_items (scanner01 m) (scanner02 m) (iso_map m) ->
  (j1 < size (scanner01 m))%nat -> (j2 < size (scanner02 m))%nat ->
  exists b, test_edge_addition m j1 j2 = Ok b
    /\ (b = true <->
        match get_map m j1 with
        | Some v => v = j2
        | None =>
            forall i1 i2, (i1, i2) ∈ iso_map m ->
              graph_get (graph (scanner01 m)) i1 j1
              = graph_get (graph (scanner02 m)) i2 j2
        end).
Proof.
  intros Hup1 Hup2 Hv Hj1 Hj2. unfold test_edge_addition, get_map.
  destruct (dict_get (iso_map m) j1) as [v | ].
  - exists (v =? j2)%nat. split; [reflexivity | apply Nat.eqb_eq].
  - induction (iso_map m) as [| [i1 i2] rest IH]; cbn [test_edge_loop].
    + exists true. split; [reflexivity | ].
      split; [intros _ a b H; now apply elem_of_nil in H | reflexivity].
    + destruct (Hv i1 i2) as [Hi1 Hi2]; [left | ].
      destruct IH as (b & Hb & Hiff); [intros a a2 H; apply Hv; now right | ].
      rewrite (up_to_date_graph _ i1 j1 Hup1 Hi1 Hj1).
      rewrite (up_to_date_graph _ i2 j2 Hup2 Hi2 Hj2).
      rewrite !bind_Ok_l.
      destruct (Z.eqb_spec (graph_entry (scans (scanner01 m)) i1 j1)
                           (graph_entry (scans (scanner02 m)) i2 j2)) as [E | Hne];
        cbn [negb].
      * exists b. split; [exact Hb | ]. rewrite Hiff. split.
        -- intros Hall a a2 H. apply elem_of_cons in H.
           destruct H as [[= -> ->] | H]; [ | now apply Hall].
           rewrite (up_to_date_graph _ i1 j1 Hup1 Hi1 Hj1).
           rewrite (up_to_date_graph _ i2 j2 Hup2 Hi2 Hj2). now rewrite E.
        -- intros Hall a a2 H. apply Hall. now right.
      * exists false. split; [reflexivity | ]. split; [discriminate | ].
        intros Hall. exfalso. apply Hne.
        assert ((i1, i2) ∈ (i1, i2) :: rest) as Hin by left.
        specialize (Hall i1 i2 Hin).
        rewrite (up_to_date_graph _ i1 j1 Hup1 Hi1 Hj1) in Hall.
        rewrite (up_to_date_graph _ i2 j2 Hup2 Hi2 Hj2) in Hall.
        now injection Hall.
Qed.

Lemma test_edge_addition_decides_witness :
  exists b, test_edge_addition same_iso 1 0 = Ok b
    /\ (b = true <->
        match get_map same_iso 1 with
        | Some v => v = 0%nat
        | None =>
            forall i1 i2, (i1, i2) ∈ iso_map same_iso ->
              graph_get (graph (scanner01 same_iso)) i1 1
              = graph_get (graph (scanner02 same_iso)) i2 0
        end).
Proof.
  apply (test_edge_addition_decides same_iso 1 0).
  - unfold up_to_date. cbv zeta. split; vm_compute; reflexivity.
  - unfold up_to_date. cbv zeta. split; vm_compute; reflexivity.
  - intros i1 i2 H. vm_compute in H.
    apply elem_of_cons in H. destruct H as [[= -> ->] | H]; [vm_compute; lia | ].
    apply list_elem_of_singleton in H. injection H as -> ->. vm_compute. lia.
  - vm_compute. lia.
  - vm_compute. lia.
Defined.

(** *** Invariants of the candidate maps *)

Lemma advance_elem (w : Z) (e : Edge) (after : list Edge) (e' : Edge) (after' : list Edge) :
  advance w e after = (e', after') ->
  e' ∈ e :: after /\ (forall x, x ∈ e' :: after' -> x ∈ e :: after).
Proof.
  intros H. destruct (advance_spec w after e e' after' H) as (dropped & E & _).
  rewrite E. split.
  - apply elem_of_app. right. left.
  - intros x Hx. apply elem_of_app. now right.
Qed.

Lemma match_edges_elem (es1 : list Edge) (e : Edge) (after : list Edge) (e1 e2 : Edge) :
  (e1, e2) ∈ match_edges es1 e after ->
  e1 ∈ es1 /\ e2 ∈ e :: after /\ weight e1 = weight e2.
Proof.
  revert e after. induction es1 as [| x rest IH]; intros e after H; cbn [match_edges] in H.
  - now apply elem_of_nil in H.
  - destruct (advance (weight x) e after) as [e' after'] eqn:Ea.
    destruct (advance_elem _ _ _ _ _ Ea) as [He' Hsub].
    apply elem_of_app in H. destruct H as [H | H].
    + destruct (Z.eqb_spec (weight x) (weight e')) as [Ew | _];
        [ | now apply elem_of_nil in H].
      apply list_elem_of_singleton in H. injection H as -> ->.
      split; [left | split; [exact He' | exact Ew]].
    + destruct (IH _ _ H) as (H1 & H2 & Ew).
      split; [now right | split; [now apply Hsub | exact Ew]].
Qed.

Section CandidateMaps.
Context (P : SubGraphIsomorphism -> Prop) (i01 j01 i02 j02 : nat).
Hypothesis Hadd : forall m k v,
  P m -> k = i01 \/ k = j01 -> v = i02 \/ v = j02 -> P (add m k v).

Lemma extend_preserves (m : SubGraphIsomorphism) (a a2 b b2 : nat)
    (r : option SubGraphIsomorphism) :
  P m -> a = i01 \/ a = j01 -> a2 = i02 \/ a2 = j02 ->
  b = i01 \/ b = j01 -> b2 = i02 \/ b2 = j02 ->
  extend m a a2 b b2 = Ok r -> forall m', r = Some m' -> P m'.
Proof.
  intros Hm Ha Ha2 Hb Hb2 H m' ->. unfold extend in H. cbv zeta in H.
  apply bind_Ok in H. destruct H as (t1 & _ & H).
  destruct t1; [ | discriminate].
  apply bind_Ok in H. destruct H as (t2 & _ & H).
  destruct t2; [ | discriminate].
  injection H as <-. auto.
Qed.

Lemma keep_preserves (st : list SubGraphIsomorphism * bool)
    (r : option SubGraphIsomorphism) :
  Forall P st.1 -> (forall m', r = Some m' -> P m') -> Forall P (keep st r).1.
Proof.
  intros Hst Hr. destruct r as [m' | ]; simpl; [ | exact Hst].
  apply Forall_app. split; [exact Hst | ]. constructor; [now apply Hr | constructor].
Qed.

Lemma keep_flag (st : list SubGraphIsomorphism * bool) (r : option SubGraphIsomorphism) :
  (st.2 = true -> st.1 <> []) -> (keep st r).2 = true -> (keep st r).1 <> [].
Proof.
  intros Hst. destruct r as [m' | ]; simpl; [ | exact Hst].
  intros _ E. now apply app_eq_nil in E as [_ E].
Qed.

Lemma try_map_preserves (st : list SubGraphIsomorphism * bool)
    (map : SubGraphIsomorphism) (st' : list SubGraphIsomorphism * bool) :
  Forall P st.1 -> P map ->
  try_map i01 j01 i02 j02 st map = Ok st' -> Forall P st'.1.
Proof.
  intros Hst Hmap H. unfold try_map in H. cbv zeta in H.
  set (c1 := opt_is (get_map map i01) i02 && opt_is (get_map map j01) j02) in H.
  set (c2 := opt_is (get_map map i01) j02 && opt_is (get_map map j01) i02) in H.
  set (st1 := if c1 then (st.1 ++ [map], true) else st) in H.
  set (st2 := if c2 then (st1.1 ++ [map], true) else st1) in H.
  assert (Forall P st1.1) as H1.
  { subst st1. destruct c1; simpl; [ | exact Hst].
    apply Forall_app. split; [exact Hst | now repeat constructor]. }
  assert (Forall P st2.1) as H2.
  { subst st2. destruct c2; simpl; [ | exact H1].
    apply Forall_app. split; [exact H1 | now repeat constructor]. }
  clearbody st2. clear H1 st1 c1 c2 Hst.
  apply bind_Ok in H. destruct H as ([new_maps mapped] & Hb & H).
  assert (Forall P new_maps) as Hnew.
  { destruct (is_None (get_map map i01) || is_None (get_map map j01)).
    - apply bind_Ok in Hb. destruct Hb as (r1 & Hr1 & Hb).
      apply bind_Ok in Hb. destruct Hb as (r2 & Hr2 & Hb).
      injection Hb as Hb.
      change new_maps with (new_maps, mapped).1. rewrite <- Hb.
      apply keep_preserves.
      + apply keep_preserves; [exact H2 | ].
        eapply extend_preserves; [exact Hmap | | | | | exact Hr1]; auto.
      + eapply extend_preserves; [exact Hmap | | | | | exact Hr2]; auto.
    - injection Hb as Hb. now rewrite Hb in H2. }
  destruct mapped; injection H as <-; simpl; [exact Hnew | ].
  apply Forall_app. split; [exact Hnew | now repeat constructor].
Qed.

End CandidateMaps.

Lemma try_map_nonempty (i01 j01 i02 j02 : nat) (st : list SubGraphIsomorphism * bool)
    (map : SubGraphIsomorphism) (st' : list SubGraphIsomorphism * bool) :
  (st.2 = true -> st.1 <> []) ->
  try_map i01 j01 i02 j02 st map = Ok st' -> st'.1 <> [].
Proof.
  intros Hst H. unfold try_map in H. cbv zeta in H.
  set (c1 := opt_is (get_map map i01) i02 && opt_is (get_map map j01) j02) in H.
  set (c2 := opt_is (get_map map i01) j02 && opt_is (get_map map j01) i02) in H.
  set (st1 := if c1 then (st.1 ++ [map], true) else st) in H.
  set (st2 := if c2 then (st1.1 ++ [map], true) else st1) in H.
  assert (st1.2 = true -> st1.1 <> []) as H1.
  { subst st1. destruct c1; simpl; [ | exact Hst].
    intros _ E. now apply app_eq_nil in E as [_ E]. }
  assert (st2.2 = true -> st2.1 <> []) as H2.
  { subst st2. destruct c2; simpl; [ | exact H1].
    intros _ E. now apply app_eq_nil in E as [_ E]. }
  clearbody st2. clear H1 st1 c1 c2 Hst.
  apply bind_Ok in H. destruct H as ([new_maps mapped] & Hb & H).
  assert (mapped = true -> new_maps <> []) as Hnew.
  { destruct (is_None (get_map map i01) || is_None (get_map map j01)).
    - apply bind_Ok in Hb. destruct Hb as (r1 & Hr1 & Hb).
      apply bind_Ok in Hb. destruct Hb as (r2 & Hr2 & Hb).
      injection Hb as Hb.
      pose proof (keep_flag (keep st2 r1) r2 (keep_flag st2 r1 H2)) as Hk.
      rewrite Hb in Hk. exact Hk.
    - injection Hb as Hb. now rewrite Hb in H2. }
  destruct mapped; injection H as <-; simpl; [now apply Hnew | ].
  intros E. now apply app_eq_nil in E as [_ E].
Qed.

Lemma foldM_try_map_nonempty (i01 j01 i02 j02 : nat) (maps : list SubGraphIsomorphism)
    (st st' : list SubGraphIsomorphism * bool) :
  (st.2 = true -> st.1 <> []) ->
  foldM (try_map i01 j01 i02 j02) st maps = Ok st' -> st'.2 = true -> st'.1 <> [].
Proof.
  revert st. induction maps as [| m maps IH]; intros st Hst H; cbn [foldM] in H.
  - now injection H as <-.
  - apply bind_Ok in H. destruct H as (st1 & H1 & H).
    apply (IH st1); [ | exact H].
    intros _. now apply (try_map_nonempty _ _ _ _ _ _ _ Hst H1).
Qed.

Section EdgePair.
Context (P : SubGraphIsomorphism -> Prop) (s1 s2 : Scanner) (e1 e2 : Edge).
Hypothesis Hadd : forall m k v,
  P m -> k = edge_i e1 \/ k = edge_j e1 -> v = edge_i e2 \/ v = edge_j e2 ->
  P (add m k v).
Hypothesis Hseed1 :
  P (add (add (SubGraphIsomorphism_init s1 s2) (edge_i e1) (edge_i e2))
       (edge_j e1) (edge_j e2)).
Hypothesis Hseed2 :
  P (add (add (SubGraphIsomorphism_init s1 s2) (edge_i e1) (edge_j e2))
       (edge_j e1) (edge_i e2)).

Lemma process_edge_pair_preserves (maps maps' : list SubGraphIsomorphism) :
  Forall P maps -> process_edge_pair s1 s2 maps (e1, e2) = Ok maps' ->
  Forall P maps' /\ maps' <> [].
Proof.
  intros Hmaps H. unfold process_edge_pair in H. cbv zeta in H.
  apply bind_Ok in H. destruct H as ([new_maps mapped] & Hf & H).
  assert (Forall P new_maps) as Hnew.
  { change new_maps with (new_maps, mapped).1.
    apply (foldM_preserves_Forall (fun st => Forall P st.1) P
             (try_map (edge_i e1) (edge_j e1) (edge_i e2) (edge_j e2)))
      with (l := reverse maps) (a := ([], false)).
    - intros st m st' Hst Hm Ht.
      now apply (try_map_preserves P _ _ _ _ Hadd st m st').
    - constructor.
    - now apply Forall_reverse.
    - exact Hf. }
  assert (mapped = true -> new_maps <> []) as Hflag.
  { intros Hm.
    assert ((([], false) : list SubGraphIsomorphism * bool).2 = true
            -> (([], false) : list SubGraphIsomorphism * bool).1 <> []) as H0
      by (simpl; discriminate).
    exact (foldM_try_map_nonempty _ _ _ _ _ _ _ H0 Hf Hm). }
  destruct mapped; injection H as <-.
  - split; [exact Hnew | now apply Hflag].
  - split; [ | discriminate].
    constructor; [exact Hseed1 | ].
    apply Forall_app. split; [exact Hnew | now repeat constructor].
Qed.

End EdgePair.

Lemma largest_elem (maps : list SubGraphIsomorphism) (s1 s2 : Scanner) :
  maps <> [] -> largest maps s1 s2 ∈ maps.
Proof.
  destruct maps as [| first others]; [congruence | intros _].
  unfold largest.
  assert (forall l a, foldl (fun largest_map map =>
            if (iso_size largest_map <? iso_size map)%nat then map else largest_map) a l
          ∈ a :: l) as H.
  { induction l as [| x l IH]; intros a; cbn [foldl]; [left | ].
    destruct (iso_size a <? iso_size x)%nat.
    - right. apply IH.
    - specialize (IH a). apply elem_of_cons in IH.
      destruct IH as [-> | IH]; [left | right; now right]. }
  apply H.
Qed.

Lemma foldM_process_nonempty (s1 s2 : Scanner) (pairs : list (Edge * Edge))
    (maps maps' : list SubGraphIsomorphism) :
  pairs <> [] ->
  foldM (process_edge_pair s1 s2) maps pairs = Ok maps' -> maps' <> [].
Proof.
  revert maps. induction pairs as [| [e1 e2] pairs IH]; intros maps Hne H; [congruence | ].
  cbn [foldM] in H. apply bind_Ok in H. destruct H as (maps1 & H1 & H).
  destruct pairs as [| p pairs].
  - injection H as <-.
    refine (proj2 (process_edge_pair_preserves (fun _ => True) s1 s2 e1 e2 _ I I
                     maps maps1 _ H1)); [auto | ].
    apply Forall_forall. auto.
  - apply (IH maps1); [discriminate | exact H].
Qed.

Lemma from_pairs_add (pairs : list (Edge * Edge)) (items : dict) (e1 e2 : Edge)
    (k v : nat) :
  from_pairs pairs items -> (e1, e2) ∈ pairs ->
  k = edge_i e1 \/ k = edge_j e1 -> v = edge_i e2 \/ v = edge_j e2 ->
  from_pairs pairs (dict_set items k v).
Proof.
  intros Hf Hin Hk Hv k' v' H. apply dict_set_elem in H.
  destruct H as [[= -> ->] | H]; [ | now apply Hf].
  exists e1, e2. auto.
Qed.

Lemma matcher_maps_invariant (P : SubGraphIsomorphism -> Prop) (s1 s2 : Scanner)
    (pairs : list (Edge * Edge)) (maps : list SubGraphIsomorphism) :
  (forall m e1 e2 k v, P m -> (e1, e2) ∈ pairs ->
     k = edge_i e1 \/ k = edge_j e1 -> v = edge_i e2 \/ v = edge_j e2 ->
     P (add m k v)) ->
  (forall e1 e2 k1 v1 k2 v2, (e1, e2) ∈ pairs ->
     k1 = edge_i e1 -> k2 = edge_j e1 ->
     (v1 = edge_i e2 /\ v2 = edge_j e2) \/ (v1 = edge_j e2 /\ v2 = edge_i e2) ->
     P (add (add (SubGraphIsomorphism_init s1 s2) k1 v1) k2 v2)) ->
  foldM (process_edge_pair s1 s2) [] pairs = Ok maps -> Forall P maps.
Proof.
  intros Hadd Hseed H.
  apply (foldM_preserves_Forall (Forall P) (fun p => p ∈ pairs) (process_edge_pair s1 s2))
    with (l := pairs) (a := @nil SubGraphIsomorphism); [ | constructor | | exact H].
  - intros maps0 [e1 e2] maps' H0 Hin Hstep.
    refine (proj1 (process_edge_pair_preserves P s1 s2 e1 e2 _ _ _ maps0 maps' H0 Hstep)).
    + intros m k v Hm Hk Hv. now apply (Hadd m e1 e2).
    + apply (Hseed e1 e2); auto.
    + apply (Hseed e1 e2); auto.
  - now apply Forall_forall.
Qed.

Lemma matched_edges_elem (s1 s2 : Scanner) (pairs : list (Edge * Edge)) :
  matched_edges s1 s2 = Ok pairs ->
  exists es1 es2,
    unique_edges_by_weight s1 = Some es1 /\ unique_edges_by_weight s2 = Some es2
    /\ forall e1 e2, (e1, e2) ∈ pairs -> e1 ∈ es1 /\ e2 ∈ es2 /\ weight e1 = weight e2.
Proof.
  unfold matched_edges. intros H.
  destruct (unique_edges_by_weight s2) as [[| e after] | ]; try discriminate.
  destruct (unique_edges_by_weight s1) as [es1 | ]; [ | discriminate].
  injection H as <-. exists es1, (e :: after).
  split; [reflexivity | split; [reflexivity | ]].
  intros e1 e2. apply match_edges_elem.
Qed.

(** X11. Whatever the scanners hold, a map the matcher returns is a map of
    the two scanners given, has distinct keys, and each of its correspondences
    joins an end point of an edge of scanner01 to an end point of an edge of
    scanner02 of the same weight. *)
Theorem matcher_map_origin (s1 s2 : Scanner) (m : SubGraphIsomorphism) :
  find_subgraph_isomorphism s1 s2 = Ok m ->
  scanner01 m = s1 /\ scanner02 m = s2
  /\ NoDup (iso_map m).*1
  /\ exists es1 es2,
       unique_edges_by_weight s1 = Some es1 /\ unique_edges_by_weight s2 = Some es2
       /\ forall k v, (k, v) ∈ iso_map m ->
            exists e1 e2, e1 ∈ es1 /\ e2 ∈ es2 /\ weight e1 = weight e2
              /\ (k = edge_i e1 \/ k = edge_j e1) /\ (v = edge_i e2 \/ v = edge_j e2).
Proof.
  intros H. unfold find_subgraph_isomorphism in H.
  apply bind_Ok in H. destruct H as (pairs & Hp & H).
  apply bind_Ok in H. destruct H as (maps & Hf & H). injection H as <-.
  destruct (matched_edges_elem s1 s2 pairs Hp) as (es1 & es2 & E1 & E2 & Hel).
  set (P := fun m : SubGraphIsomorphism =>
              scanner01 m = s1 /\ scanner02 m = s2 /\ NoDup (iso_map m).*1
              /\ from_pairs pairs (iso_map m)).
  assert (P (SubGraphIsomorphism_init s1 s2)) as Hinit.
  { repeat split; [constructor | ]. intros k v Hin. now apply elem_of_nil in Hin. }
  assert (forall m e1 e2 k v, P m -> (e1, e2) ∈ pairs ->
            k = edge_i e1 \/ k = edge_j e1 -> v = edge_i e2 \/ v = edge_j e2 ->
            P (add m k v)) as Hadd.
  { intros m e1 e2 k v (Hs1 & Hs2 & Hnd & Hfrom) Hin Hk Hv.
    split; [exact Hs1 | split; [exact Hs2 | split]].
    - now apply dict_set_NoDup.
    - now apply (from_pairs_add pairs (iso_map m) e1 e2). }
  assert (Forall P maps) as Hmaps.
  { apply (matcher_maps_invariant P s1 s2 pairs maps Hadd); [ | exact Hf].
    intros e1 e2 k1 v1 k2 v2 Hin -> -> [[-> ->] | [-> ->]];
      apply (Hadd _ e1 e2); auto; apply (Hadd _ e1 e2); auto. }
  assert (P (largest maps s1 s2)) as (Hs1 & Hs2 & Hnd & Hfrom).
  { destruct maps as [| m0 maps0] eqn:Em; [exact Hinit | ].
    rewrite Forall_forall in Hmaps. apply Hmaps. now apply largest_elem. }
  split; [exact Hs1 | split; [exact Hs2 | split; [exact Hnd | ]]].
  exists es1, es2. split; [exact E1 | split; [exact E2 | ]].
  intros k v Hin. destruct (Hfrom k v Hin) as (e1 & e2 & Hpair & Hk & Hv).
  destruct (Hel e1 e2 Hpair) as (H1 & H2 & Ew).
  exists e1, e2. auto.
Qed.

Lemma NoDup_bounded_length (l : list nat) (n : nat) :
  NoDup l -> (forall x, x ∈ l -> (x < n)%nat) -> (length l <= n)%nat.
Proof.
  intros Hnd Hlt. rewrite <- (length_seq n 0).
  apply submseteq_length, NoDup_submseteq; [exact Hnd | ].
  intros x Hx. apply elem_of_seq. specialize (Hlt x Hx). lia.
Qed.

Lemma first_matches_nil (es1 es2 : list Edge) :
  first_matches es1 es2 = [] <->
  forall e1 e2, e1 ∈ es1 -> e2 ∈ es2 -> weight e1 <> weight e2.
Proof.
  induction es1 as [| x rest IH]; [ | rewrite first_matches_cons].
  - split; [intros _ e1 e2 H; now apply elem_of_nil in H | reflexivity].
  - unfold first_with_weight.
    destruct (List.find (fun e => weight e =? weight x) es2) as [e2 | ] eqn:Ef.
    + split; [discriminate | intros H; exfalso].
      apply find_some in Ef. destruct Ef as [Hin Ew].
      apply (H x e2); [left | now apply list_elem_of_In | ].
      apply Z.eqb_eq in Ew. congruence.
    + rewrite IH. split.
      * intros H e1 e2 H1 H2. apply elem_of_cons in H1.
        destruct H1 as [-> | H1]; [ | now apply H].
        intros Ew. apply list_elem_of_In in H2.
        pose proof (find_none _ _ Ef e2 H2) as Hn. simpl in Hn.
        apply Z.eqb_neq in Hn. congruence.
      * intros H e1 e2 H1 H2. apply H; [now right | exact H2].
Qed.

(** X12. On scanners whose graphs are built, a map the matcher returns has
    indices of points on both sides, no more correspondences than scanner01
    has points, and never exactly one; it is empty exactly when no edge of
    scanner01 has the weight of an edge of scanner02. *)
Theorem matcher_map_size (s1 s2 : Scanner) (m : SubGraphIsomorphism) :
  up_to_date s1 -> up_to_date s2 ->
  find_subgraph_isomorphism s1 s2 = Ok m ->
  valid_items s1 s2 (iso_map m)
  /\ (iso_size m <= size s1)%nat
  /\ iso_size m <> 1%nat
  /\ (iso_size m = 0%nat <->
      forall es1 es2 e1 e2,
        unique_edges_by_weight s1 = Some es1 -> unique_edges_by_weight s2 = Some es2 ->
        e1 ∈ es1 -> e2 ∈ es2 -> weight e1 <> weight e2).
Proof.
  intros Hup1 Hup2 H.
  destruct (up_to_date_edges s1 Hup1) as (es1 & E1 & Hs1 & Hp1).
  destruct (up_to_date_edges s2 Hup2) as (es2 & E2 & Hs2 & Hp2).
  unfold find_subgraph_isomorphism in H.
  apply bind_Ok in H. destruct H as (pairs & Hp & H).
  apply bind_Ok in H. destruct H as (maps & Hf & H). injection H as <-.
  assert (pairs = first_matches es1 es2) as Epairs.
  { unfold matched_edges in Hp. rewrite E2, E1 in Hp.
    destruct es2 as [| e2 after]; [discriminate | ]. injection Hp as <-.
    now apply match_edges_spec; apply Sorted_StronglySorted; try apply _. }
  assert (forall e1 e2, (e1, e2) ∈ pairs ->
            (edge_i e1 < edge_j e1)%nat /\ (edge_j e1 < size s1)%nat
            /\ (edge_i e2 < edge_j e2)%nat /\ (edge_j e2 < size s2)%nat) as Hends.
  { intros e1 e2 Hin. rewrite Epairs in Hin.
    apply first_matches_elem in Hin. destruct Hin as (H1 & H2 & _).
    rewrite Hp1 in H1. apply list_elem_of_In, In_all_edges in H1.
    rewrite Hp2 in H2. apply list_elem_of_In, In_all_edges in H2.
    unfold size. lia. }
  set (P := fun m : SubGraphIsomorphism =>
              valid_items s1 s2 (iso_map m) /\ NoDup (iso_map m).*1
              /\ (2 <= iso_size m)%nat).
  assert (forall m e1 e2 k v, valid_items s1 s2 (iso_map m) -> (e1, e2) ∈ pairs ->
            k = edge_i e1 \/ k = edge_j e1 -> v = edge_i e2 \/ v = edge_j e2 ->
            valid_items s1 s2 (iso_map (add m k v))) as Hvalid_add.
  { intros m e1 e2 k v Hv Hin Hk Hv' k' v' Hin'. apply dict_set_elem in Hin'.
    destruct Hin' as [[= -> ->] | Hin']; [ | now apply Hv].
    pose proof (Hends e1 e2 Hin). destruct Hk as [-> | ->], Hv' as [-> | ->]; lia. }
  assert (Forall P maps) as Hmaps.
  { apply (matcher_maps_invariant P s1 s2 pairs maps); [ | | exact Hf].
    - intros m e1 e2 k v (Hv & Hnd & Hsz) Hin Hk Hv'.
      split; [now apply (Hvalid_add m e1 e2) | split].
      + now apply dict_set_NoDup.
      + unfold iso_size, add in *. simpl.
        rewrite dict_set_length. destruct (dict_get (iso_map m) k); lia.
    - intros e1 e2 k1 v1 k2 v2 Hin -> -> Hv.
      split; [ | split].
      + apply (Hvalid_add _ e1 e2); [ | exact Hin | tauto | tauto].
        apply (Hvalid_add _ e1 e2); [ | exact Hin | tauto | tauto].
        intros k v Hk. now apply elem_of_nil in Hk.
      + apply dict_set_NoDup, dict_set_NoDup. constructor.
      + pose proof (Hends e1 e2 Hin). unfold iso_size, add. simpl.
        rewrite (proj2 (Nat.eqb_neq (edge_i e1) (edge_j e1))) by lia. simpl. lia. }
  assert (maps <> [] -> P (largest maps s1 s2)) as Hlargest.
  { intros Hne. rewrite Forall_forall in Hmaps. apply Hmaps. now apply largest_elem. }
  assert (valid_items s1 s2 (iso_map (largest maps s1 s2))
          /\ NoDup (iso_map (largest maps s1 s2)).*1) as [Hvalid Hnd].
  { destruct maps as [| m0 maps0] eqn:Em.
    - split; [intros k v Hk; now apply elem_of_nil in Hk | constructor].
    - destruct Hlargest as (Hv & Hnd & _); [discriminate | now split]. }
  split; [exact Hvalid | ].
  split.
  { unfold iso_size. rewrite <- (length_fmap fst (iso_map _)).
    apply NoDup_bounded_length; [exact Hnd | ].
    intros k Hk. apply list_elem_of_fmap in Hk. destruct Hk as ([k' v] & -> & Hin).
    now apply (Hvalid k' v). }
  assert (iso_size (largest maps s1 s2) = 0%nat <-> pairs = []) as Hzero.
  { split.
    - intros Hz. destruct pairs as [| p pairs]; [reflexivity | exfalso].
      assert (maps <> []) as Hne
        by (apply (foldM_process_nonempty s1 s2 (p :: pairs) [] maps); [discriminate | exact Hf]).
      destruct (Hlargest Hne) as (_ & _ & Hsz). lia.
    - intros ->. injection Hf as <-. reflexivity. }
  split.
  - intros E1'. destruct (decide (pairs = [])) as [Hnil | Hne].
    + apply Hzero in Hnil. lia.
    + assert (maps <> []) as Hne'
        by (apply (foldM_process_nonempty s1 s2 pairs [] maps); assumption).
      destruct (Hlargest Hne') as (_ & _ & Hsz). lia.
  - rewrite Hzero, Epairs, first_matches_nil. split.
    + intros Hall es1' es2' e1 e2 E1' E2'. rewrite E1 in E1'. rewrite E2 in E2'.
      injection E1' as <-. injection E2' as <-. apply Hall.
    + intros Hall e1 e2. now apply (Hall es1 es2).
Qed.

Lemma matcher_map_origin_witness :
  scanner01 scene_iso = scene_scanner 0 /\ scanner02 scene_iso = scene_scanner 1
  /\ NoDup (iso_map scene_iso).*1.
Proof.
  destruct (matcher_map_origin (scene_scanner 0) (scene_scanner 1) scene_iso)
    as (H1 & H2 & H3 & _).
  - vm_compute. reflexivity.
  - auto.
Defined.

Lemma matcher_map_size_witness :
  (iso_size scene_iso <= size (scene_scanner 0))%nat /\ iso_size scene_iso <> 1%nat.
Proof.
  destruct (matcher_map_size (scene_scanner 0) (scene_scanner 1) scene_iso)
    as (_ & H2 & H3 & _).
  - unfold up_to_date. cbv zeta. split; vm_compute; reflexivity.
  - unfold up_to_date. cbv zeta. split; vm_compute; reflexivity.
  - vm_compute. reflexivity.
  - auto.
Defined.

(** X13. The map chosen among the candidates is the first of the largest:
    no candidate holds more correspondences and every earlier candidate holds
    fewer; without a candidate it is a new, empty map. *)
Theorem largest_is_first_maximum (maps : list SubGraphIsomorphism) (s1 s2 : Scanner) :
  (maps = [] -> largest maps s1 s2 = SubGraphIsomorphism_init s1 s2)
  /\ (maps <> [] ->
      exists i, maps !! i = Some (largest maps s1 s2)
        /\ (forall x, x ∈ maps -> (iso_size x <= iso_size (largest maps s1 s2))%nat)
        /\ (forall j x, (j < i)%nat -> maps !! j = Some x ->
              (iso_size x < iso_size (largest maps s1 s2))%nat)).
Proof.
  split; [now intros -> | ].
  destruct maps as [| first others]; [congruence | intros _].
  unfold largest. revert first.
  induction others as [| x l IH]; intros a; cbn [foldl].
  - exists 0%nat. split; [reflexivity | split].
    + intros x Hx. apply list_elem_of_singleton in Hx. now subst.
    + intros j x Hj. lia.
  - destruct (Nat.ltb_spec (iso_size a) (iso_size x)) as [Hlt | Hge].
    + destruct (IH x) as (i & Hi & Hall & Hfirst).
      exists (S i). split; [exact Hi | split].
      * intros y Hy. apply elem_of_cons in Hy. destruct Hy as [-> | Hy]; [ | now apply Hall].
        specialize (Hall x (list_elem_of_here _ _)). lia.
      * intros [| j] y Hj Hy.
        -- injection Hy as <-. specialize (Hall x (list_elem_of_here _ _)). lia.
        -- apply (Hfirst j); [lia | exact Hy].
    + destruct (IH a) as (i & Hi & Hall & Hfirst).
      assert (iso_size a <= iso_size
                (foldl (fun largest_map map =>
                          if (iso_size largest_map <? iso_size map)%nat then map
                          else largest_map) a l))%nat as Ha
        by (apply Hall; left).
      destruct i as [| i].
      * exists 0%nat. split; [exact Hi | split].
        -- intros y Hy. apply elem_of_cons in Hy. destruct Hy as [-> | Hy]; [exact Ha | ].
           apply elem_of_cons in Hy. destruct Hy as [-> | Hy]; [lia | ].
           apply Hall. now right.
        -- intros j y Hj. lia.
      * exists (S (S i)). split; [exact Hi | split].
        -- intros y Hy. apply elem_of_cons in Hy. destruct Hy as [-> | Hy]; [exact Ha | ].
           apply elem_of_cons in Hy. destruct Hy as [-> | Hy]; [lia | ].
           apply Hall. now right.
        -- intros [| [| j]] y Hj Hy.
           ++ apply (Hfirst 0%nat); [lia | exact Hy].
           ++ injection Hy as <-.
              assert (iso_size a < iso_size
                (foldl (fun largest_map map =>
                          if (iso_size largest_map <? iso_size map)%nat then map
                          else largest_map) a l))%nat
                by (apply (Hfirst 0%nat); [lia | reflexivity]).
              lia.
           ++ apply (Hfirst (S j)); [lia | exact Hy].
Qed.

(** ** The transform solver *)

Lemma rotation_pair_same_index (s1 s2 : Scanner) (i j01 j02 : nat) (st : RotState) :
  rotation_pair s1 s2 i i j01 j02 st = Ok st.
Proof. unfold rotation_pair. now rewrite Nat.eqb_refl. Qed.

Lemma rotation_inner_same_index (s1 s2 : Scanner) (i : nat) (items : dict) (st : RotState) :
  rotation_inner s1 s2 i i items st = Ok st.
Proof.
  induction items as [| [j01 j02] rest IH]; cbn [rotation_inner]; [reflexivity | ].
  rewrite rotation_pair_same_index, bind_Ok_l. now destruct (all_rotated st).
Qed.

Lemma rotation_outer_same_index (s1 s2 : Scanner) (all_items items : dict) (st : RotState) :
  (forall i1 i2, (i1, i2) ∈ items -> i1 = i2) ->
  rotation_outer s1 s2 all_items items st = Ok st.
Proof.
  induction items as [| [i01 i02] rest IH]; intros Hsame; cbn [rotation_outer];
    [reflexivity | ].
  rewrite (Hsame i01 i02) by left.
  rewrite rotation_inner_same_index, bind_Ok_l.
  destruct (all_rotated st); [reflexivity | ].
  apply IH. intros i1 i2 H. apply Hsame. now right.
Qed.

(** X14. What the transform solver refuses whatever the points are: scanners
    that are not the scanners of the map (lines 236 and 237), and a map in
    which every index of scanner01 is paired with the same index of scanner02,
    the empty map among them: line 246 skips each of its correspondences, no
    axis is found and line 287 raises. *)
Theorem orient_refuses (s1 s2 : Scanner) (iso : SubGraphIsomorphism) :
  (index s1 <> index (scanner01 iso) ->
   orient_02_to_01 s1 s2 iso = Raise (AssertionError 236))
  /\ (index s1 = index (scanner01 iso) -> index s2 <> index (scanner02 iso) ->
      orient_02_to_01 s1 s2 iso = Raise (AssertionError 237))
  /\ (index s1 = index (scanner01 iso) -> index s2 = index (scanner02 iso) ->
      (forall i1 i2, (i1, i2) ∈ iso_map iso -> i1 = i2) ->
      orient_02_to_01 s1 s2 iso = Raise (AssertionError 287))
  /\ (forall r, orient_02_to_01 s1 s2 iso = Ok r ->
      index s1 = index (scanner01 iso) /\ index s2 = index (scanner02 iso)
      /\ exists i1 i2, (i1, i2) ∈ iso_map iso /\ i1 <> i2).
Proof.
  assert (index s1 = index (scanner01 iso) -> index s2 = index (scanner02 iso) ->
          (forall i1 i2, (i1, i2) ∈ iso_map iso -> i1 = i2) ->
          orient_02_to_01 s1 s2 iso = Raise (AssertionError 287)) as Hsame.
  { intros E1 E2 Hs. unfold orient_02_to_01.
    rewrite (proj2 (Nat.eqb_eq _ _) E1), (proj2 (Nat.eqb_eq _ _) E2). cbn [assert].
    rewrite !bind_Ok_l. unfold find_rotation.
    now rewrite rotation_outer_same_index. }
  split; [ | split; [ | split; [exact Hsame | ]]].
  - intros Hne. unfold orient_02_to_01.
    now rewrite (proj2 (Nat.eqb_neq _ _) Hne).
  - intros E Hne. unfold orient_02_to_01.
    rewrite (proj2 (Nat.eqb_eq _ _) E), (proj2 (Nat.eqb_neq _ _) Hne). reflexivity.
  - intros r H.
    destruct (decide (index s1 = index (scanner01 iso))) as [E1 | Hne1].
    2: { unfold orient_02_to_01 in H.
         now rewrite (proj2 (Nat.eqb_neq _ _) Hne1) in H. }
    destruct (decide (index s2 = index (scanner02 iso))) as [E2 | Hne2].
    2: { unfold orient_02_to_01 in H.
         now rewrite (proj2 (Nat.eqb_eq _ _) E1), (proj2 (Nat.eqb_neq _ _) Hne2) in H. }
    split; [exact E1 | split; [exact E2 | ]].
    destruct (decide (Forall (fun p : nat * nat => p.1 = p.2) (iso_map iso)))
      as [Hall | Hnot].
    + rewrite Hsame in H; [discriminate | assumption | assumption | ].
      intros i1 i2 Hin. rewrite Forall_forall in Hall. exact (Hall (i1, i2) Hin).
    + apply not_Forall_Exists in Hnot; [ | intros p; apply _].
      apply Exists_exists in Hnot. destruct Hnot as ([i1 i2] & Hin & Hne).
      exists i1, i2. split; [exact Hin | exact Hne].
Qed.

(** X15. What a successful run of the transform solver leaves: scanner01 with
    the identity rotation and the zero translation, scanner02 with its index,
    points, graph and edges as before and a translation of 64-bit integers,
    and every correspondence exact: the point of scanner02 under its new
    rotation and translation is the point of scanner01, whenever that point
    is a point of 64-bit integers. *)
Theorem orient_postcondition (s1 s2 : Scanner) (iso : SubGraphIsomorphism)
    (s1' s2' : Scanner) :
  orient_02_to_01 s1 s2 iso = Ok (s1', s2') ->
  s1' = reset_translation (reset_rotation s1)
  /\ index s2' = index s2 /\ scans s2' = scans s2
  /\ graph s2' = graph s2
  /\ unique_edges_by_weight s2' = unique_edges_by_weight s2
  /\ (exists t, translation s2' = Some t /\ point_in_range t)
  /\ forall i1 i2, (i1, i2) ∈ iso_map iso ->
       exists p1 q, scans s1 !! i1 = Some p1 /\ get_scan s2' i2 = Ok q
         /\ delta p1 q = (0, 0, 0) /\ (point_in_range p1 -> q = p1).
Proof.
  intros H. destruct (orient_Ok s1 s2 iso s1' s2' H) as (E1 & _ & _ & Hexact).
  unfold orient_02_to_01 in H. inv_Ok H. injection H as _ <-.
  split; [exact E1 | ]. do 4 (split; [reflexivity | ]).
  split.
  - simpl. unfold find_translation in Ha3.
    destruct (iso_map iso) as [| [i01 i02] rest] eqn:E.
    + rewrite find_rotation_nil in Ha1. injection Ha1 as <-. discriminate.
    + inv_Ok Ha3. destruct (delta a6 a5) as [[dx dy] dz]. injection Ha3 as <-.
      eexists. split; [reflexivity | ].
      repeat split; apply neg_range.
  - intros i1 i2 Hin. destruct (Hexact i1 i2 Hin) as (p1 & q & Hp1 & Hq & Hd).
    exists p1, q. split; [exact Hp1 | split; [exact Hq | split; [exact Hd | ]]].
    intros Hr. symmetry. apply delta_zero; [exact Hr | | exact Hd].
    now apply (get_scan_in_range _ _ _ Hq).
Qed.

Lemma orient_postcondition_witness :
  exists t, translation scene_oriented.2 = Some t /\ point_in_range t.
Proof.
  destruct (orient_postcondition (scene_scanner 0) (scene_scanner 1) scene_iso
              scene_oriented.1 scene_oriented.2) as (_ & _ & _ & _ & _ & H & _).
  - vm_compute. reflexivity.
  - exact H.
Defined.

Lemma floordiv_unit (d x : Z) :
  Int64.in_range d -> Int64.in_range x -> 0 < Int64.abs d ->
  Int64.abs d = Int64.abs x ->
  Int64.floordiv x d = 1 \/ Int64.floordiv x d = -1.
Proof.
  intros Hd Hx Hpos Habs.
  destruct (abs_pos d Hd Hpos) as [Hd0 Hdmin].
  assert (0 < Int64.abs x) as Hposx by lia.
  destruct (abs_pos x Hx Hposx) as [Hx0 Hxmin].
  rewrite (abs_in_range d Hd Hdmin), (abs_in_range x Hx Hxmin) in Habs.
  unfold Int64.floordiv. rewrite (proj2 (Z.eqb_neq d 0) Hd0).
  assert (x = d \/ x = - d) as [-> | ->] by lia.
  - left. rewrite Z.div_same by exact Hd0. reflexivity.
  - right. rewrite Z.div_opp_l_z by (exact Hd0 || apply Z.mod_same; exact Hd0).
    rewrite Z.div_same by exact Hd0. reflexivity.
Qed.

Lemma ratio_row_cases (d : Z) (d2 : Point) :
  Int64.in_range d -> point_in_range d2 -> 0 < Int64.abs d ->
  ratio_row d d2 ∈ unit_rows \/ ratio_row d d2 = zero_vector.
Proof.
  destruct d2 as [[dx dy] dz]. intros Hd (Hx & Hy & Hz) Hpos. unfold ratio_row.
  destruct (Z.eqb_spec (Int64.abs d) (Int64.abs dx)) as [Ex | _].
  { left. destruct (floordiv_unit d dx Hd Hx Hpos Ex) as [-> | ->];
      apply (bool_decide_unpack _); vm_compute; exact I. }
  destruct (Z.eqb_spec (Int64.abs d) (Int64.abs dy)) as [Ey | _].
  { left. destruct (floordiv_unit d dy Hd Hy Hpos Ey) as [-> | ->];
      apply (bool_decide_unpack _); vm_compute; exact I. }
  destruct (Z.eqb_spec (Int64.abs d) (Int64.abs dz)) as [Ez | _].
  { left. destruct (floordiv_unit d dz Hd Hz Hpos Ez) as [-> | ->];
      apply (bool_decide_unpack _); vm_compute; exact I. }
  now right.
Qed.

Lemma sub_zero_eqm (a b : Z) : Int64.sub a b = 0 -> Int64.eqm a b.
Proof.
  unfold Int64.sub. intros H.
  assert (Int64.eqm (a - b) 0) as E by (rewrite <- H; symmetry; apply wrap_eqm).
  replace a with ((a - b) + b) by ring. rewrite E. reflexivity.
Qed.

Lemma delta_of_equal (p q X Y : Point) :
  delta p X = (0, 0, 0) -> delta q Y = (0, 0, 0) -> delta p q = delta X Y.
Proof.
  destruct p as [[px py] pz], q as [[qx qy] qz], X as [[Xx Xy] Xz], Y as [[Yx Yy] Yz].
  unfold delta. intros [= H1 H2 H3] [= H4 H5 H6].
  apply sub_zero_eqm in H1, H2, H3, H4, H5, H6.
  f_equal; [f_equal | ]; unfold Int64.sub; apply wrap_proper.
  - now rewrite H1, H4.
  - now rewrite H2, H5.
  - now rewrite H3, H6.
Qed.

Lemma abs_row_dot (r v : Point) :
  point_in_range v -> r ∈ unit_rows \/ r = zero_vector ->
  Int64.abs (row_dot r v) = abs_coord (axis_of r) v.
Proof.
  destruct v as [[x y] z]. intros (Hx & Hy & Hz) [H | ->].
  - apply list_elem_of_In in H. vm_compute in H.
    repeat (destruct H as [H | H]; [symmetry in H; subst | ]); [ .. | contradiction];
      unfold abs_coord, axis_of, pick; cbn [fst];
      rewrite ?row_dot_e0, ?row_dot_e1, ?row_dot_e2, ?row_dot_n0, ?row_dot_n1,
        ?row_dot_n2, ?abs_neg by assumption; reflexivity.
  - reflexivity.
Qed.

Lemma unique_axis (M : Matrix) (d2 : Point) (a : nat) :
  point_in_range d2 ->
  (forall b, (b < 3)%nat -> mat_row M b ∈ unit_rows \/ mat_row M b = zero_vector) ->
  (a < 3)%nat ->
  unique_delta (pick a (mat_dot M d2)) = true ->
  exists c, axis_of (mat_row M a) = Some c
    /\ forall b, (b < 3)%nat -> b <> a -> axis_of (mat_row M b) <> Some c.
Proof.
  intros Hd2 Hrows Ha Hu. destruct M as [[r0 r1] r2].
  pose proof (abs_row_dot r0 d2 Hd2 (Hrows 0%nat ltac:(lia))) as A0.
  pose proof (abs_row_dot r1 d2 Hd2 (Hrows 1%nat ltac:(lia))) as A1.
  pose proof (abs_row_dot r2 d2 Hd2 (Hrows 2%nat ltac:(lia))) as A2.
  cbn [mat_row] in A0, A1, A2. clear Hrows.
  unfold mat_dot in Hu.
  assert (forall d o1 o2, unique_delta (d, o1, o2) = true ->
            0 < Int64.abs d /\ Int64.abs d <> Int64.abs o1
            /\ Int64.abs d <> Int64.abs o2) as Hud.
  { intros d o1 o2 H. unfold unique_delta in H.
    apply andb_true_iff in H. destruct H as [H H2].
    apply andb_true_iff in H. destruct H as [H0 H1].
    apply Z.ltb_lt in H0. apply negb_true_iff, Z.eqb_neq in H1, H2. auto. }
  destruct a as [| [| [| a]]]; [ | | | lia]; cbn [pick mat_row] in *;
    apply Hud in Hu; destruct Hu as (Hpos & Hn1 & Hn2);
    rewrite ?A0, ?A1, ?A2 in Hpos, Hn1, Hn2.
  - destruct (axis_of r0) as [c | ]; [ | simpl in Hpos; lia].
    exists c. split; [reflexivity | ].
    intros [| [| [| b]]] Hb Hne E; try lia; rewrite E in *; congruence.
  - destruct (axis_of r1) as [c | ]; [ | simpl in Hpos; lia].
    exists c. split; [reflexivity | ].
    intros [| [| [| b]]] Hb Hne E; try lia; rewrite E in *; congruence.
  - destruct (axis_of r2) as [c | ]; [ | simpl in Hpos; lia].
    exists c. split; [reflexivity | ].
    intros [| [| [| b]]] Hb Hne E; try lia; rewrite E in *; congruence.
Qed.

Ltac unit_row_cases H :=
  apply list_elem_of_In in H; vm_compute in H;
  repeat (destruct H as [H | H]; [symmetry in H; subst | ]); [ .. | contradiction].

Lemma signed_permutation_rows (r0 r1 r2 : Point) (c0 c1 c2 : nat) :
  r0 ∈ unit_rows -> r1 ∈ unit_rows -> r2 ∈ unit_rows ->
  axis_of r0 = Some c0 -> axis_of r1 = Some c1 -> axis_of r2 = Some c2 ->
  c0 <> c1 -> c0 <> c2 -> c1 <> c2 ->
  (r0, r1, r2) ∈ signed_permutations.
Proof.
  intros H0 H1 H2 E0 E1 E2 N01 N02 N12.
  unit_row_cases H0; unit_row_cases H1; unit_row_cases H2;
    vm_compute in E0, E1, E2;
    injection E0 as <-; injection E1 as <-; injection E2 as <-;
    first [congruence | apply (bool_decide_unpack _); vm_compute; exact I].
Qed.

Lemma axis_of_unit (r : Point) (c : nat) :
  r ∈ unit_rows \/ r = zero_vector -> axis_of r = Some c -> r ∈ unit_rows.
Proof. intros [H | ->]; [auto | discriminate]. Qed.

(** X16. A successful run of the transform solver leaves scanner02 with one
    of the 48 matrices whose rows are signed unit vectors along three
    different axes, whatever the points and the map are: a row is the ratio of
    two deltas of equal magnitude, and the final check of the correspondences
    rules out a row of zeros and two rows along one axis. The determinant is
    1 or -1: a mirror image is not ruled out. *)
Theorem orient_signed_permutation (s1 s2 : Scanner) (iso : SubGraphIsomorphism)
    (s1' s2' : Scanner) :
  orient_02_to_01 s1 s2 iso = Ok (s1', s2') ->
  rotation_matrix s2' ∈ signed_permutations
  /\ (det3 (rotation_matrix s2') = 1 \/ det3 (rotation_matrix s2') = -1).
Proof.
  intros H.
  destruct (orient_Ok s1 s2 iso s1' s2' H) as (_ & _ & _ & Hexact).
  unfold orient_02_to_01 in H. inv_Ok H. injection H as _ <-.
  rename a1 into st, a3 into tr. apply assert_Ok in Ha2.
  clear a Ha a0 Ha0 a2 Ha3 a4 Ha4.
  pose proof (find_rotation_rows_from_pairs
                (reset_translation (reset_rotation s1)) s2 (iso_map iso)) as Hrows.
  rewrite Ha1 in Hrows. simpl in Hrows.
  set (s2' := set_translation (set_rotation s2 (rot st)) tr) in *.
  assert (forall a, (a < 3)%nat ->
            exists d2, point_in_range d2
              /\ unique_delta (pick a (mat_dot (rot st) d2)) = true
              /\ (mat_row (rot st) a ∈ unit_rows \/ mat_row (rot st) a = zero_vector))
    as Hpairs.
  { intros a Ha. specialize (Hrows a Ha).
    rewrite (all_rotated_flag st a Ha2) in Hrows.
    destruct Hrows as (i01 & i02 & j01 & j02 & p1 & q1 & p2 & q2
                       & Hi & Hj & Hp1 & Hq1 & Hp2 & Hq2 & Hu & Hrow).
    simpl in Hp1, Hq1.
    destruct (Hexact i01 i02 Hi) as (p1' & X & Hp1' & HX & HdX).
    destruct (Hexact j01 j02 Hj) as (q1' & Y & Hq1' & HY & HdY).
    rewrite Hp1 in Hp1'. injection Hp1' as <-.
    rewrite Hq1 in Hq1'. injection Hq1' as <-.
    assert (exists t, X = transform (rot st) t p2 /\ Y = transform (rot st) t q2)
      as (t & -> & ->).
    { unfold get_scan in HX, HY. subst s2'. simpl in HX, HY.
      apply list_get_Ok in Hp2, Hq2. rewrite Hp2 in HX. rewrite Hq2 in HY.
      rewrite bind_Ok_l in HX, HY.
      destruct tr as [t | ]; [ | discriminate].
      exists t. injection HX as <-. injection HY as <-. split; reflexivity. }
    assert (delta p1 q1 = mat_dot (rot st) (delta p2 q2)) as Ed
      by (rewrite <- delta_transform with (translation := t); now apply delta_of_equal).
    exists (delta p2 q2). split; [apply delta_in_range | ].
    split; [now rewrite <- Ed | ].
    rewrite Hrow. apply ratio_row_cases; [ | apply delta_in_range | ].
    - pose proof (delta_in_range p1 q1) as Hr.
      destruct (delta p1 q1) as [[dx dy] dz]. destruct Hr as (Hx & Hy & Hz).
      destruct a as [| [| [| a]]]; simpl; assumption.
    - unfold unique_delta in Hu. destruct (pick a (delta p1 q1)) as [[d o1] o2].
      apply andb_true_iff in Hu. destruct Hu as [Hu _].
      apply andb_true_iff in Hu. destruct Hu as [Hu _].
      now apply Z.ltb_lt in Hu. }
  assert (forall b, (b < 3)%nat ->
            mat_row (rot st) b ∈ unit_rows \/ mat_row (rot st) b = zero_vector) as Hall.
  { intros b Hb. destruct (Hpairs b Hb) as (_ & _ & _ & Hrow). exact Hrow. }
  assert (forall a, (a < 3)%nat ->
            exists c, axis_of (mat_row (rot st) a) = Some c
              /\ forall b, (b < 3)%nat -> b <> a ->
                   axis_of (mat_row (rot st) b) <> Some c) as Haxes.
  { intros a Ha. destruct (Hpairs a Ha) as (d2 & Hd2 & Hu & _).
    now apply (unique_axis (rot st) d2 a). }
  destruct (Haxes 0%nat ltac:(lia)) as (c0 & E0 & N0).
  destruct (Haxes 1%nat ltac:(lia)) as (c1 & E1 & N1).
  destruct (Haxes 2%nat ltac:(lia)) as (c2 & E2 & N2).
  pose proof (axis_of_unit _ _ (Hall 0%nat ltac:(lia)) E0) as U0.
  pose proof (axis_of_unit _ _ (Hall 1%nat ltac:(lia)) E1) as U1.
  pose proof (axis_of_unit _ _ (Hall 2%nat ltac:(lia)) E2) as U2.
  assert (rot st ∈ signed_permutations) as Hin.
  { destruct (rot st) as [[r0 r1] r2]. cbn [mat_row] in *.
    apply (signed_permutation_rows r0 r1 r2 c0 c1 c2); try assumption.
    - intros <-. apply (N0 1%nat); [lia | lia | exact E1].
    - intros <-. apply (N0 2%nat); [lia | lia | exact E2].
    - intros <-. apply (N1 2%nat); [lia | lia | exact E2]. }
  split; [exact Hin | ].
  subst s2'. simpl. revert Hin. generalize (rot st). clear. intros M Hin.
  apply list_elem_of_In in Hin. vm_compute in Hin.
  repeat (destruct Hin as [Hin | Hin];
          [rewrite <- Hin; first [left; reflexivity | right; reflexivity] | ]).
  contradiction.
Qed.

Lemma orient_signed_permutation_witness :
  rotation_matrix scene_oriented.2 ∈ signed_permutations
  /\ (det3 (rotation_matrix scene_oriented.2) = 1
      \/ det3 (rotation_matrix scene_oriented.2) = -1).
Proof.
  apply (orient_signed_permutation (scene_scanner 0) (scene_scanner 1) scene_iso
           scene_oriented.1 scene_oriented.2).
  vm_compute. reflexivity.
Defined.

(** X17. The transform solver accepts a mirror image: for two points and
    their images in the plane [x = 0], matched with distances preserved, it
    returns the reflection, which is none of the 24 rotations, and the check
    of the correspondences passes. *)
Theorem orient_accepts_reflection :
  consistent pair_scanner1 mirror_scanner (iso_map mirror_iso)
  /\ exists s1' s2',
       orient_02_to_01 pair_scanner1 mirror_scanner mirror_iso = Ok (s1', s2')
       /\ rotation_matrix s2' = ((-1, 0, 0), (0, 1, 0), (0, 0, 1))
       /\ det3 (rotation_matrix s2') = -1
       /\ rotation_matrix s2' ∉ rotations24.
Proof.
  split.
  - apply consistentb_consistent. vm_compute. reflexivity.
  - eexists _, _. split; [vm_compute; reflexivity | ].
    split; [reflexivity | split; [reflexivity | ]].
    intros H. apply list_elem_of_In in H. vm_compute in H.
    repeat (destruct H as [H | H]; [discriminate | ]). contradiction.
Qed.

(** ** The merge engine *)

(** The loop of the merge, whatever the points of scanner02 are: each point
    that is not there yet is appended once. *)
Lemma merge_loop_general (l : list Point) (s : Scanner) :
  reference_frame s -> Forall point_in_range l ->
  exists s' new, foldM merge_point s l = Ok s'
    /\ reference_frame s' /\ index s' = index s
    /\ scans s' = scans s ++ new
    /\ NoDup new
    /\ forall q, q ∈ new <-> q ∈ l /\ q ∉ scans s.
Proof.
  revert s. induction l as [| q l IH]; intros s Hs Hr; cbn [foldM].
  - exists s, []. rewrite app_nil_r.
    split; [reflexivity | split; [exact Hs | split; [reflexivity | split; [reflexivity | ]]]].
    split; [constructor | ].
    intros q. split; [intros H; now apply elem_of_nil in H | ].
    intros [H _]. now apply elem_of_nil in H.
  - inversion Hr as [| ? ? Hqr Hr']; subst.
    rewrite (merge_point_frame_eq s q Hs).
    destruct (existsb _ _) eqn:Eex.
    + apply existsb_point_eqb in Eex. rewrite sorted_Permutation in Eex.
      rewrite bind_Ok_l.
      destruct (IH s Hs Hr') as (s' & new & H & Hs' & Ei & E & Hnd & Hnew).
      exists s', new. do 5 (split; [assumption | ]).
      intros p. rewrite Hnew, elem_of_cons. split; [tauto | ].
      intros [[-> | Hp] Hnot]; [contradiction | tauto].
    + assert (q ∉ scans s) as Hnot.
      { intros Hin. rewrite <- (sorted_Permutation point_leb) in Hin.
        apply existsb_point_eqb in Hin. congruence. }
      destruct q as [[x y] z]. unfold add_scan.
      rewrite (numpy_array_in_range x y z Hqr), !bind_Ok_l.
      match goal with |- context [foldM merge_point ?s1 l] => set (s1' := s1) end.
      assert (reference_frame s1') as Hs1.
      { destruct Hs as (H1 & H2 & H3). repeat split; simpl; try assumption.
        apply Forall_app. split; [assumption | now constructor]. }
      destruct (IH s1' Hs1 Hr') as (s' & new & H & Hs' & Ei & E & Hnd & Hnew).
      exists s', ((x, y, z) :: new).
      split; [exact H | split; [exact Hs' | split; [exact Ei | ]]].
      split; [rewrite E; simpl; now rewrite <- app_assoc | ].
      split.
      * constructor; [ | exact Hnd]. rewrite Hnew. simpl.
        intros [_ Hn]. apply Hn, elem_of_app. right. left.
      * intros p. rewrite !elem_of_cons, Hnew. simpl.
        rewrite elem_of_app, list_elem_of_singleton.
        destruct (decide (p = (x, y, z))) as [-> | Hne]; [tauto | tauto].
Qed.

Lemma merge_loop_nothing_new (l : list Point) (s : Scanner) :
  reference_frame s -> (forall q, q ∈ l -> q ∈ scans s) ->
  foldM merge_point s l = Ok s.
Proof.
  intros Hs. induction l as [| q l IH]; intros Hin; cbn [foldM]; [reflexivity | ].
  rewrite (merge_point_frame_eq s q Hs).
  assert (existsb (fun p => point_eqb p q) (sorted point_leb (scans s)) = true) as ->.
  { apply existsb_point_eqb. rewrite sorted_Permutation. apply Hin. left. }
  rewrite bind_Ok_l. apply IH. intros p Hp. apply Hin. now right.
Qed.

(** X18. The merge of an oriented scanner02 into a scanner01 in the reference
    frame returns, and the points of the result are exactly the points of
    scanner01 and the points of scanner02 in the reference frame, in sorted
    order, each new point once; the graph and the edges of the result are
    built from them and the result is in the reference frame again. With no
    translation and a point, scanner02 raises [AttributeError]. *)
Theorem merge_contents (s1 s2 : Scanner) :
  (reference_frame s1 -> is_Some (translation s2) ->
   exists s, merge_02_into_01 s1 s2 = Ok s
     /\ reference_frame s /\ up_to_date s /\ index s = index s1
     /\ Sorted point_le (scans s)
     /\ (forall p, p ∈ scans s <-> p ∈ scans s1 \/ p ∈ transformed s2)
     /\ (NoDup (scans s1) -> NoDup (scans s))
     /\ (size s1 <= size s <= size s1 + size s2)%nat)
  /\ (translation s2 = None -> scans s2 <> [] ->
      merge_02_into_01 s1 s2 = Raise AttributeError)
  /\ (scans s2 = [] -> merge_02_into_01 s1 s2 = Ok (build_graph s1)).
Proof.
  split; [ | split].
  - intros Hs1 [t Ht]. unfold merge_02_into_01.
    pose proof (get_scans_transformed s2 t Ht) as Hget. rewrite Hget, bind_Ok_l.
    pose proof (get_scans_in_range s2 _ Hget) as Hr.
    destruct (merge_loop_general _ s1 Hs1 Hr) as (s' & new & H & Hs' & Ei & E & Hnd & Hnew).
    rewrite H, bind_Ok_l. eexists. split; [reflexivity | ].
    split; [now apply build_graph_frame | ].
    split; [apply build_graph_up_to_date | ].
    split; [now rewrite (proj2 (proj2 (build_graph_transform s'))) | ].
    rewrite build_graph_scans.
    split; [apply sorted_Sorted, point_leb_total | ].
    split; [ | split].
    + intros p. rewrite sorted_Permutation, E, elem_of_app, Hnew, sorted_Permutation.
      destruct (decide (p ∈ scans s1)); tauto.
    + intros Hnd1. rewrite sorted_Permutation, E. apply NoDup_app.
      split; [exact Hnd1 | split; [ | exact Hnd]].
      intros p Hp Hp'. apply Hnew in Hp'. tauto.
    + unfold size. rewrite build_graph_scans, length_sorted, E, length_app.
      assert (length new <= length (scans s2))%nat; [ | lia].
      change (length (scans s2)) with (size s2).
      rewrite <- (length_transformed s2) by (rewrite Ht; eauto).
      rewrite <- (length_sorted point_leb (transformed s2)).
      apply submseteq_length, NoDup_submseteq; [exact Hnd | ].
      intros p Hp. now apply Hnew in Hp.
  - intros Hnone Hne. unfold merge_02_into_01, get_scans.
    destruct (scans s2) as [| p rest] eqn:Es; [congruence | ].
    cbn [length seq get_scan_loop]. unfold get_scan. rewrite Es, Hnone. reflexivity.
  - intros Hnil. unfold merge_02_into_01, get_scans. rewrite Hnil. reflexivity.
Qed.

(** X19. Merging the same scanner02 a second time changes nothing. *)
Theorem merge_idempotent (s1 s2 s : Scanner) :
  reference_frame s1 -> is_Some (translation s2) ->
  merge_02_into_01 s1 s2 = Ok s -> merge_02_into_01 s s2 = Ok s.
Proof.
  intros Hs1 [t Ht] H. unfold merge_02_into_01 in *.
  pose proof (get_scans_transformed s2 t Ht) as Hget. rewrite Hget, bind_Ok_l in *.
  pose proof (get_scans_in_range s2 _ Hget) as Hr.
  destruct (merge_loop_general _ s1 Hs1 Hr) as (s' & new & H' & Hs' & Ei & E & Hnd & Hnew).
  rewrite H', bind_Ok_l in H. injection H as <-.
  rewrite merge_loop_nothing_new.
  - rewrite bind_Ok_l. f_equal. unfold build_graph at 1.
    rewrite build_graph_scans, length_sorted.
    rewrite (sorted_id point_leb (sorted point_leb (scans s')))
      by (apply sorted_Sorted, point_leb_total).
    destruct (build_graph_transform s') as (-> & -> & ->). reflexivity.
  - now apply build_graph_frame.
  - intros q Hq. rewrite build_graph_scans, sorted_Permutation, E, elem_of_app.
    destruct (decide (q ∈ scans s1)) as [Hin | Hnot]; [now left | right].
    apply Hnew. split; [exact Hq | exact Hnot].
Qed.

Lemma merge_contents_witness :
  exists s, merge_02_into_01 scene_oriented.1 scene_oriented.2 = Ok s
    /\ reference_frame s.
Proof.
  destruct (proj1 (merge_contents scene_oriented.1 scene_oriented.2))
    as (s & H & Hf & _).
  - split; [vm_compute; reflexivity | split; [vm_compute; reflexivity | ]].
    apply Forall_forall. intros p Hp. apply list_elem_of_In in Hp. vm_compute in Hp.
    repeat (destruct Hp as [Hp | Hp]; [rewrite <- Hp; vm_compute; intuition discriminate | ]).
    contradiction.
  - vm_compute. eauto.
  - exists s. split; [exact H | exact Hf].
Defined.

Lemma merge_idempotent_witness :
  merge_02_into_01 (scanner00 scene_merged) scene_oriented.2
  = Ok (scanner00 scene_merged).
Proof.
  apply (merge_idempotent scene_oriented.1 scene_oriented.2 (scanner00 scene_merged)).
  - split; [vm_compute; reflexivity | split; [vm_compute; reflexivity | ]].
    apply Forall_forall. intros p Hp. apply list_elem_of_In in Hp. vm_compute in Hp.
    repeat (destruct Hp as [Hp | Hp]; [rewrite <- Hp; vm_compute; intuition discriminate | ]).
    contradiction.
  - vm_compute. eauto.
  - vm_compute. reflexivity.
Defined.

(** ** The input and the worklist loop *)

Lemma load_scanner_loop (pts : list Point) (s : Scanner) :
  (Forall point_in_range pts ->
   foldM (fun s '(x, y, z) => add_scan s x y z) s pts
   = Ok {| index := index s; translation := translation s;
           rotation_matrix := rotation_matrix s; scans := scans s ++ pts;
           graph := graph s; unique_edges_by_weight := unique_edges_by_weight s |})
  /\ (~ Forall point_in_range pts ->
      foldM (fun s '(x, y, z) => add_scan s x y z) s pts = Raise OverflowError).
Proof.
  revert s. induction pts as [| [[x y] z] pts IH]; intros s; cbn [foldM].
  - split; [ | intros H; contradiction H; constructor].
    intros _. rewrite app_nil_r. now destruct s.
  - destruct (decide (point_in_range (x, y, z))) as [Hp | Hp].
    + assert (add_scan s x y z
              = Ok {| index := index s; translation := translation s;
                      rotation_matrix := rotation_matrix s;
                      scans := scans s ++ [(x, y, z)]; graph := graph s;
                      unique_edges_by_weight := unique_edges_by_weight s |}) as ->
        by (unfold add_scan; now rewrite (numpy_array_in_range x y z Hp)).
      rewrite !bind_Ok_l.
      split.
      * intros H. rewrite (proj1 (IH _)) by exact (Forall_inv_tail H). simpl.
        now rewrite <- app_assoc.
      * intros H. apply (proj2 (IH _)). intros Hall. apply H. now constructor.
    + split; [intros H; exfalso; apply Hp; exact (Forall_inv H) | intros _].
      assert (add_scan s x y z = Raise OverflowError) as ->; [ | reflexivity].
      unfold add_scan, numpy_array.
      destruct (Int64.in_rangeb x && Int64.in_rangeb y && Int64.in_rangeb z) eqn:E;
        [ | reflexivity].
      exfalso. apply Hp.
      apply andb_true_iff in E. destruct E as [E Ez].
      apply andb_true_iff in E. destruct E as [Ex Ey].
      apply in_rangeb_spec in Ex, Ey, Ez. exact (conj Ex (conj Ey Ez)).
Qed.

Lemma load_scanners_spec (input : list (nat * list Point)) :
  (Forall (fun r => Forall point_in_range r.2) input ->
   load_scanners input
   = Ok (map (fun r => {| index := r.1; translation := Some zero_vector;
                          rotation_matrix := identity_matrix; scans := r.2;
                          graph := None; unique_edges_by_weight := None |}) input))
  /\ (~ Forall (fun r => Forall point_in_range r.2) input ->
      load_scanners input = Raise OverflowError).
Proof.
  induction input as [| r rest IH]; cbn [load_scanners].
  - split; [reflexivity | intros H; contradiction H; constructor].
  - unfold load_scanner.
    destruct (decide (Forall point_in_range r.2)) as [Hr | Hr].
    + rewrite (proj1 (load_scanner_loop r.2 (Scanner_init r.1)) Hr), bind_Ok_l.
      split.
      * intros H. rewrite (proj1 IH) by exact (Forall_inv_tail H). reflexivity.
      * intros H. rewrite (proj2 IH); [reflexivity | ].
        intros Hall. apply H. now constructor.
    + rewrite (proj2 (load_scanner_loop r.2 (Scanner_init r.1)) Hr).
      split; [intros H; exfalso; apply Hr; exact (Forall_inv H) | reflexivity].
Qed.

(** X20. Reading the input: with 64-bit coordinates everywhere there is one
    scanner per block of the input, in the order of the blocks, with the index
    of the block, its points in sorted order, the graph and the edges built,
    the identity rotation and the zero translation; one coordinate out of the
    64-bit range raises [OverflowError]. *)
Theorem load_scanners_built (input : list (nat * list Point)) :
  (Forall (fun r => Forall point_in_range r.2) input ->
   exists scanners, load input = Ok scanners
     /\ length scanners = length input
     /\ forall i r, input !! i = Some r ->
          exists s, scanners !! i = Some s
            /\ index s = r.1 /\ scans s = sorted point_leb r.2
            /\ scans s ≡ₚ r.2 /\ Sorted point_le (scans s)
            /\ up_to_date s /\ reference_frame s)
  /\ (~ Forall (fun r => Forall point_in_range r.2) input ->
      load input = Raise OverflowError).
Proof.
  split.
  - intros Hall. unfold load. rewrite (proj1 (load_scanners_spec input) Hall), bind_Ok_l.
    eexists. split; [reflexivity | ].
    split; [now rewrite !length_map | ].
    intros i r Hi. eexists. split.
    + change (map ?f ?l) with (f <$> l).
      rewrite !list_lookup_fmap, Hi. reflexivity.
    + rewrite build_graph_scans. simpl.
      split; [now rewrite (proj2 (proj2 (build_graph_transform _))) | ].
      split; [reflexivity | ].
      split; [apply sorted_Permutation | ].
      split; [apply sorted_Sorted, point_leb_total | ].
      split; [apply build_graph_up_to_date | ].
      apply build_graph_frame. repeat split. simpl.
      rewrite Forall_forall in Hall. apply (Hall r).
      eapply list_elem_of_lookup_2. exact Hi.
  - intros Hnot. unfold load. now rewrite (proj2 (load_scanners_spec input) Hnot).
Qed.

(** X21. One iteration of the worklist loop that returns, from a reference
    scanner of 64-bit points: with fewer than 12 correspondences the scanner
    goes to the end of the worklist and nothing else changes; with 12 or more
    it leaves the worklist with its index and its points as they were, and the
    reference scanner keeps its index and every point it had, is in the
    reference frame with its graph built, and has as many points as line 357
    asserts. *)
Theorem driver_step_cases (st st' : Driver) (s : Scanner) (rest : list Scanner) :
  unoriented_scanners st = s :: rest ->
  Forall point_in_range (scans (scanner00 st)) ->
  driver_step st = Ok st' ->
  exists m, find_subgraph_isomorphism (scanner00 st) s = Ok m
    /\ (((iso_size m < 12)%nat
         /\ st' = mkDriver (scanner00 st) (rest ++ [s]) (oriented st))
        \/ ((12 <= iso_size m)%nat
            /\ unoriented_scanners st' = rest
            /\ (exists s01, oriented st' = oriented st ++ [s01]
                  /\ index s01 = index s /\ scans s01 = scans s
                  /\ is_Some (translation s01))
            /\ index (scanner00 st') = index (scanner00 st)
            /\ (forall p, p ∈ scans (scanner00 st) -> p ∈ scans (scanner00 st'))
            /\ reference_frame (scanner00 st') /\ up_to_date (scanner00 st')
            /\ (size (scanner00 st') + iso_size m
                = size (scanner00 st) + size s)%nat)).
Proof.
  intros Hw Hr H. unfold driver_step in H. rewrite Hw in H.
  apply bind_Ok in H. destruct H as (m & Hm & H). exists m. split; [exact Hm | ].
  destruct (Nat.leb_spec 12 (iso_size m)) as [Hge | Hlt].
  2: { left. split; [exact Hlt | now injection H as <-]. }
  right. split; [exact Hge | ].
  apply bind_Ok in H. destruct H as ([s00 s01] & Ho & H).
  apply bind_Ok in H. destruct H as (s00' & Hmerge & H).
  apply bind_Ok in H. destruct H as (u & Hassert & H). injection H as <-. simpl.
  apply assert_Ok, Z.eqb_eq in Hassert.
  pose proof (orient_frame _ _ _ _ _ Hr Ho) as Hframe.
  destruct (orient_Ok _ _ _ _ _ Ho) as (E1 & Escans & Ht & _).
  assert (index s01 = index s) as Eindex.
  { unfold orient_02_to_01 in Ho. inv_Ok Ho. now injection Ho as _ <-. }
  split; [reflexivity | ].
  split; [exists s01; auto | ].
  unfold merge_02_into_01 in Hmerge.
  apply bind_Ok in Hmerge. destruct Hmerge as (l & Hl & Hmerge).
  apply bind_Ok in Hmerge. destruct Hmerge as (s' & Hloop & Hmerge).
  injection Hmerge as <-.
  destruct (merge_loop_general l s00 Hframe (get_scans_in_range _ _ Hl))
    as (s'' & new & Hloop' & Hs'' & Ei & E & _).
  rewrite Hloop in Hloop'. injection Hloop' as <-.
  split.
  { rewrite (proj2 (proj2 (build_graph_transform s'))), Ei, E1. reflexivity. }
  split.
  { intros p Hp. rewrite build_graph_scans, sorted_Permutation, E, E1.
    apply elem_of_app. now left. }
  split; [now apply build_graph_frame | ].
  split; [apply build_graph_up_to_date | ].
  lia.
Qed.

Lemma driver_step_cases_witness :
  exists m, find_subgraph_isomorphism (scanner00 scene_driver) (scene_scanner 1) = Ok m
    /\ (((iso_size m < 12)%nat
         /\ scene_merged
            = mkDriver (scanner00 scene_driver) ([] ++ [scene_scanner 1])
                (oriented scene_driver))
        \/ ((12 <= iso_size m)%nat
            /\ unoriented_scanners scene_merged = []
            /\ (exists s01, oriented scene_merged = oriented scene_driver ++ [s01]
                  /\ index s01 = index (scene_scanner 1)
                  /\ scans s01 = scans (scene_scanner 1)
                  /\ is_Some (translation s01))
            /\ index (scanner00 scene_merged) = index (scanner00 scene_driver)
            /\ (forall p, p ∈ scans (scanner00 scene_driver) ->
                  p ∈ scans (scanner00 scene_merged))
            /\ reference_frame (scanner00 scene_merged)
            /\ up_to_date (scanner00 scene_merged)
            /\ (size (scanner00 scene_merged) + iso_size m
                = size (scanner00 scene_driver) + size (scene_scanner 1))%nat)).
Proof.
  apply (driver_step_cases scene_driver scene_merged (scene_scanner 1) []).
  - reflexivity.
  - apply Forall_forall. intros p Hp. apply list_elem_of_In in Hp. vm_compute in Hp.
    repeat (destruct Hp as [Hp | Hp]; [rewrite <- Hp; vm_compute; intuition discriminate | ]).
    contradiction.
  - vm_compute. reflexivity.
Defined.

Lemma driver_step_requeue (s0 : Scanner) (s : Scanner) (rest o : list Scanner)
    (m : SubGraphIsomorphism) :
  find_subgraph_isomorphism s0 s = Ok m -> (iso_size m < 12)%nat ->
  driver_step (mkDriver s0 (s :: rest) o) = Ok (mkDriver s0 (rest ++ [s]) o).
Proof.
  intros Hm Hlt. unfold driver_step. cbn [unoriented_scanners scanner00 oriented].
  rewrite Hm, bind_Ok_l.
  now rewrite (proj2 (Nat.leb_gt 12 (iso_size m)) Hlt).
Qed.

Lemma driver_steps_pass (s0 : Scanner) (l1 l2 o : list Scanner) :
  (forall s, s ∈ l1 ->
     exists m, find_subgraph_isomorphism s0 s = Ok m /\ (iso_size m < 12)%nat) ->
  driver_steps (length l1) (mkDriver s0 (l1 ++ l2) o) = Ok (mkDriver s0 (l2 ++ l1) o).
Proof.
  revert l2. induction l1 as [| s l1 IH]; intros l2 Hall; cbn [length driver_steps].
  - now rewrite app_nil_r.
  - destruct (Hall s) as (m & Hm & Hlt); [left | ].
    rewrite <- app_comm_cons, (driver_step_requeue s0 s _ o m Hm Hlt), bind_Ok_l.
    rewrite <- app_assoc, IH by (intros x Hx; apply Hall; now right).
    now rewrite <- app_assoc.
Qed.

(** X22. The worklist loop does not end when no scanner of the worklist has
    12 correspondences with the reference scanner: every iteration returns,
    the reference scanner and the oriented scanners stay as they are, the
    worklist keeps its scanners, and a full pass over it leads back to the
    same state. *)
Theorem driver_requeues_forever (st : Driver) :
  unoriented_scanners st <> [] ->
  (forall s, s ∈ unoriented_scanners st ->
     exists m, find_subgraph_isomorphism (scanner00 st) s = Ok m
       /\ (iso_size m < 12)%nat) ->
  driver_steps (length (unoriented_scanners st)) st = Ok st
  /\ forall n, exists st',
       driver_steps n st = Ok st'
       /\ scanner00 st' = scanner00 st /\ oriented st' = oriented st
       /\ unoriented_scanners st' ≡ₚ unoriented_scanners st
       /\ unoriented_scanners st' <> [].
Proof.
  intros Hne Hall. split.
  - destruct st as [s0 l o]. simpl in *.
    pose proof (driver_steps_pass s0 l [] o Hall) as H.
    now rewrite app_nil_r in H.
  - intros n. revert st Hne Hall. induction n as [| n IH]; intros st Hne Hall.
    + exists st. simpl. auto.
    + destruct st as [s0 l o]. simpl in *.
      destruct l as [| s rest]; [congruence | ].
      destruct (Hall s) as (m & Hm & Hlt); [left | ].
      rewrite (driver_step_requeue s0 s rest o m Hm Hlt), bind_Ok_l.
      assert (rest ++ [s] ≡ₚ s :: rest) as Hperm
        by (rewrite Permutation_app_comm; reflexivity).
      destruct (IH (mkDriver s0 (rest ++ [s]) o)) as (st' & H & E0 & Eo & Ep & Hne').
      * simpl. intros E. now apply app_eq_nil in E as [_ E].
      * simpl. intros x Hx. apply Hall. now rewrite <- Hperm.
      * exists st'. simpl in *.
        split; [exact H | split; [exact E0 | split; [exact Eo | split; [ | exact Hne']]]].
        now transitivity (rest ++ [s]).
Qed.

Lemma driver_requeues_forever_witness :
  driver_steps 1 (mkDriver pair_scanner1 [pair_scanner2] [])
  = Ok (mkDriver pair_scanner1 [pair_scanner2] []).
Proof.
  apply (proj1 (driver_requeues_forever (mkDriver pair_scanner1 [pair_scanner2] [])
                  ltac:(discriminate)
                  ltac:(intros s Hs; apply list_elem_of_singleton in Hs; subst s;
                        eexists; split; [vm_compute; reflexivity | vm_compute; lia]))).
Defined.

(** ** The coordinates of a map and the largest distance *)

(** X23. [get_coordinates] returns the points of scanner01 at the keys of
    the map, in the order of the keys, when every key is an index of a point
    of scanner01, and raises [IndexError] otherwise. *)
Theorem get_coordinates_points (m : SubGraphIsomorphism) :
  ((forall k, k ∈ (iso_map m).*1 -> (k < size (scanner01 m))%nat) ->
   exists l, get_coordinates m = Ok l
     /\ length l = iso_size m
     /\ forall n k v, iso_map m !! n = Some (k, v) ->
          l !! n = scans (scanner01 m) !! k)
  /\ ((exists k, k ∈ (iso_map m).*1 /\ (size (scanner01 m) <= k)%nat) ->
      get_coordinates m = Raise IndexError).
Proof.
  unfold get_coordinates, iso_size, size.
  generalize (scans (scanner01 m)) as pts. intros pts.
  induction (iso_map m) as [| [k v] rest [IH1 IH2]]; cbn [get_coordinates_loop].
  - split.
    + intros _. exists []. split; [reflexivity | split; [reflexivity | ]].
      intros n k v H. discriminate.
    + intros (k & Hk & _). now apply elem_of_nil in Hk.
  - split.
    + intros Hall.
      destruct (list_get_lt pts k) as (p & -> & Hp); [apply Hall; left | ].
      destruct IH1 as (l & -> & Hlen & Hl); [intros k' Hk'; apply Hall; now right | ].
      rewrite !bind_Ok_l. exists (p :: l).
      split; [reflexivity | split; [simpl; now rewrite Hlen | ]].
      intros [| n] k' v' H; simpl in *; [ | now apply (Hl n k' v')].
      injection H as <- <-. now rewrite Hp.
    + intros (k' & Hk' & Hge). rewrite fmap_cons in Hk'. apply elem_of_cons in Hk'.
      unfold list_get at 1.
      destruct (pts !! k) as [p | ] eqn:Ep; [ | reflexivity].
      rewrite bind_Ok_l. destruct Hk' as [-> | Hk'].
      * apply lookup_lt_Some in Ep. simpl in Hge. lia.
      * rewrite IH2; [reflexivity | ]. exists k'. auto.
Qed.

Lemma foldM_map {A B C} (f : A -> C -> result A) (g : B -> C) (a : A) (l : list B) :
  foldM f a (map g l) = foldM (fun a x => f a (g x)) a l.
Proof.
  revert a. induction l as [| x l IH]; intros a; cbn [map foldM]; [reflexivity | ].
  destruct (f a (g x)); simpl; [apply IH | reflexivity].
Qed.

Lemma foldM_flat_map {A B C} (f : B -> A -> C -> result A) (h : B -> list C)
    (a : A) (l : list B) :
  foldM (fun a x => foldM (f x) a (h x)) a l
  = foldM (fun a (p : B * C) => f p.1 a p.2) a
      (flat_map (fun x => map (pair x) (h x)) l).
Proof.
  revert a. induction l as [| x l IH]; intros a; cbn [flat_map foldM]; [reflexivity | ].
  rewrite foldM_app, foldM_map. cbn [fst snd].
  destruct (foldM (f x) a (h x)); simpl; [apply IH | reflexivity].
Qed.

(** A loop that keeps the largest of the values it meets. *)
Lemma foldM_maximum {X} (k : X -> result (option Z)) (l : list X) (m0 : Z) :
  let step := fun (m : Z) (x : X) =>
    o ← k x;
    match o with
    | Some d => Ok (if m <? d then d else m)
    | None => Ok m
    end in
  (Forall (fun x => exists o, k x = Ok o) l ->
   exists m, foldM step m0 l = Ok m
     /\ m0 <= m
     /\ (forall x d, x ∈ l -> k x = Ok (Some d) -> d <= m)
     /\ (m = m0 \/ exists x, x ∈ l /\ k x = Ok (Some m)))
  /\ (forall e, (exists x, x ∈ l /\ k x = Raise e) ->
        (forall x e', x ∈ l -> k x = Raise e' -> e' = e) ->
        foldM step m0 l = Raise e).
Proof.
  intros step. revert m0. induction l as [| x l IH]; intros m0; cbn [foldM].
  - split.
    + intros _. exists m0. split; [reflexivity | split; [lia | split; [ | now left]]].
      intros x d H. now apply elem_of_nil in H.
    + intros e (x & H & _). now apply elem_of_nil in H.
  - split.
    + intros Hall. destruct (Forall_inv Hall) as [o Ho].
      set (m1 := match o with Some d => if m0 <? d then d else m0 | None => m0 end).
      assert (step m0 x = Ok m1) as ->
        by (unfold step; rewrite Ho, bind_Ok_l; subst m1; now destruct o).
      rewrite bind_Ok_l.
      destruct (proj1 (IH m1) (Forall_inv_tail Hall)) as (m & -> & Hle & Hmax & Hwit).
      assert (m0 <= m1 /\ (forall d, o = Some d -> d <= m1)
              /\ (m1 = m0 \/ o = Some m1)) as (H01 & Ho1 & Hw1).
      { subst m1. destruct o as [d | ]; [ | split; [lia | split; [discriminate | now left]]].
        destruct (Z.ltb_spec m0 d).
        - split; [lia | split; [intros ? [= <-]; lia | now right]].
        - split; [lia | split; [intros ? [= <-]; lia | now left]]. }
      exists m. split; [reflexivity | split; [lia | split]].
      * intros y d Hy Hd. apply elem_of_cons in Hy. destruct Hy as [-> | Hy].
        -- rewrite Ho in Hd. injection Hd as Hd. specialize (Ho1 d Hd). lia.
        -- now apply (Hmax y d).
      * destruct Hwit as [-> | (y & Hy & Hd)].
        -- destruct Hw1 as [-> | Hw1]; [now left | right].
           exists x. split; [left | now rewrite Ho, Hw1].
        -- right. exists y. split; [now right | exact Hd].
    + intros e (y & Hy & Hd) Honly.
      destruct (k x) as [o | e'] eqn:Ek.
      * assert (exists m1, step m0 x = Ok m1) as [m1 ->]
          by (unfold step; rewrite Ek, bind_Ok_l; destruct o; eauto).
        rewrite bind_Ok_l.
        apply elem_of_cons in Hy. destruct Hy as [-> | Hy]; [congruence | ].
        apply (proj2 (IH m1) e); [now exists y | ].
        intros z e'' Hz. apply Honly. now right.
      * assert (step m0 x = Raise e') as -> by (unfold step; now rewrite Ek).
        simpl. f_equal. apply (Honly x); [left | exact Ek].
Qed.

Lemma foldM_ext {A B} (f g : A -> B -> result A) (a : A) (l : list B) :
  (forall a x, f a x = g a x) -> foldM f a l = foldM g a l.
Proof.
  intros H. revert a. induction l as [| x l IH]; intros a; cbn [foldM]; [reflexivity | ].
  rewrite H. destruct (g a x); simpl; [apply IH | reflexivity].
Qed.

Lemma max_distance_loop_pairs (scanners : list Scanner) :
  max_distance_loop scanners
  = foldM (fun (m : Z) x =>
             o ← pair_distance x;
             match o with
             | Some d => Ok (if m <? d then d else m)
             | None => Ok m
             end) 0 (scanner_pairs scanners).
Proof.
  unfold max_distance_loop, scanner_pairs.
  rewrite <- (foldM_flat_map
                (fun (x : nat * Scanner) (m : Z) (y : nat * Scanner) =>
                   o ← pair_distance (x, y);
                   match o with
                   | Some d => Ok (if m <? d then d else m)
                   | None => Ok m
                   end)
                (fun _ => enumerate scanners)).
  apply foldM_ext. intros m [i01 scanner01].
  apply foldM_ext. intros m' [i02 scanner02].
  unfold max_distance_step, pair_distance. cbn [fst snd].
  destruct (i01 =? i02)%nat; [reflexivity | ].
  now destruct (origin_distance scanner01 scanner02).
Qed.

Lemma elem_of_scanner_pairs (scanners : list Scanner) (i j : nat) (si sj : Scanner) :
  ((i, si), (j, sj)) ∈ scanner_pairs scanners
  <-> scanners !! i = Some si /\ scanners !! j = Some sj.
Proof.
  unfold scanner_pairs. rewrite list_elem_of_In, in_flat_map. split.
  - intros ([i' si'] & Hi & Hj). apply in_map_iff in Hj.
    destruct Hj as ([j' sj'] & [= -> -> -> ->] & Hj).
    now apply In_enumerate in Hi, Hj.
  - intros [Hi Hj]. exists (i, si). split; [now apply In_enumerate | ].
    apply in_map_iff. exists (j, sj). split; [reflexivity | now apply In_enumerate].
Qed.

(** What the loops return when every scanner has an origin. *)
Lemma max_distance_loop_spec :
  forall l, Forall (fun s => is_Some (get_origin s)) l ->
    exists m, max_distance_loop l = Ok m
      /\ 0 <= m
      /\ (forall i j si sj p q, i <> j ->
            l !! i = Some si -> l !! j = Some sj ->
            get_origin si = Some p -> get_origin sj = Some q ->
            manhatan_distance p q <= m)
      /\ (m = 0 \/ exists i j si sj p q, i <> j
            /\ l !! i = Some si /\ l !! j = Some sj
            /\ get_origin si = Some p /\ get_origin sj = Some q
            /\ m = manhatan_distance p q).
Proof.
  intros l Hall. rewrite max_distance_loop_pairs.
  pose proof (foldM_maximum pair_distance (scanner_pairs l) 0) as [HA _].
  cbv zeta in HA. rewrite Forall_forall in Hall.
  destruct HA as (m & Hm & Hle & Hmax & Hwit).
  { apply Forall_forall. intros [[i si] [j sj]] Hin.
    apply elem_of_scanner_pairs in Hin. destruct Hin as [Hi Hj].
    unfold pair_distance, origin_distance. cbn [fst snd].
    destruct (i =? j)%nat; [eauto | ].
    destruct (Hall si (list_elem_of_lookup_2 _ _ _ Hi)) as [p ->].
    destruct (Hall sj (list_elem_of_lookup_2 _ _ _ Hj)) as [q ->].
    rewrite bind_Ok_l. eauto. }
  exists m. split; [exact Hm | split; [exact Hle | split]].
  + intros i j si sj p q Hne Hi Hj Hp Hq.
    apply (Hmax ((i, si), (j, sj))); [now apply elem_of_scanner_pairs | ].
    unfold pair_distance, origin_distance. cbn [fst snd].
    now rewrite (proj2 (Nat.eqb_neq i j) Hne), Hp, Hq.
  + destruct Hwit as [-> | ([[i si] [j sj]] & Hin & Hd)]; [now left | right].
    apply elem_of_scanner_pairs in Hin. destruct Hin as [Hi Hj].
    unfold pair_distance, origin_distance in Hd. cbn [fst snd] in Hd.
    destruct (Nat.eqb_spec i j) as [_ | Hne]; [discriminate | ].
    destruct (get_origin si) as [p | ] eqn:Ep; [ | discriminate].
    destruct (get_origin sj) as [q | ] eqn:Eq; [ | discriminate].
    injection Hd as Hd. exists i, j, si, sj, p, q. auto 10.
Qed.

(** X24. The largest distance of lines 368-379: when every scanner has an
    origin the loops return a value that is no less than 0 and than the
    Manhattan distance of the origins of any two scanners at different
    places of the list, and that is 0 or one of these distances, so that the
    order of the scanners in the list does not matter; with fewer than two
    scanners the value is 0 whatever the origins are; with two scanners or
    more and an origin that is [None] the loops raise [TypeError]. *)
Theorem max_distance_is_maximum (scanners : list Scanner) :
  (Forall (fun s => is_Some (get_origin s)) scanners ->
   exists m, max_distance_loop scanners = Ok m
     /\ 0 <= m
     /\ (forall i j si sj p q, i <> j ->
           scanners !! i = Some si -> scanners !! j = Some sj ->
           get_origin si = Some p -> get_origin sj = Some q ->
           manhatan_distance p q <= m)
     /\ (m = 0 \/ exists i j si sj p q, i <> j
           /\ scanners !! i = Some si /\ scanners !! j = Some sj
           /\ get_origin si = Some p /\ get_origin sj = Some q
           /\ m = manhatan_distance p q))
  /\ (forall scanners', scanners' ≡ₚ scanners ->
        Forall (fun s => is_Some (get_origin s)) scanners ->
        max_distance_loop scanners' = max_distance_loop scanners)
  /\ ((length scanners <= 1)%nat -> max_distance_loop scanners = Ok 0)
  /\ ((2 <= length scanners)%nat ->
      ~ Forall (fun s => is_Some (get_origin s)) scanners ->
      max_distance_loop scanners = Raise TypeError).
Proof.
  assert (forall l l' m m',
            l' ≡ₚ l ->
            (forall i j si sj p q, i <> j ->
               l !! i = Some si -> l !! j = Some sj ->
               get_origin si = Some p -> get_origin sj = Some q ->
               manhatan_distance p q <= m) ->
            0 <= m ->
            (m' = 0 \/ exists i j si sj p q, i <> j
               /\ l' !! i = Some si /\ l' !! j = Some sj
               /\ get_origin si = Some p /\ get_origin sj = Some q
               /\ m' = manhatan_distance p q) ->
            m' <= m) as Hle.
  { intros l l' m m' Hperm Hmax H0 [-> | (i & j & si & sj & p & q & Hne & Hi & Hj & Hp & Hq & ->)];
      [exact H0 | ].
    apply Permutation_inj in Hperm. destruct Hperm as (_ & f & Hinj & Hf).
    apply (Hmax (f i) (f j) si sj p q); try assumption.
    - intros E. apply Hne. now apply Hinj.
    - now rewrite <- Hf.
    - now rewrite <- Hf. }
  split; [apply max_distance_loop_spec | split; [ | split]].
  - intros l' Hperm Hall.
    assert (Forall (fun s => is_Some (get_origin s)) l') as Hall'
      by (now rewrite Hperm).
    destruct (max_distance_loop_spec scanners Hall) as (m & -> & H0 & Hmax & Hwit).
    destruct (max_distance_loop_spec l' Hall') as (m' & -> & H0' & Hmax' & Hwit').
    f_equal. apply Z.le_antisymm.
    + now apply (Hle scanners l' m m').
    + now apply (Hle l' scanners m' m).
  - intros Hlen. rewrite max_distance_loop_pairs.
    pose proof (foldM_maximum pair_distance (scanner_pairs scanners) 0) as [HA _].
    cbv zeta in HA.
    assert (forall x, x ∈ scanner_pairs scanners -> pair_distance x = Ok None) as Hnone.
    { intros [[i si] [j sj]] Hin.
      apply elem_of_scanner_pairs in Hin. destruct Hin as [Hi Hj].
      apply lookup_lt_Some in Hi, Hj.
      unfold pair_distance. cbn [fst snd].
      now rewrite (proj2 (Nat.eqb_eq i j)) by lia. }
    destruct HA as (m & Hm & _ & _ & Hwit).
    { apply Forall_forall. intros x Hx. rewrite (Hnone x Hx). eauto. }
    rewrite Hm. destruct Hwit as [-> | (x & Hx & Hd)]; [reflexivity | ].
    rewrite (Hnone x Hx) in Hd. discriminate.
  - intros Hlen Hnot. rewrite max_distance_loop_pairs.
    pose proof (foldM_maximum pair_distance (scanner_pairs scanners) 0) as [_ HB].
    cbv zeta in HB.
    apply not_Forall_Exists in Hnot; [ | intros s; apply _].
    apply Exists_exists in Hnot. destruct Hnot as (s & Hs & Hnone).
    apply list_elem_of_lookup in Hs. destruct Hs as [i Hi].
    assert (get_origin s = None) as Es
      by (destruct (get_origin s) as [p | ] eqn:E;
          [exfalso; apply Hnone; cbv beta; rewrite E; eauto | reflexivity]).
    apply HB.
    + assert (exists j sj, j <> i /\ scanners !! j = Some sj) as (j & sj & Hne & Hj).
      { destruct i as [| i].
        - destruct (lookup_lt_is_Some_2 scanners 1) as [sj Hj]; [lia | ].
          exists 1%nat, sj. auto.
        - destruct (lookup_lt_is_Some_2 scanners 0) as [sj Hj]; [lia | ].
          exists 0%nat, sj. auto. }
      exists ((i, s), (j, sj)). split; [now apply elem_of_scanner_pairs | ].
      unfold pair_distance, origin_distance. cbn [fst snd].
      now rewrite (proj2 (Nat.eqb_neq i j)), Es by auto.
    + intros [[a sa] [b sb]] e' _ He.
      unfold pair_distance, origin_distance in He. cbn [fst snd] in He.
      destruct (a =? b)%nat; [discriminate | ].
      destruct (get_origin sa), (get_origin sb); simpl in He; congruence.
Qed.

(** ** From the input to the largest distance *)

Lemma driver_step_invariant (indices : list nat) (d d' : Driver) :
  driver_invariant indices d -> driver_step d = Ok d' -> driver_invariant indices d'.
Proof.
  intros (Hup & Hframe & Hwork & Hor & Hidx) H.
  pose proof (driver_step_frame d d' Hframe H) as Hframe'.
  unfold driver_step in H.
  destruct (unoriented_scanners d) as [| s rest] eqn:Ew.
  { injection H as <-. unfold driver_invariant. rewrite Ew. auto. }
  apply bind_Ok in H. destruct H as (m & Hm & H).
  destruct (12 <=? iso_size m)%nat.
  - apply bind_Ok in H. destruct H as ([s00 s01] & Ho & H).
    apply bind_Ok in H. destruct H as (s00' & Hmerge & H).
    apply bind_Ok in H. destruct H as (u & _ & H). injection H as <-.
    simpl in Hframe'.
    destruct (orient_Ok _ _ _ _ _ Ho) as (E1 & _ & Ht & _).
    assert (index s01 = index s) as Eindex.
    { unfold orient_02_to_01 in Ho. inv_Ok Ho. now injection Ho as _ <-. }
    pose proof (orient_frame _ _ _ _ _ (proj2 (proj2 Hframe)) Ho) as Hframe0.
    unfold merge_02_into_01 in Hmerge.
    apply bind_Ok in Hmerge. destruct Hmerge as (l & Hl & Hmerge).
    apply bind_Ok in Hmerge. destruct Hmerge as (s' & Hloop & Hmerge).
    injection Hmerge as <-.
    destruct (merge_loop_general l s00 Hframe0 (get_scans_in_range _ _ Hl))
      as (s'' & new & Hloop' & _ & Ei & _).
    rewrite Hloop in Hloop'. injection Hloop' as <-.
    split; [apply build_graph_up_to_date | ].
    split; [exact Hframe' | ]. simpl.
    split; [exact (Forall_inv_tail Hwork) | ].
    split; [apply Forall_app; split; [exact Hor | now repeat constructor] | ].
    rewrite (proj2 (proj2 (build_graph_transform s'))), Ei, E1. simpl.
    rewrite <- Hidx. apply Permutation_skip.
    rewrite !map_app. simpl. rewrite Eindex.
    rewrite (Permutation_app_comm (map index (oriented d)) [index s]). simpl.
    now rewrite Permutation_middle.
  - injection H as <-. simpl.
    split; [exact Hup | split; [exact Hframe | ]].
    split.
    { apply Forall_app. split; [exact (Forall_inv_tail Hwork) | ].
      constructor; [exact (Forall_inv Hwork) | constructor]. }
    split; [exact Hor | ].
    rewrite <- Hidx. apply Permutation_skip, Permutation_map, Permutation_app_tail.
    symmetry. apply Permutation_cons_append.
Qed.

(** X25. From the input to the largest distance: in every state the
    worklist loop reaches from an input that was read, the reference scanner
    is in the reference frame with its graph built, the scanners of the
    worklist have their graphs built, so the matcher finds the edges it
    reads, the oriented scanners have an origin, and the scanners have the
    indices of the input, none lost and none twice; when the worklist is
    empty, the largest-distance loops over the first scanner and the oriented
    scanners return, in whatever order the scanners are. *)
Theorem driver_keeps_invariant (input : list (nat * list Point))
    (scanners : list Scanner) (d d' : Driver) (n : nat) :
  load input = Ok scanners ->
  driver_init scanners = Ok d ->
  driver_steps n d = Ok d' ->
  driver_invariant input.*1 d'
  /\ (unoriented_scanners d' = [] ->
      exists first, scanners !! 0%nat = Some first
        /\ length (oriented d') = length (drop 1 input)
        /\ forall l, l ≡ₚ first :: oriented d' ->
             exists m, max_distance_loop l = Ok m /\ 0 <= m).
Proof.
  intros Hload Hinit Hsteps.
  assert (Forall (fun r => Forall point_in_range r.2) input) as Hrange.
  { destruct (decide (Forall (fun r => Forall point_in_range r.2) input)) as [H | H];
      [exact H | ].
    unfold load in Hload. rewrite (proj2 (load_scanners_spec input) H) in Hload.
    discriminate. }
  pose proof (load_frame input scanners Hload) as Hframes.
  assert (Forall up_to_date scanners /\ map index scanners = input.*1) as [Hups Hindex].
  { unfold load in Hload. rewrite (proj1 (load_scanners_spec input) Hrange) in Hload.
    rewrite bind_Ok_l in Hload. injection Hload as <-. split.
    - apply Forall_forall. intros s Hs.
      apply list_elem_of_In, in_map_iff in Hs. destruct Hs as (s' & <- & _).
      apply build_graph_up_to_date.
    - rewrite !map_map. apply map_ext. intros r.
      now rewrite (proj2 (proj2 (build_graph_transform _))). }
  clear Hload Hrange.
  unfold driver_init in Hinit. apply bind_Ok in Hinit.
  destruct Hinit as (s0 & Hs0 & Hinit). injection Hinit as <-.
  apply list_get_Ok in Hs0.
  destruct scanners as [| first rest]; [discriminate | ].
  injection Hs0 as ->. change (drop 1 (s0 :: rest)) with rest in Hsteps.
  assert (driver_invariant input.*1 (mkDriver s0 rest [])) as Hinv.
  { split; [exact (Forall_inv Hups) | ].
    split; [exact (Forall_inv Hframes) | ].
    split; [exact (Forall_inv_tail Hups) | ].
    split; [constructor | ].
    cbn [scanner00 unoriented_scanners oriented]. rewrite app_nil_r, <- Hindex.
    reflexivity. }
  assert (driver_invariant input.*1 d') as Hinv'.
  { revert Hinv Hsteps. generalize (mkDriver s0 rest []).
    clear. induction n as [| n IH]; intros st Hst H; cbn [driver_steps] in H.
    - now injection H as <-.
    - apply bind_Ok in H. destruct H as (st1 & H1 & H).
      apply (IH st1); [ | exact H]. now apply (driver_step_invariant _ st). }
  split; [exact Hinv' | ].
  intros Hempty. exists s0. split; [reflexivity | ].
  destruct Hinv' as (_ & _ & _ & Hor & Hidx). rewrite Hempty in Hidx.
  split.
  { apply Permutation_length in Hidx. cbn [app length] in Hidx.
    rewrite length_map, length_fmap in Hidx. rewrite length_drop. lia. }
  intros l Hperm.
  destruct (max_distance_loop_spec l) as (m & Hm & H0 & _).
  { rewrite Hperm. constructor; [ | exact Hor].
    destruct (Forall_inv Hframes) as (_ & Ht & _). unfold get_origin. rewrite Ht. eauto. }
  exists m. auto.
Qed.

Lemma driver_keeps_invariant_witness :
  driver_invariant scene.*1 scene_merged.
Proof.
  apply (proj1 (driver_keeps_invariant scene (value_or [] (load scene)) scene_driver
                  scene_merged 1
                  ltac:(vm_compute; reflexivity) ltac:(vm_compute; reflexivity)
                  ltac:(vm_compute; reflexivity))).
Defined.
